(** * PyThermal: the routines of [pythermal/routines.py], embedded and verified

    The development follows the pipeline of the program: state enumeration
    ([position_states]), the hopping Hamiltonian ([_hamiltonian],
    [distribute], [hamiltonian_parallel]), the eigen-decomposition wrapper
    ([diagonalize]), the relabelling of joint states ([relabel]), the reduced
    density matrices ([density_matrix_a], [rho_b_pbasis]) and the
    thermalisation diagnostic ([naive_thermal]).

    Conventions of the embedding:
    - Python integers are [Z] (or [nat] for counts that the code only uses as
      sizes and loop bounds); NumPy [int32] values are [Z] with the
      wrap-around written out ([wrap32]);
    - NumPy arrays are lists, two-dimensional arrays lists of rows; an access
      outside the array raises [IndexError] as in NumPy;
    - exceptions are the [Raise] branch of the [result] monad;
    - an array handed to [naive_thermal] has an element type ([Dtype]):
      floats, complex numbers or integers;
    - floating-point numbers are idealised as exact rationals ([Qc]). *)

From Stdlib Require Import ZArith Lia QArith Qcanon String.
From stdpp Require Import prelude sorting.

Local Open Scope Z_scope.

(** ** Exceptions *)

Inductive exn : Set :=
| IndexError
| ValueError
| TypeError
| ZeroDivisionError
| OverflowError.

Inductive result (A : Type) : Type :=
| Ok (a : A)
| Raise (e : exn).
Arguments Ok {A} a.
Arguments Raise {A} e.

Global Instance result_ret : MRet result := @Ok.
Global Instance result_bind : MBind result := λ A B f m,
  match m with
  | Ok a => f a
  | Raise e => Raise e
  end.

(** [for_each l body s] is [for x in l: body], threading the state [s]; the
    first exception stops the loop. *)
Fixpoint for_each {A S : Type} (l : list A) (body : A → S → result S) (s : S)
  : result S :=
  match l with
  | [] => Ok s
  | x :: l' => s' ← body x s; for_each l' body s'
  end.

(** [range(start, stop)] for natural bounds. *)
Definition range (start stop : nat) : list nat := seq start (stop - start).

(** [a[i]] for a list and a natural index. *)
Definition index {A : Type} (a : list A) (i : nat) : result A :=
  match a !! i with
  | Some x => Ok x
  | None => Raise IndexError
  end.

(** ** NumPy [int32] arithmetic *)

Definition wrap32 (z : Z) : Z := (z + 2 ^ 31) mod 2 ^ 32 - 2 ^ 31.

Definition int32 (z : Z) : Prop := - 2 ^ 31 ≤ z < 2 ^ 31.

(** [np.sum(a, dtype=np.int32)] *)
Definition np_sum32 (a : list Z) : Z :=
  fold_left (λ acc x, wrap32 (acc + x)) a 0.

Definition sub32 (a b : Z) : Z := wrap32 (a - b).
Definition abs32 (a : Z) : Z := wrap32 (Z.abs a).

(** [a % b] on NumPy integers: the sign follows the divisor, and a zero
    divisor gives 0 (with a warning) instead of an exception. *)
Definition np_mod (a b : Z) : Z := if b =? 0 then 0 else a mod b.

(** [np.unique]: the sorted distinct values. *)
Definition np_unique (a : list Z) : list Z := merge_sort Z.le (remove_dups a).

(** [np.intersect1d]: the sorted distinct values present in both arrays. *)
Definition intersect1d (a b : list Z) : list Z :=
  filter (λ x, x ∈ np_unique b) (np_unique a).

(** ** The Hamiltonian *)

(** A state is the array of its site labels; the state space the list of
    states. *)
Abbreviation state := (list Z).

Abbreviation matrix := (list (list Z)).

(** The shared [ham] array, with the trace of the cells stored into it. *)
Record shared_array : Type := SharedArray {
  cells : matrix;
  written : list (nat * nat)
}.

(** [ham[j, k] = v] *)
Definition ham_store (j k : nat) (v : Z) (ham : shared_array)
  : result shared_array :=
  match cells ham !! j with
  | Some row =>
      if decide (k < length row)%nat
      then Ok (SharedArray (<[j := <[k := v]> row]> (cells ham))
                           (written ham ++ [(j, k)]))
      else Raise IndexError
  | None => Raise IndexError
  end.

(** The value the body of the double loop of [_hamiltonian] stores at
    [(j, k)], from the two states. *)
Definition ham_entry (ndims : Z) (nop : nat) (sj sk : state) : Z :=
  let c := intersect1d sj sk in
  let c_sum := np_sum32 c in
  let c_size := length c in
  let j_sum := np_sum32 sj in
  let k_sum := np_sum32 sk in
  if Z.of_nat c_size =? Z.of_nat nop - 1 then
    if abs32 (sub32 j_sum k_sum) =? ndims then 1
    else if (sub32 k_sum j_sum =? 1)
            && negb (np_mod (sub32 j_sum c_sum) ndims =? 0) then 1
    else if (sub32 j_sum k_sum =? 1)
            && negb (np_mod (sub32 j_sum c_sum) ndims =? 1) then 1
    else 0
  else 0.

Definition ham_body (ndims : Z) (nop : nat) (pos_states : list state)
    (j k : nat) (ham : shared_array) : result shared_array :=
  sj ← index pos_states j;
  sk ← index pos_states k;
  ham_store j k (ham_entry ndims nop sj sk) ham.

Definition _hamiltonian (start stop nos : nat) (ndims : Z) (nop : nat)
    (pos_states : list state) (ham : shared_array) : result shared_array :=
  for_each (range start stop) (λ j ham,
    for_each (range 0 nos) (λ k ham,
      ham_body ndims nop pos_states j k ham) ham) ham.

Definition distribute (n_items n_processes i : nat) : result (nat * nat) :=
  if decide (n_processes = 0)%nat then Raise ZeroDivisionError
  else
    let items_per_process := (n_items / n_processes)%nat in
    let start := (i * items_per_process)%nat in
    let stop :=
      if decide (Z.of_nat i = Z.of_nat n_processes - 1) then n_items
      else (items_per_process * (i + 1))%nat in
    Ok (start, stop).

Definition zeros (rows cols : nat) : matrix :=
  replicate rows (replicate cols 0).

(** ** State enumeration *)

(** [itertools.combinations(l, r)]: the [r]-element sub-sequences of [l], in
    lexicographic order of their positions. *)
Fixpoint combinations {A : Type} (l : list A) (r : nat) : list (list A) :=
  match r, l with
  | O, _ => [[]]
  | S _, [] => []
  | S r', x :: l' => (cons x <$> combinations l' r') ++ combinations l' r
  end.

(** [a[i]] with NumPy's treatment of a negative index. *)
Definition np_index (len : nat) (i : Z) : result nat :=
  if (0 <=? i) && (i <? Z.of_nat len) then Ok (Z.to_nat i)
  else if (- Z.of_nat len <=? i) && (i <? 0)
  then Ok (Z.to_nat (i + Z.of_nat len))
  else Raise IndexError.

(** [np.delete(a, obj)] for an index array [obj]: every index is checked
    against the length, a negative one counts from the end, and the elements
    at the remaining positions are kept in order. *)
Definition np_delete (a : list Z) (obj : list Z) : result (list Z) :=
  idx ← mapM (np_index (length a)) obj;
  Ok (snd <$> filter (λ p, fst p ∉ idx) (zip (seq 0 (length a)) a)).

(** The conversion [dtype=np.int32] of the states is written as the
    wrap-around [wrap32], which leaves a label of the [int32] range as it is
    ([wrap32_id]); a label outside that range is wrapped or refused (with an
    [OverflowError]) depending on the version of NumPy, and is wrapped
    here. *)
Definition position_states (lat : list Z) (nop : nat)
    (del_pos : option (list Z)) : result (list state * nat) :=
  match del_pos with
  | None =>
      let pos_states :=
        (λ c : state, wrap32 <$> c) <$> combinations lat nop in
      Ok (pos_states, length pos_states)
  | Some del_pos =>
      lat_del ← np_delete lat ((λ p, p - 1) <$> del_pos);
      let pos_states :=
        (λ c : state, wrap32 <$> c) <$> combinations lat_del nop in
      Ok (pos_states, length pos_states)
  end.

(** The body of [hamiltonian_parallel] after the state space is known:
    [n_processes] is [mp.cpu_count()]; the workers are run one after the
    other in the order they are started. *)
Definition assemble (pos_states : list state) (nos : nat) (ndims : Z)
    (nop : nat) (n_processes : nat) : result shared_array :=
  for_each (range 0 n_processes) (λ i ham,
    '(start, stop) ← distribute nos n_processes i;
    _hamiltonian start stop nos ndims nop pos_states ham)
    (SharedArray (zeros nos nos) []).

Definition hamiltonian_parallel (lattice : list Z) (ndims : Z) (nop : nat)
    (n_processes : nat) : result matrix :=
  '(pos_states, nos) ← position_states lattice nop None;
  ham ← assemble pos_states nos ndims nop n_processes;
  Ok (cells ham).

(** The cells a schedule of the workers stores, one store per step: any
    interleaving of the workers is such a list. *)
Definition run_schedule (pos_states : list state) (nos : nat) (ndims : Z)
    (nop : nat) (schedule : list (nat * nat)) : result shared_array :=
  for_each schedule (λ jk ham,
    ham_body ndims nop pos_states (fst jk) (snd jk) ham)
    (SharedArray (zeros nos nos) []).

(** The iteration space of worker [i]. *)
Definition worker_cells (nos n_processes i : nat) : list (nat * nat) :=
  match distribute nos n_processes i with
  | Ok (start, stop) => j ← range start stop; k ← range 0 nos; [(j, k)]
  | Raise _ => []
  end.

(** *** The hopping rule, as the specification words it *)

(** The labels two states share. *)
Definition common (sj sk : state) : list Z := filter (λ x, x ∈ sk) sj.

Definition sumZ (l : list Z) : Z := foldr Z.add 0 l.

(** A site label: a non-negative [int32]. *)
Definition site_label (x : Z) : Prop := 0 ≤ x < 2 ^ 31.

(** A state of [nop] particles: [nop] strictly increasing site labels. *)
Definition valid_state (nop : nat) (s : state) : Prop :=
  length s = nop ∧ StronglySorted Z.lt s ∧ Forall site_label s.

(** [m[j, k]], when inside the matrix. *)
Definition cell {A : Type} (m : list (list A)) (j k : nat) : option A :=
  row ← m !! j; row !! k.

Definition hop (ndims : Z) (nop : nat) (sj sk : state) : Prop :=
  let c := common sj sk in
  Z.of_nat (length c) = Z.of_nat nop - 1 ∧
  (Z.abs (sumZ sj - sumZ sk) = ndims
   ∨ (sumZ sk - sumZ sj = 1 ∧ (sumZ sj - sumZ c) mod ndims ≠ 0)
   ∨ (sumZ sj - sumZ sk = 1 ∧ (sumZ sj - sumZ c) mod ndims ≠ 1)).

Global Instance hop_dec ndims nop sj sk : Decision (hop ndims nop sj sk).
Proof. unfold hop. apply _. Defined.

(** ** Combinatorial numbers *)

Fixpoint factorial (n : nat) : Z :=
  match n with
  | O => 1
  | S n' => Z.of_nat n * factorial n'
  end.

(** [math.factorial] *)
Definition mt_factorial (n : Z) : result Z :=
  if n <? 0 then Raise ValueError else Ok (factorial (Z.to_nat n)).

Definition ncr (n r : Z) : result Z :=
  fn ← mt_factorial n;
  fr ← mt_factorial r;
  fnr ← mt_factorial (n - r);
  Ok (fn / (fr * fnr)).

Definition sum_ncr (n k : Z) : result Z :=
  for_each (range 0 (Z.to_nat k)) (λ r acc,
    c ← ncr n (Z.of_nat r); Ok (acc + c)) 0.

(** The binomial coefficient C(n, k), by Pascal's rule. *)
Fixpoint binom (n k : nat) : Z :=
  match n, k with
  | _, O => 1
  | O, S _ => 0
  | S n', S k' => binom n' k' + binom n' k
  end.

(** C(n, 0) + ... + C(n, k - 1) *)
Fixpoint sum_binom (n k : nat) : Z :=
  match k with
  | O => 0
  | S k' => sum_binom n k' + binom n k'
  end.

(** ** Relabelling *)

Record label_row : Set := LabelRow {
  a_index : Z;
  a_count : Z;
  b_index : Z
}.

(** The loop state of [relabel]: the two rows of the counter array [x], the
    patterns seen and the rows emitted. *)
Record relabel_state : Type := RelabelState {
  x0 : list Z;
  x1 : list Z;
  dump : list (list Z);
  relabelled_states : list label_row
}.

Definition relabel_body (nop nol_b : nat) (lat_a : list Z) (st : state)
    (s : relabel_state) : result relabel_state :=
  let comm := filter (λ k, k ∈ lat_a) st in
  let n := length comm in
  c1 ← index (x1 s) n;
  let x1' := <[n := wrap32 (c1 + 1)]> (x1 s) in
  '(x0', dump') ←
    (if decide (comm ∈ dump s) then Ok (x0 s, dump s)
     else c0 ← index (x0 s) n;
          Ok (<[n := wrap32 (c0 + 1)]> (x0 s), dump s ++ [comm]));
  a ← index x0' n;
  b ← index x1' n;
  let out := relabelled_states s ++ [LabelRow a (Z.of_nat n) b] in
  total ← ncr (Z.of_nat nol_b) (Z.of_nat nop - Z.of_nat n);
  if b =? total then Ok (RelabelState x0' (<[n := 0]> x1') dump' out)
  else Ok (RelabelState x0' x1' dump' out).

Definition relabel (e_states : list state) (nop nol_b : nat)
    (lat_a : list Z) : result (list label_row) :=
  s ← for_each e_states (relabel_body nop nol_b lat_a)
        (RelabelState (replicate (nop + 1) 0) (replicate (nop + 1) 0) [] []);
  Ok (relabelled_states s).

(** The A-occupation pattern of a state and the distinct patterns of a
    state space, in order of first appearance. *)
Definition pattern (lat_a : list Z) (st : state) : list Z :=
  filter (λ k, k ∈ lat_a) st.

Definition patterns (lat_a : list Z) (e_states : list state) : list (list Z) :=
  foldl (λ d st, if decide (pattern lat_a st ∈ d) then d
                 else d ++ [pattern lat_a st]) [] e_states.

(** How many of [l] have [n] elements. *)
Definition count_size {A : Type} (n : nat) (l : list (list A)) : nat :=
  length (filter (λ c, length c = n) l).

(** *** Notions used to state the results on the assembly *)

(** An [n] by [n] matrix. *)
Definition shape {A : Type} (n : nat) (m : list (list A)) : Prop :=
  length m = n ∧ Forall (λ row, length row = n) m.

(** The value [_hamiltonian] computes for the pair of states at [(j, k)]. *)
Definition entry_at (pos_states : list state) (ndims : Z) (nop : nat)
    (j k : nat) : Z :=
  ham_entry ndims nop (pos_states !!! j) (pos_states !!! k).

(** The cells of an [nos] by [nos] matrix, row by row. *)
Definition all_cells (nos : nat) : list (nat * nat) :=
  j ← range 0 nos; k ← range 0 nos; [(j, k)].

(** How many states of [e_states] have [n] particles in A. *)
Definition class_count (lat_a : list Z) (n : nat) (e_states : list state)
  : nat :=
  length (filter (λ st, length (pattern lat_a st) = n) e_states).

(** The row the specification gives the state [st] that comes after the
    states [before]: the number of distinct patterns of its class seen so
    far, its class, and its position in the current cycle of B-patterns. *)
Definition label_of (lat_a : list Z) (nop nol_b : nat)
    (before : list state) (st : state) : label_row :=
  let n := length (pattern lat_a st) in
  LabelRow
    (Z.of_nat (count_size n (patterns lat_a (before ++ [st]))))
    (Z.of_nat n)
    (Z.of_nat (class_count lat_a n before) mod binom nol_b (nop - n) + 1).

(** The loop invariant of [relabel] after the states [done] are processed. *)
Definition relabel_inv (lat_a : list Z) (nop nol_b : nat)
    (done : list state) (s : relabel_state) : Prop :=
  length (x0 s) = S nop ∧
  length (x1 s) = S nop ∧
  dump s = patterns lat_a done ∧
  (∀ n, (n ≤ nop)%nat →
     x0 s !! n = Some (Z.of_nat (count_size n (dump s)))) ∧
  (∀ n, (n ≤ nop)%nat →
     x1 s !! n = Some (Z.of_nat (class_count lat_a n done)
                       mod binom nol_b (nop - n))) ∧
  length (relabelled_states s) = length done ∧
  (∀ i st, done !! i = Some st →
     relabelled_states s !! i
       = Some (label_of lat_a nop nol_b (take i done) st)).

(** A state [relabel] accepts: at most [nop] of its particles are in A and
    the others fit into the [nol_b] sites of B. *)
Definition fits (lat_a : list Z) (nop nol_b : nat) (st : state) : Prop :=
  (length (pattern lat_a st) ≤ nop)%nat ∧
  (nop - length (pattern lat_a st) ≤ nol_b)%nat.

(** ** Complex numbers

    The floating-point complex numbers of NumPy, idealised as pairs of
    exact rationals. *)

Record complex : Set := Complex { re : Qc; im : Qc }.

Definition czero : complex := Complex 0 0.

Definition cadd (a b : complex) : complex :=
  Complex (re a + re b) (im a + im b).

Definition cmul (a b : complex) : complex :=
  Complex (re a * re b - im a * im b) (re a * im b + im a * re b).

Definition conj (a : complex) : complex := Complex (re a) (- im a).

(** [np.vdot(a, b)] on two scalars: the first one is conjugated. *)
Definition vdot (a b : complex) : complex := cmul (conj a) b.

(** [math.fabs] *)
Definition fabs (x : Qc) : Qc := if decide (x < 0)%Qc then (- x)%Qc else x.

Definition tolerance : Qc := Q2Qc (1 # 10).

(** The diagonal of a two-dimensional array. *)
Definition diagonal {A : Type} (m : list (list A)) : list A :=
  omap (λ p, cell m p p) (seq 0 (length m)).

(** [np.trace(rho.real)] *)
Definition trace_real (rho : list (list complex)) : Qc :=
  foldr Qcplus 0%Qc (re <$> diagonal rho).


(** ** Reduced density matrices *)

Definition czeros (dim : nat) : list (list complex) :=
  replicate dim (replicate dim czero).

(** What reaches the diagnostics channel. *)
Inductive diagnostic : Set :=
| Warned (category : string) (message : string)
| Printed (message : string) (value : Qc).

(** The values passed as the [category] of [warnings.warn]. *)
Inductive pyobj : Set :=
| PyNone
| PyFloat (x : Qc)
| PyWarningClass (name : string).

(** [warnings.warn(message, category)]: the category must be a subclass of
    [Warning] ([None] stands for [UserWarning]); anything else is a
    [TypeError]. *)
Definition warnings_warn (message : string) (category : pyobj)
  : result diagnostic :=
  match category with
  | PyNone => Ok (Warned "UserWarning" message)
  | PyWarningClass name => Ok (Warned name message)
  | PyFloat _ => Raise TypeError
  end.

(** The row (or column) of [density_mat_a] a relabelled state goes to. *)
Definition index_a (nol_a : nat) (l : label_row) : result Z :=
  s ← sum_ncr (Z.of_nat nol_a) (a_count l);
  Ok (a_index l + s - 1).

Definition density_body_a (label : list label_row) (e_vec : list complex)
    (nol_a : nat) (i j : nat) (density_mat_a : list (list complex))
  : result (list (list complex)) :=
  li ← index label i;
  lj ← index label j;
  if (a_count li =? a_count lj) && (b_index li =? b_index lj) then
    m ← index_a nol_a li;
    n ← index_a nol_a lj;
    mi ← np_index (length density_mat_a) m;
    row ← index density_mat_a mi;
    ni ← np_index (length row) n;
    old ← index row ni;
    ej ← index e_vec j;
    ei ← index e_vec i;
    Ok (<[mi := <[ni := cadd old (vdot ej ei)]> row]> density_mat_a)
  else Ok density_mat_a.

(** The accumulation loop of [density_matrix_a]. *)
Definition density_loop_a (label : list label_row) (e_vec : list complex)
    (nos nol_a nop : nat) : result (list (list complex)) :=
  dim_a ← sum_ncr (Z.of_nat nol_a) (Z.of_nat nop + 1);
  for_each (range 0 nos) (λ i rho,
    for_each (range 0 nos) (λ j rho,
      density_body_a label e_vec nol_a i j rho) rho)
    (czeros (Z.to_nat dim_a)).

(** [density_matrix_a] returns the matrix; the second component is what it
    sent to the diagnostics channel. *)
Definition density_matrix_a (label : list label_row) (e_vec : list complex)
    (nos nol_a nop : nat)
  : result (list (list complex) * list diagnostic) :=
  density_mat_a ← density_loop_a label e_vec nos nol_a nop;
  let den_trace_a := trace_real density_mat_a in
  if decide (tolerance < fabs (den_trace_a - 1))%Qc then
    w ← warnings_warn "Trace of density matrix A not 1, Trace="
          (PyFloat den_trace_a);
    Ok (density_mat_a, [w])
  else Ok (density_mat_a, []).

(** The row (or column) of [rho_b] a relabelled state goes to. *)
Definition index_b (nol_b nop : nat) (l : label_row) : result Z :=
  s ← sum_ncr (Z.of_nat nol_b) (Z.of_nat nop - a_count l);
  Ok (b_index l + s - 1).

Definition rho_body_b (label : list label_row) (e_vec : list complex)
    (nol_b nop : nat) (i j : nat) (rho_b : list (list complex))
  : result (list (list complex)) :=
  li ← index label i;
  lj ← index label j;
  if (a_count li =? a_count lj) && (a_index li =? a_index lj) then
    m ← index_b nol_b nop li;
    n ← index_b nol_b nop lj;
    mi ← np_index (length rho_b) m;
    row ← index rho_b mi;
    ni ← np_index (length row) n;
    old ← index row ni;
    ej ← index e_vec j;
    ei ← index e_vec i;
    Ok (<[mi := <[ni := cadd old (vdot ej ei)]> row]> rho_b)
  else Ok rho_b.

(** The accumulation loop of [rho_b_pbasis]. *)
Definition rho_loop_b (label : list label_row) (e_vec : list complex)
    (nos nol_b nop : nat) : result (list (list complex)) :=
  dim_b ← sum_ncr (Z.of_nat nol_b) (Z.of_nat nop + 1);
  for_each (range 0 nos) (λ i rho,
    for_each (range 0 nos) (λ j rho,
      rho_body_b label e_vec nol_b nop i j rho) rho)
    (czeros (Z.to_nat dim_b)).

Definition rho_b_pbasis (label : list label_row) (e_vec : list complex)
    (nos nol_b nop : nat)
  : result (list (list complex) * list diagnostic) :=
  rho_b ← rho_loop_b label e_vec nos nol_b nop;
  let tr_rho := trace_real rho_b in
  if decide (tolerance < fabs (tr_rho - 1))%Qc then
    Ok (rho_b, [Printed "WARNING: Trace of density matrix B not 1, Trace="
                  tr_rho])
  else Ok (rho_b, []).

(** *** Notions used to state the results on the density matrices *)

Global Instance complex_inhabited : Inhabited complex := populate czero.
Global Instance label_row_inhabited : Inhabited label_row :=
  populate (LabelRow 0 0 0).

(** The common shape of the loop bodies of [density_matrix_a] and
    [rho_b_pbasis]: [same] is the test on the traced-out coordinates and
    [pos] the index computed from the retained ones. *)
Definition accumulate_body (same : label_row → label_row → bool)
    (pos : label_row → result Z) (label : list label_row)
    (e_vec : list complex) (i j : nat) (rho : list (list complex))
  : result (list (list complex)) :=
  li ← index label i;
  lj ← index label j;
  if same li lj then
    m ← pos li;
    n ← pos lj;
    mi ← np_index (length rho) m;
    row ← index rho mi;
    ni ← np_index (length row) n;
    old ← index row ni;
    ej ← index e_vec j;
    ei ← index e_vec i;
    Ok (<[mi := <[ni := cadd old (vdot ej ei)]> row]> rho)
  else Ok rho.

Definition same_a (li lj : label_row) : bool :=
  (a_count li =? a_count lj) && (b_index li =? b_index lj).

Definition same_b (li lj : label_row) : bool :=
  (a_count li =? a_count lj) && (a_index li =? a_index lj).

(** The index [pos] gives a row, as a natural number. *)
Definition posn (pos : label_row → result Z) (row : label_row) : nat :=
  match pos row with
  | Ok m => Z.to_nat m
  | Raise _ => 0
  end.

(** The pair of states [(i, j)] contributes to the cell [(p, q)]. *)
Definition contributes (same : label_row → label_row → bool)
    (pos : label_row → result Z) (label : list label_row)
    (p q : nat) (ij : nat * nat) : Prop :=
  same (label !!! ij.1) (label !!! ij.2) = true ∧
  posn pos (label !!! ij.1) = p ∧ posn pos (label !!! ij.2) = q.

(** What the pair [(i, j)] adds: [conj(e_vec[j]) * e_vec[i]]. *)
Definition term (e_vec : list complex) (ij : nat * nat) : complex :=
  vdot (e_vec !!! ij.2) (e_vec !!! ij.1).

Definition csum (l : list complex) : complex := foldr cadd czero l.

Definition qsum (l : list Qc) : Qc := foldr Qcplus 0%Qc l.

(** The squared norm of a coefficient vector. *)
Definition norm2 (e_vec : list complex) : Qc :=
  qsum ((λ e, re e * re e + im e * im e)%Qc <$> e_vec).

Definition hermitian (rho : list (list complex)) : Prop :=
  ∀ p q, cell rho q p = conj <$> cell rho p q.

Global Instance contributes_dec same pos label p q ij :
  Decision (contributes same pos label p q ij).
Proof. unfold contributes. apply _. Defined.

(** What the pair [(i, j)] adds to the trace. *)
Definition diag_weight (same : label_row → label_row → bool)
    (pos : label_row → result Z) (label : list label_row)
    (e_vec : list complex) (ij : nat * nat) : Qc :=
  if decide (contributes same pos label
               (posn pos (label !!! ij.2)) (posn pos (label !!! ij.2)) ij)
  then re (term e_vec ij) else 0%Qc.

Global Instance label_row_eq_dec : EqDecision label_row.
Proof. solve_decision. Defined.

(** ** Diagonalisation *)

Global Instance Qc_inhabited : Inhabited Qc := populate 0%Qc.

(** [a[index]] for an array of indices. *)
Definition take_indices {A : Type} (a : list A) (idx : list nat)
  : result (list A) :=
  mapM (index a) idx.

Section Diagonalize.
Context {H : Type}.

(** [scipy.linalg.eig]: the eigenvalues and the matrix whose columns are
    the eigenvectors, whatever the solver finds. *)
Variable eig : H → list complex * list (list complex).

(** [ndarray.argsort] *)
Variable argsort : list Qc → list nat.

Definition diagonalize (h : H) : result (list Qc * list (list complex)) :=
  let '(eigenvalues, eigenvectors) := eig h in
  let eigenvalues := re <$> eigenvalues in
  let index := argsort eigenvalues in
  eigenvectors ← mapM (λ row, take_indices row index) eigenvectors;
  eigenvalues ← take_indices eigenvalues index;
  Ok (eigenvalues, eigenvectors).

End Diagonalize.

(** A sorting routine to run [diagonalize] with: insertion of the indices,
    from the last one to the first, by value. *)
Fixpoint insert_index (v : list Qc) (i : nat) (sorted : list nat) : list nat :=
  match sorted with
  | [] => [i]
  | j :: rest =>
      if decide (v !!! i ≤ v !!! j)%Qc then i :: j :: rest
      else j :: insert_index v i rest
  end.

Definition insertion_argsort (v : list Qc) : list nat :=
  foldr (insert_index v) [] (seq 0 (length v)).

(** ** The thermalisation diagnostic *)

(** The entries of a real matrix, with the negative infinity
    [np.fill_diagonal] writes. *)
Inductive efloat : Set :=
| NegInf
| Finite (q : Qc).

Definition efloat_le (a b : efloat) : Prop :=
  match a, b with
  | NegInf, _ => True
  | Finite _, NegInf => False
  | Finite x, Finite y => (x ≤ y)%Qc
  end.

Global Instance efloat_le_dec : RelDecision efloat_le.
Proof. intros [|x] [|y]; simpl; apply _. Defined.

(** The entries of a complex matrix: a complex number, or the [-inf+0j]
    that [np.fill_diagonal] writes for [-np.inf]. *)
Inductive ecomplex : Set :=
| CNegInf
| CFinite (c : complex).

(** NumPy orders complex numbers by their real parts, and those of the same
    real part by their imaginary parts. *)
Definition complex_le (a b : complex) : Prop :=
  (re a < re b)%Qc ∨ (re a = re b ∧ (im a ≤ im b)%Qc).

Definition ecomplex_le (a b : ecomplex) : Prop :=
  match a, b with
  | CNegInf, _ => True
  | CFinite _, CNegInf => False
  | CFinite x, CFinite y => complex_le x y
  end.

Global Instance ecomplex_le_dec : RelDecision ecomplex_le.
Proof. intros [|x] [|y]; simpl; unfold complex_le; apply _. Defined.

(** The element type of an array: the order [max] goes by, and the
    conversion of a Python float that is stored into the array. *)
Class Dtype (E : Type) := {
  dt_le : E → E → Prop;
  dt_le_dec :: RelDecision dt_le;
  of_float : efloat → result E
}.

Global Instance float64 : Dtype efloat :=
  {| dt_le := efloat_le; of_float := Ok |}.

Global Instance complex128 : Dtype ecomplex :=
  {| dt_le := ecomplex_le;
     of_float x := Ok match x with
                      | NegInf => CNegInf
                      | Finite q => CFinite (Complex q 0)
                      end |}.

(** An integer array takes the integer part of a float, and no integer
    stands for an infinity. *)
Global Instance int64 : Dtype Z :=
  {| dt_le := Z.le;
     of_float x := match x with
                   | NegInf => Raise OverflowError
                   | Finite q => Ok (Z.quot (Qnum q) (Zpos (Qden q)))
                   end |}.

(** The element types that hold negative infinity, with the laws of their
    order. *)
Class Inexact (E : Type) `{Dtype E} := {
  neg_inf : E;
  of_float_neg_inf : of_float NegInf = Ok neg_inf;
  dt_le_trans : ∀ a b c : E, dt_le a b → dt_le b c → dt_le a c;
  dt_le_total : ∀ a b : E, dt_le a b ∨ dt_le b a;
  neg_inf_least : ∀ a : E, dt_le a neg_inf → a = neg_inf
}.

Definition fmax `{Dtype E} (a b : E) : E :=
  if decide (dt_le a b) then b else a.

(** [a.max()] over the entries of [a], given as a list: an empty array has
    no maximum. *)
Definition array_max `{Dtype E} (a : list E) : result E :=
  match a with
  | [] => Raise ValueError
  | x :: a' => Ok (foldl fmax x a')
  end.

(** The arrays of the program live in a heap and are passed by reference
    (their address). *)
Abbreviation heap E := (list (list (list E))).

Record prog (E A : Type) : Type := Prog { run : heap E → result A * heap E }.
Arguments Prog {E A} run.
Arguments run {E A} p σ.

Global Instance prog_ret {E} : MRet (prog E) := λ A x, Prog (λ σ, (Ok x, σ)).
Global Instance prog_bind {E} : MBind (prog E) := λ A B f m, Prog (λ σ,
  match run m σ with
  | (Ok a, σ') => run (f a) σ'
  | (Raise e, σ') => (Raise e, σ')
  end).

(** Running a computation that has no effect on the heap. *)
Definition lift {E A : Type} (r : result A) : prog E A := Prog (λ σ, (r, σ)).

(** Reading the array behind a reference. *)
Definition load {E : Type} (r : nat) : prog E (list (list E)) := Prog (λ σ,
  match σ !! r with
  | Some m => (Ok m, σ)
  | None => (Raise ValueError, σ)
  end).

(** [np.copy(a)]: a new array with the entries of [a]. *)
Definition np_copy {E : Type} (r : nat) : prog E nat :=
  m ← load r;
  Prog (λ σ, (Ok (length σ), σ ++ [m])).

(** [np.fill_diagonal(a, val)]: writes [val], converted to the element type
    of [a], into [a[i, i]], in place. *)
Definition np_fill_diagonal `{Dtype E} (r : nat) (val : efloat)
  : prog E unit :=
  m ← load r;
  v ← lift (of_float val);
  Prog (λ σ, (Ok (), <[r := imap (λ i row, <[i := v]> row) m]> σ)).

Definition naive_thermal `{Dtype E} (rho : nat) : prog E (E * E) :=
  m ← load rho;
  max_diag ← lift (array_max (diagonal m));
  rho_copy ← np_copy rho;
  _ ← np_fill_diagonal rho_copy NegInf;
  c ← load rho_copy;
  max_offdiag ← lift (array_max (mjoin c));
  mret (max_diag, max_offdiag).

(** ** The block-diagonal Hamiltonian *)

(** The number of columns of a two-dimensional array given by its rows; an
    array without rows is taken to be 0 by 0. *)
Definition ncols {A : Type} (m : list (list A)) : nat :=
  match m with
  | [] => 0%nat
  | row :: _ => length row
  end.

(** The blocks placed along the diagonal, zeros elsewhere. *)
Fixpoint place_blocks (arrs : list matrix) : matrix :=
  match arrs with
  | [] => []
  | a :: rest =>
      let b := place_blocks rest in
      ((λ row, row ++ replicate (ncols b) 0) <$> a)
        ++ ((λ row, replicate (ncols a) 0 ++ row) <$> b)
  end.

(** [scipy.linalg.block_diag] of the blocks [arrs]; called without a block
    it returns the 1 by 0 array. *)
Definition block_diag (arrs : list matrix) : matrix :=
  match arrs with
  | [] => [[]]
  | _ => place_blocks arrs
  end.

Definition h_block_diagonal (lat_b : list Z) (n_dim : Z) (nop : nat)
    (n_processes : nat) : result matrix :=
  bd ← for_each (range 0 (nop + 1)) (λ i bd,
          h ← hamiltonian_parallel lat_b n_dim i n_processes;
          Ok (bd ++ [h])) [];
  Ok (block_diag bd).

(** The block [h_block_diagonal] builds for [i] particles. *)
Definition block (lat_b : list Z) (n_dim : Z) (n_processes i : nat) : matrix :=
  match hamiltonian_parallel lat_b n_dim i n_processes with
  | Ok h => h
  | Raise _ => []
  end.

(** ** The change to the energy basis *)

(** [a[:, i]], for an array with at least one row. *)
Definition column (a : list (list complex)) (i : nat)
  : result (list complex) :=
  mapM (λ row, index row i) a.

(** [np.dot(m, v)] for a matrix and a vector: the row length must be the
    length of the vector. *)
Definition np_dot (m : list (list complex)) (v : list complex)
  : result (list complex) :=
  mapM (λ row, if decide (length row = length v)
               then Ok (csum (zip_with cmul row v))
               else Raise ValueError) m.

(** [np.vdot(a, b)] on two vectors of the same length. *)
Definition np_vdot (a b : list complex) : result complex :=
  if decide (length a = length b) then Ok (csum (zip_with vdot a b))
  else Raise ValueError.

(** [np.zeros_like(a, dtype=complex)] *)
Definition zeros_like {A : Type} (a : list (list A)) : list (list complex) :=
  (λ row : list A, (λ _, czero) <$> row) <$> a.

(** [a[i, j] = v] *)
Definition store (i j : nat) (v : complex) (a : list (list complex))
  : result (list (list complex)) :=
  match a !! i with
  | Some row =>
      if decide (j < length row)%nat then Ok (<[i := <[j := v]> row]> a)
      else Raise IndexError
  | None => Raise IndexError
  end.

(** [np.transpose] and [np.conjugate] *)
Definition np_transpose {A : Type} (m : list (list A)) : list (list A) :=
  (λ j, omap (λ row : list A, row !! j) m) <$> seq 0 (ncols m).

Definition np_conjugate (m : list (list complex)) : list (list complex) :=
  (λ row : list complex, conj <$> row) <$> m.

Definition csub (a b : complex) : complex :=
  Complex (re a - re b) (im a - im b).

(** The square of the modulus. *)
Definition cabs2 (a : complex) : Qc := (re a * re a + im a * im a)%Qc.

Definition rtol : Qc := Q2Qc (1 # 100000).
Definition atol : Qc := Q2Qc (1 # 100000000).

(** [|a - b| <= atol + rtol * |b|], the test of [np.isclose], with both
    sides squared (twice) so that no square root is left: with
    [l = |a - b|^2 - atol^2 - rtol^2 |b|^2] the test holds when [l <= 0] or
    [l^2 <= 4 atol^2 rtol^2 |b|^2]. *)
Definition isclose (a b : complex) : bool :=
  let l := (cabs2 (csub a b) - atol * atol - rtol * rtol * cabs2 b)%Qc in
  bool_decide (l ≤ 0)%Qc
  || bool_decide (l * l ≤ Q2Qc 4 * atol * atol * rtol * rtol * cabs2 b)%Qc.

(** [np.allclose(a, b)] on two arrays of the same shape. *)
Definition np_allclose (a b : list (list complex)) : bool :=
  forallb (λ rows, forallb (λ ab, isclose ab.1 ab.2) (zip rows.1 rows.2))
          (zip a b).

(** [transformation] returns the matrix; the second component is what it
    printed. *)
Definition transformation (rho_pbasis e_vecs_bd : list (list complex))
  : result (list (list complex) * list string) :=
  rho_ebasis ← for_each (range 0 (length rho_pbasis)) (λ i rho_ebasis,
    for_each (range 0 (ncols rho_pbasis)) (λ j rho_ebasis,
      ci ← column e_vecs_bd i;
      cj ← column e_vecs_bd j;
      w ← np_dot rho_pbasis cj;
      v ← np_vdot ci w;
      store i j v rho_ebasis) rho_ebasis) (zeros_like rho_pbasis);
  if np_allclose (np_transpose (np_conjugate rho_ebasis)) rho_ebasis
  then Ok (rho_ebasis, [])
  else Ok (rho_ebasis, ["Transformation matrix is not symmetric"%string]).

(** ** The state enumeration of [Main.py] *)

(** [eigenstates_lattice] prints as it goes: the first component is what
    was printed, also when the call ends in an exception. *)
Definition eigenstates_lattice (lat : list Z) (nop : nat)
    (lat_del_pos : list Z)
  : list (string * list Z) * result (list state * nat) :=
  let out := [("lattice sites="%string, lat)] in
  if decide (length lat_del_pos ≠ 0%nat) then
    match np_delete lat ((λ p, p - 1) <$> lat_del_pos) with
    | Ok lat_del =>
        let e_states :=
          (λ c : state, wrap32 <$> c) <$> combinations lat_del nop in
        (out ++ [("lattice sites(after deletion)="%string, lat_del)],
         Ok (e_states, length e_states))
    | Raise e => (out, Raise e)
    end
  else
    let e_states := (λ c : state, wrap32 <$> c) <$> combinations lat nop in
    (out, Ok (e_states, length e_states)).

(** *** Notions used to state the further results *)

(** The row and the column of site [a] on a lattice of row length [ndims]
    whose sites are numbered from 1, row by row. *)
Definition grid_row (ndims a : Z) : Z := (a - 1) / ndims.
Definition grid_col (ndims a : Z) : Z := (a - 1) mod ndims.

(** Nearest neighbours on the lattice. *)
Definition grid_adjacent (ndims a b : Z) : Prop :=
  Z.abs (grid_row ndims a - grid_row ndims b)
  + Z.abs (grid_col ndims a - grid_col ndims b) = 1.

Global Instance grid_adjacent_dec ndims a b :
  Decision (grid_adjacent ndims a b).
Proof. unfold grid_adjacent. apply _. Defined.

(** The state [sk] is [sj] with the particle at [a] moved to [b]. *)
Definition moves (sj sk : state) (a b : Z) : Prop :=
  a ∈ sj ∧ (a ∉ sk) ∧ b ∈ sk ∧ (b ∉ sj) ∧
  ∀ x, x ≠ a → x ≠ b → (x ∈ sj ↔ x ∈ sk).

(** The relabel table with the parts of A and B exchanged. *)
Definition exchange (nop : nat) (l : label_row) : label_row :=
  LabelRow (b_index l) (Z.of_nat nop - a_count l) (a_index l).

(** The coefficient vector of the basis state [s]. *)
Definition basis_vector (nos s : nat) : list complex :=
  (λ i, if decide (i = s) then Complex 1 0 else czero) <$> seq 0 nos.

(** The entry [(i, j)] of the product of the conjugate transpose of [u],
    [rho] and [u]. *)
Definition sandwich (rho u : list (list complex)) (i j : nat) : complex :=
  csum ((λ k,
     cmul (conj ((u !!! k) !!! i))
       (csum ((λ l, cmul ((rho !!! k) !!! l) ((u !!! l) !!! j))
                <$> seq 0 (length rho))))
    <$> seq 0 (length rho)).

(** The identity matrix. *)
Definition identity (n : nat) : list (list complex) :=
  (λ i, (λ j, if decide (i = j) then Complex 1 0 else czero) <$> seq 0 n)
    <$> seq 0 n.

(** The rows of [u] are orthonormal: [u] times its conjugate transpose is
    the identity. *)
Definition unitary (n : nat) (u : list (list complex)) : Prop :=
  ∀ k l, (k < n)%nat → (l < n)%nat →
    csum ((λ i, cmul ((u !!! l) !!! i) (conj ((u !!! k) !!! i))) <$> seq 0 n)
    = if decide (k = l) then Complex 1 0 else czero.

(** A deletion position at or below 0 counts from the end (0 is the last
    site); [from_start] is the same position counted from the start. *)
Definition from_start (len : nat) (p : Z) : Z :=
  if decide (p ≤ 0) then p + Z.of_nat len else p.

(** The coordinates that are traced out: two rows are accumulated together
    by [density_matrix_a] (by [rho_b_pbasis]) when they agree on them. *)
Definition key_a (l : label_row) : Z * Z := (a_count l, b_index l).
Definition key_b (l : label_row) : Z * Z := (a_count l, a_index l).

(** The part of the coefficient of state [i] that goes to the cell
    [(p, p)] with the traced-out coordinates [t]. *)
Definition share {K : Type} `{EqDecision K} (pos : label_row → result Z)
    (label : list label_row) (e_vec : list complex) (key : label_row → K)
    (p : nat) (t : K) (i : nat) : complex :=
  if decide (key (label !!! i) = t ∧ posn pos (label !!! i) = p)
  then e_vec !!! i else czero.

(** * Proofs *)

(** ** [int32] arithmetic *)

Lemma wrap32_id z : int32 z → wrap32 z = z.
Proof.
  unfold int32, wrap32. intros Hz.
  rewrite Z.mod_small by lia. lia.
Qed.

Lemma wrap32_int32 z : int32 (wrap32 z).
Proof.
  unfold int32, wrap32.
  pose proof (Z.mod_pos_bound (z + 2 ^ 31) (2 ^ 32)). lia.
Qed.

Lemma wrap32_add_l a b : wrap32 (wrap32 a + b) = wrap32 (a + b).
Proof.
  unfold wrap32.
  replace ((a + 2 ^ 31) mod 2 ^ 32 - 2 ^ 31 + b + 2 ^ 31)
    with ((a + 2 ^ 31) mod 2 ^ 32 + b) by lia.
  rewrite Zplus_mod_idemp_l. do 2 f_equal. lia.
Qed.

Lemma wrap32_sub a b : wrap32 (wrap32 a - wrap32 b) = wrap32 (a - b).
Proof.
  unfold wrap32.
  replace ((a + 2 ^ 31) mod 2 ^ 32 - 2 ^ 31
           - ((b + 2 ^ 31) mod 2 ^ 32 - 2 ^ 31) + 2 ^ 31)
    with ((a + 2 ^ 31) mod 2 ^ 32 - (b + 2 ^ 31) mod 2 ^ 32 + 2 ^ 31) by lia.
  rewrite <- Zplus_mod_idemp_l, <- Zminus_mod, Zplus_mod_idemp_l.
  do 2 f_equal. lia.
Qed.

Lemma np_sum32_from a l :
  fold_left (λ acc x, wrap32 (acc + x)) l (wrap32 a) = wrap32 (a + sumZ l).
Proof.
  revert a. induction l as [|x l IH]; intros a; simpl.
  - f_equal. lia.
  - rewrite wrap32_add_l, IH. f_equal. lia.
Qed.

Lemma np_sum32_sumZ l : np_sum32 l = wrap32 (sumZ l).
Proof.
  unfold np_sum32. change 0 with (wrap32 0) at 1.
  rewrite np_sum32_from. f_equal.
Qed.

Lemma sumZ_app l1 l2 : sumZ (l1 ++ l2) = sumZ l1 + sumZ l2.
Proof. induction l1; simpl; lia. Qed.

Lemma sumZ_perm l1 l2 : l1 ≡ₚ l2 → sumZ l1 = sumZ l2.
Proof. induction 1; simpl; lia. Qed.

(** ** Sorted states and their intersection *)

Lemma sorted_lt_NoDup (l : list Z) : StronglySorted Z.lt l → NoDup l.
Proof.
  induction 1 as [|x l Hs IH Hall]; constructor; [|done].
  intros Hin. rewrite Forall_forall in Hall. specialize (Hall _ Hin). lia.
Qed.

Lemma sorted_lt_le (l : list Z) : StronglySorted Z.lt l → StronglySorted Z.le l.
Proof.
  induction 1 as [|x l Hs IH Hall]; constructor; [done|].
  eapply Forall_impl; [done|]. simpl. lia.
Qed.

Lemma np_unique_sorted (l : list Z) : StronglySorted Z.lt l → np_unique l = l.
Proof.
  intros Hs. unfold np_unique.
  apply (StronglySorted_unique Z.le).
  - apply (StronglySorted_merge_sort Z.le).
  - by apply sorted_lt_le.
  - rewrite merge_sort_Permutation.
    apply NoDup_Permutation.
    + apply NoDup_remove_dups.
    + by apply sorted_lt_NoDup.
    + intros x. apply elem_of_remove_dups.
Qed.

Lemma intersect1d_common sj sk :
  StronglySorted Z.lt sj → StronglySorted Z.lt sk →
  intersect1d sj sk = common sj sk.
Proof.
  intros Hj Hk. unfold intersect1d, common.
  by rewrite !np_unique_sorted.
Qed.

Lemma common_perm sj sk :
  NoDup sj → NoDup sk → common sj sk ≡ₚ common sk sj.
Proof.
  intros Hj Hk. unfold common.
  apply NoDup_Permutation; [by apply NoDup_filter..|].
  intros x. rewrite !list_elem_of_filter. tauto.
Qed.

Lemma filter_all {A} (P : A → Prop) `{∀ x, Decision (P x)} (l : list A) :
  Forall P l → filter P l = l.
Proof.
  induction 1 as [|x l Hx Hl IH]; [done|].
  rewrite filter_cons_True by done. by f_equal.
Qed.

Lemma common_self s : common s s = s.
Proof. apply filter_all. by apply Forall_forall. Qed.

(** The particle a state does not share with another one. *)
Lemma moved_label nop sj sk :
  valid_state nop sj →
  Z.of_nat (length (common sj sk)) = Z.of_nat nop - 1 →
  ∃ p, site_label p ∧ sumZ sj = sumZ (common sj sk) + p.
Proof.
  intros (Hlen & Hs & Hlab) Hc.
  pose proof (filter_app_complement (λ x, x ∈ sk) sj) as Hp.
  unfold common in *.
  assert (length (filter (λ x, x ∉ sk) sj) = 1%nat) as H1.
  { apply Permutation_length in Hp. rewrite length_app in Hp. lia. }
  destruct (filter (λ x, x ∉ sk) sj) as [|p [|??]] eqn:Hf; simplify_eq/=.
  exists p. split.
  - rewrite Forall_forall in Hlab. apply Hlab.
    assert (p ∈ filter (λ x, x ∉ sk) sj) as Hin by (rewrite Hf; left).
    by apply list_elem_of_filter in Hin as [_ ?].
  - rewrite <- (sumZ_perm _ _ Hp), sumZ_app. simpl. lia.
Qed.

(** On valid states and a positive row length the [int32] computation of
    [_hamiltonian] decides the hopping rule. *)
Lemma ham_entry_hop ndims nop sj sk :
  valid_state nop sj → valid_state nop sk → 0 < ndims →
  ham_entry ndims nop sj sk = if decide (hop ndims nop sj sk) then 1 else 0.
Proof.
  intros Hj Hk Hn. unfold ham_entry.
  rewrite intersect1d_common by (apply Hj || apply Hk).
  rewrite !np_sum32_sumZ. unfold sub32, abs32. rewrite !wrap32_sub.
  destruct (Z.eqb_spec (Z.of_nat (length (common sj sk))) (Z.of_nat nop - 1))
    as [Hc|Hc]; [|rewrite decide_False; [done|unfold hop; tauto]].
  destruct (moved_label _ _ _ Hj Hc) as (p & Hp & Hjs).
  assert (common sk sj ≡ₚ common sj sk) as Hperm.
  { apply common_perm; apply sorted_lt_NoDup; (apply Hj || apply Hk). }
  assert (Z.of_nat (length (common sk sj)) = Z.of_nat nop - 1) as Hc'.
  { by rewrite Hperm. }
  destruct (moved_label _ _ _ Hk Hc') as (q & Hq & Hks).
  rewrite (sumZ_perm _ _ Hperm) in Hks.
  unfold site_label in Hp, Hq.
  rewrite !(wrap32_id (sumZ sj - _)), (wrap32_id (sumZ sk - _)),
    (wrap32_id (Z.abs _)) by (unfold int32; lia).
  unfold np_mod. replace (ndims =? 0) with false by lia.
  unfold hop.
  repeat match goal with
         | |- context [?a =? ?b] => destruct (Z.eqb_spec a b)
         end; simpl;
    (rewrite decide_True by tauto) || (rewrite decide_False by tauto); done.
Qed.

(** ** Loops *)

Lemma for_each_app {A S} (l1 l2 : list A) (body : A → S → result S) s :
  for_each (l1 ++ l2) body s = s' ← for_each l1 body s; for_each l2 body s'.
Proof.
  revert s. induction l1 as [|x l1 IH]; intros s; simpl; [done|].
  destruct (body x s); simpl; [apply IH|done].
Qed.

Lemma for_each_flatten {A B S} (l : list A) (f : A → list B)
    (body : B → S → result S) s :
  for_each (l ≫= f) body s = for_each l (λ x s, for_each (f x) body s) s.
Proof.
  revert s. induction l as [|x l IH]; intros s; [done|].
  rewrite bind_cons, for_each_app. simpl.
  destruct (for_each (f x) body s); simpl; [apply IH|done].
Qed.

Lemma for_each_ext_in {A S} (l : list A) (body1 body2 : A → S → result S) s :
  (∀ x s, x ∈ l → body1 x s = body2 x s) →
  for_each l body1 s = for_each l body2 s.
Proof.
  revert s. induction l as [|x l IH]; intros s Hext; simpl; [done|].
  rewrite Hext by left. destruct (body2 x s); simpl; [|done].
  apply IH. intros y s' Hy. apply Hext. by right.
Qed.

Lemma for_each_ext {A S} (l : list A) (body1 body2 : A → S → result S) s :
  (∀ x s, body1 x s = body2 x s) →
  for_each l body1 s = for_each l body2 s.
Proof.
  intros Hext. revert s. induction l as [|x l IH]; intros s; simpl; [done|].
  rewrite Hext. destruct (body2 x s); simpl; [apply IH|done].
Qed.

(** ** Matrices *)

Lemma cell_insert {A} (m : list (list A)) row j k v j' k' :
  m !! j = Some row → (k < length row)%nat →
  cell (<[j := <[k := v]> row]> m) j' k' =
    if decide ((j', k') = (j, k)) then Some v else cell m j' k'.
Proof.
  intros Hrow Hk. unfold cell.
  apply lookup_lt_Some in Hrow as Hj.
  destruct (decide (j' = j)) as [->|Hne].
  - rewrite list_lookup_insert_eq by done. rewrite Hrow. simpl.
    destruct (decide (k' = k)) as [->|Hne].
    + rewrite list_lookup_insert_eq by done. by rewrite decide_True.
    + rewrite list_lookup_insert_ne by done.
      rewrite decide_False by congruence. done.
  - rewrite list_lookup_insert_ne by done.
    rewrite decide_False by congruence. done.
Qed.

Lemma shape_insert {A} n (m : list (list A)) row j k v :
  shape n m → m !! j = Some row →
  shape n (<[j := <[k := v]> row]> m).
Proof.
  intros [Hlen Hrows] Hrow. split.
  - by rewrite length_insert.
  - apply Forall_insert; [done|].
    rewrite length_insert.
    rewrite Forall_forall in Hrows. apply Hrows.
    by eapply list_elem_of_lookup_2.
Qed.

Lemma shape_zeros n : shape n (zeros n n).
Proof.
  split.
  - apply length_replicate.
  - apply Forall_replicate. apply length_replicate.
Qed.

Lemma cell_zeros n j k :
  (j < n)%nat → (k < n)%nat → cell (zeros n n) j k = Some 0.
Proof.
  intros Hj Hk. unfold cell, zeros.
  rewrite lookup_replicate_2 by done. simpl.
  by rewrite lookup_replicate_2.
Qed.

Lemma cell_is_Some {A} n (m : list (list A)) j k :
  shape n m → (j < n)%nat → (k < n)%nat → is_Some (cell m j k).
Proof.
  intros [Hlen Hrows] Hj Hk. unfold cell.
  destruct (lookup_lt_is_Some_2 m j) as [row Hrow]; [lia|].
  rewrite Hrow. simpl. apply lookup_lt_is_Some_2.
  rewrite Forall_forall in Hrows.
  rewrite (Hrows row); [done|]. by eapply list_elem_of_lookup_2.
Qed.

Lemma matrix_ext {A} n (m1 m2 : list (list A)) :
  shape n m1 → shape n m2 →
  (∀ j k, cell m1 j k = cell m2 j k) → m1 = m2.
Proof.
  intros [Hl1 Hr1] [Hl2 Hr2] Hcell.
  apply list_eq. intros j.
  destruct (m1 !! j) as [r1|] eqn:E1, (m2 !! j) as [r2|] eqn:E2.
  - f_equal. apply list_eq. intros k.
    specialize (Hcell j k). unfold cell in Hcell.
    by rewrite E1, E2 in Hcell.
  - apply lookup_lt_Some in E1. apply lookup_ge_None in E2. lia.
  - apply lookup_lt_Some in E2. apply lookup_ge_None in E1. lia.
  - done.
Qed.

Lemma cell_outside {A} n (m : list (list A)) j k :
  shape n m → ¬ (j < n ∧ k < n)%nat → cell m j k = None.
Proof.
  intros [Hl Hr] Hout. unfold cell.
  destruct (m !! j) as [row|] eqn:Hrow; [|done]. simpl.
  apply lookup_lt_Some in Hrow as Hj.
  apply lookup_ge_None_2.
  rewrite Forall_forall in Hr.
  rewrite (Hr row); [lia|]. by eapply list_elem_of_lookup_2.
Qed.

Lemma matrix_ext_range {A} n (m1 m2 : list (list A)) :
  shape n m1 → shape n m2 →
  (∀ j k, (j < n)%nat → (k < n)%nat → cell m1 j k = cell m2 j k) → m1 = m2.
Proof.
  intros H1 H2 Hcell. apply (matrix_ext n); [done..|]. intros j k.
  destruct (decide (j < n ∧ k < n)%nat) as [[Hj Hk]|Hout]; [by apply Hcell|].
  by rewrite !(cell_outside n).
Qed.

(** ** The assembly of the Hamiltonian *)

Section Assembly.
Variables (pos_states : list state) (ndims : Z) (nop : nat).
Let nos := length pos_states.

Lemma ham_body_ok j k ham :
  shape nos (cells ham) → (j < nos)%nat → (k < nos)%nat →
  ∃ row, cells ham !! j = Some row ∧
    ham_body ndims nop pos_states j k ham =
      Ok (SharedArray
            (<[j := <[k := entry_at pos_states ndims nop j k]> row]>
               (cells ham))
            (written ham ++ [(j, k)])) ∧
    (k < length row)%nat.
Proof.
  intros [Hlen Hrows] Hj Hk. unfold ham_body, index, entry_at.
  rewrite (list_lookup_lookup_total_lt pos_states j) by apply Hj.
  rewrite (list_lookup_lookup_total_lt pos_states k) by apply Hk. simpl.
  destruct (lookup_lt_is_Some_2 (cells ham) j) as [row Hrow]; [lia|].
  exists row. unfold ham_store. rewrite Hrow.
  assert (length row = nos) as Hr.
  { rewrite Forall_forall in Hrows. apply Hrows.
    by eapply list_elem_of_lookup_2. }
  rewrite decide_True by lia. split; [done|]. split; [done|lia].
Qed.

(** Running any list of in-range cells stores the entry of each of them
    and leaves the other cells as they were. *)
Lemma run_cells l ham :
  shape nos (cells ham) →
  Forall (λ jk, (jk.1 < nos)%nat ∧ (jk.2 < nos)%nat) l →
  ∃ ham',
    for_each l (λ jk ham, ham_body ndims nop pos_states jk.1 jk.2 ham) ham
      = Ok ham' ∧
    shape nos (cells ham') ∧
    written ham' = written ham ++ l ∧
    ∀ j k, cell (cells ham') j k =
             if decide ((j, k) ∈ l)
             then Some (entry_at pos_states ndims nop j k)
             else cell (cells ham) j k.
Proof.
  intros Hshape Hall. revert ham Hshape.
  induction Hall as [|[j k] l [Hj Hk] Hall IH]; intros ham Hshape.
  - exists ham. split; [done|]. split; [done|].
    split; [by rewrite app_nil_r|]. intros j k.
    rewrite decide_False; [done|]. apply not_elem_of_nil.
  - simpl in Hj, Hk.
    destruct (ham_body_ok j k ham Hshape Hj Hk) as (row & Hrow & Hbody & Hkr).
    simpl. rewrite Hbody. simpl.
    match goal with
    | |- context [for_each l _ ?h] =>
        destruct (IH h) as (ham' & Hrun & Hsh' & Hw & Hcells)
    end.
    { simpl. by apply shape_insert. }
    exists ham'. split; [done|]. split; [done|]. split.
    { rewrite Hw. simpl. by rewrite <- app_assoc. }
    intros j' k'. rewrite Hcells. simpl.
    destruct (decide ((j', k') ∈ l)) as [Hin|Hnin].
    + rewrite decide_True; [done|]. by right.
    + rewrite cell_insert by done.
      destruct (decide ((j', k') = (j, k))) as [Heq|Hne].
      * rewrite decide_True; [|rewrite Heq; left].
        by injection Heq as -> ->.
      * rewrite decide_False; [done|].
        rewrite elem_of_cons. tauto.
Qed.

Lemma _hamiltonian_schedule start stop ham :
  _hamiltonian start stop nos ndims nop pos_states ham =
  for_each (j ← range start stop; k ← range 0 nos; [(j, k)])
    (λ jk ham, ham_body ndims nop pos_states jk.1 jk.2 ham) ham.
Proof.
  unfold _hamiltonian. rewrite for_each_flatten.
  apply for_each_ext. intros j s. rewrite for_each_flatten.
  apply for_each_ext. intros k s'. simpl.
  by destruct (ham_body ndims nop pos_states j k s').
Qed.

End Assembly.

(** ** The partition of the rows *)

Lemma distribute_ok n_items n_processes i :
  (1 ≤ n_processes)%nat →
  ∃ start stop, distribute n_items n_processes i = Ok (start, stop).
Proof.
  intros Hn. unfold distribute. rewrite decide_False by lia. eauto.
Qed.

Lemma distribute_inner n_items n_processes i :
  (i + 1 < n_processes)%nat →
  distribute n_items n_processes i =
    Ok ((i * (n_items / n_processes))%nat,
        ((n_items / n_processes) * (i + 1))%nat).
Proof.
  intros Hi. unfold distribute.
  rewrite decide_False by lia. by rewrite decide_False by lia.
Qed.

Lemma distribute_last n_items n_processes :
  (1 ≤ n_processes)%nat →
  distribute n_items n_processes (n_processes - 1) =
    Ok (((n_processes - 1) * (n_items / n_processes))%nat, n_items).
Proof.
  intros Hn. unfold distribute.
  rewrite decide_False by lia. by rewrite decide_True by lia.
Qed.

Lemma chunks_seq q m : (i ← seq 0 m; seq (i * q) q) = seq 0 (m * q).
Proof.
  induction m as [|m IH]; [done|].
  rewrite seq_S, bind_app, IH, bind_singleton. simpl.
  replace (q + m * q)%nat with (m * q + q)%nat by lia.
  by rewrite seq_app.
Qed.

Lemma div_mul_le n_items n_processes :
  (1 ≤ n_processes)%nat →
  ((n_processes - 1) * (n_items / n_processes) ≤ n_items)%nat.
Proof.
  intros Hn.
  pose proof (Nat.Div0.mul_div_le n_items n_processes).
  nia.
Qed.

(** The row ranges of the workers, put one after the other, are the rows
    [0 .. n_items - 1]. *)
Lemma distribute_rows n_items n_processes :
  (1 ≤ n_processes)%nat →
  (i ← range 0 n_processes;
   match distribute n_items n_processes i with
   | Ok (start, stop) => range start stop
   | Raise _ => []
   end)
  = range 0 n_items.
Proof.
  intros Hn. unfold range. rewrite !Nat.sub_0_r.
  destruct n_processes as [|m]; [lia|].
  rewrite seq_S, bind_app, bind_singleton, Nat.add_0_l.
  replace (distribute n_items (S m) m)
    with (distribute n_items (S m) (S m - 1)) by (f_equal; lia).
  rewrite distribute_last by lia.
  rewrite (Forall_bind_ext _ (λ i, seq (i * (n_items / S m)) (n_items / S m))).
  - rewrite chunks_seq.
    pose proof (div_mul_le n_items (S m) Hn) as Hle.
    replace (S m - 1)%nat with m in * by lia.
    transitivity
      (seq 0 (m * (n_items / S m) + (n_items - m * (n_items / S m)))).
    + by rewrite seq_app.
    + f_equal. lia.
  - apply Forall_forall. intros i Hi. apply elem_of_seq in Hi.
    rewrite distribute_inner by lia. f_equal. lia.
Qed.

Lemma bind_bind {A B C} (l : list A) (f : A → list B) (g : B → list C) :
  (l ≫= f) ≫= g = l ≫= (λ x, f x ≫= g).
Proof.
  induction l as [|x l IH]; [done|].
  by rewrite !bind_cons, bind_app, IH.
Qed.

Lemma assemble_schedule pos_states ndims nop n_processes :
  assemble pos_states (length pos_states) ndims nop n_processes =
  run_schedule pos_states (length pos_states) ndims nop
    (i ← range 0 n_processes;
     worker_cells (length pos_states) n_processes i).
Proof.
  unfold assemble, run_schedule. rewrite for_each_flatten.
  apply for_each_ext_in. intros i s Hi%elem_of_seq. unfold worker_cells.
  destruct (distribute_ok (length pos_states) n_processes i)
    as (start & stop & ->); [lia|].
  simpl. apply _hamiltonian_schedule.
Qed.

(** Whatever the number of workers, their iteration spaces put one after
    the other are the cells of the matrix, row by row. *)
Lemma workers_all_cells nos n_processes :
  (1 ≤ n_processes)%nat →
  (i ← range 0 n_processes; worker_cells nos n_processes i) = all_cells nos.
Proof.
  intros Hn. unfold all_cells.
  rewrite <- (distribute_rows nos n_processes Hn) at 1. rewrite bind_bind.
  apply list_bind_ext; [|done]. intros i. unfold worker_cells.
  by destruct (distribute nos n_processes i) as [[start stop]|].
Qed.

Lemma elem_of_all_cells nos j k :
  (j, k) ∈ all_cells nos ↔ (j < nos)%nat ∧ (k < nos)%nat.
Proof.
  unfold all_cells, range. rewrite Nat.sub_0_r. split.
  - intros (j' & Hin & Hj)%list_elem_of_bind.
    apply list_elem_of_bind in Hin as (k' & Hin & Hk).
    apply list_elem_of_singleton in Hin. simplify_eq.
    apply elem_of_seq in Hj, Hk. lia.
  - intros [Hj Hk]. apply list_elem_of_bind. exists j. split.
    + apply list_elem_of_bind. exists k. split; [by left|].
      apply elem_of_seq. lia.
    + apply elem_of_seq. lia.
Qed.

Lemma NoDup_all_cells nos : NoDup (all_cells nos).
Proof.
  unfold all_cells. apply NoDup_bind; [| |apply NoDup_seq].
  - intros j1 j2 [j k] _ _ H1 H2.
    apply list_elem_of_bind in H1 as (k1 & H1 & _).
    apply list_elem_of_bind in H2 as (k2 & H2 & _).
    apply list_elem_of_singleton in H1, H2. congruence.
  - intros j _. apply NoDup_bind; [| |apply NoDup_seq].
    + intros k1 k2 [j' k] _ _ H1 H2.
      apply list_elem_of_singleton in H1, H2. congruence.
    + intros k _. apply NoDup_singleton.
Qed.

Lemma schedule_cells pos_states ndims nop schedule :
  schedule ≡ₚ all_cells (length pos_states) →
  ∃ ham,
    run_schedule pos_states (length pos_states) ndims nop schedule = Ok ham ∧
    shape (length pos_states) (cells ham) ∧
    written ham = schedule ∧
    ∀ j k, (j < length pos_states)%nat → (k < length pos_states)%nat →
      cell (cells ham) j k = Some (entry_at pos_states ndims nop j k).
Proof.
  intros Hperm. unfold run_schedule.
  destruct (run_cells pos_states ndims nop schedule
              (SharedArray (zeros (length pos_states) (length pos_states)) []))
    as (ham & Hrun & Hshape & Hw & Hcells).
  { apply shape_zeros. }
  { apply Forall_forall. intros [j k] Hin. rewrite Hperm in Hin.
    by apply elem_of_all_cells in Hin. }
  exists ham. split; [done|]. split; [done|]. split; [done|].
  intros j k Hj Hk. rewrite Hcells, decide_True; [done|].
  rewrite Hperm. by apply elem_of_all_cells.
Qed.

Lemma assemble_cells pos_states ndims nop n_processes :
  (1 ≤ n_processes)%nat →
  ∃ ham,
    assemble pos_states (length pos_states) ndims nop n_processes = Ok ham ∧
    shape (length pos_states) (cells ham) ∧
    written ham = all_cells (length pos_states) ∧
    ∀ j k, (j < length pos_states)%nat → (k < length pos_states)%nat →
      cell (cells ham) j k = Some (entry_at pos_states ndims nop j k).
Proof.
  intros Hn. rewrite assemble_schedule, workers_all_cells by done.
  by apply schedule_cells.
Qed.

(** C1: on a state space of valid [nop]-particle states over a lattice of
    positive row length [ndims], the assembled Hamiltonian has at [(j, k)]
    the value 1 exactly when the two states share [nop - 1] labels and
    either their label sums differ by [ndims] in absolute value, or state
    [k]'s sum is one more and (sum of [j] minus sum of the common labels) is
    not 0 modulo [ndims], or state [j]'s sum is one more and that difference
    is not 1 modulo [ndims]; in every other case the value is 0. *)
Theorem hamiltonian_entry_rule pos_states ndims nop n_processes :
  Forall (valid_state nop) pos_states → 0 < ndims → (1 ≤ n_processes)%nat →
  ∃ ham,
    assemble pos_states (length pos_states) ndims nop n_processes = Ok ham ∧
    ∀ j k sj sk,
      pos_states !! j = Some sj → pos_states !! k = Some sk →
      ∃ v, cell (cells ham) j k = Some v ∧
           (v = 1 ↔ hop ndims nop sj sk) ∧
           (v = 0 ↔ ¬ hop ndims nop sj sk).
Proof.
  intros Hvalid Hdims Hn.
  destruct (assemble_cells pos_states ndims nop n_processes Hn)
    as (ham & Hrun & _ & _ & Hcells).
  exists ham. split; [done|]. intros j k sj sk Hj Hk.
  exists (if decide (hop ndims nop sj sk) then 1 else 0).
  split.
  - rewrite Hcells by (eapply lookup_lt_Some; eassumption).
    unfold entry_at.
    rewrite (list_lookup_total_correct _ _ _ Hj),
      (list_lookup_total_correct _ _ _ Hk).
    rewrite Forall_forall in Hvalid.
    f_equal. apply ham_entry_hop; [| |done];
      apply Hvalid; by eapply list_elem_of_lookup_2.
  - by destruct (decide (hop ndims nop sj sk)).
Qed.

(** ** Symmetry of the hopping rule *)

Lemma mod_succ_1 p n : 2 ≤ n → (p + 1) mod n = 1 → p mod n = 0.
Proof.
  intros Hn H1. pose proof (Z.div_mod (p + 1) n ltac:(lia)) as Hd.
  rewrite H1 in Hd.
  replace p with (((p + 1) / n) * n) by lia.
  apply Z_mod_mult.
Qed.

Lemma mod_pred_0 p n : 2 ≤ n → (p - 1) mod n = 0 → p mod n = 1.
Proof.
  intros Hn H0. pose proof (Z.div_mod (p - 1) n ltac:(lia)) as Hd.
  rewrite H0 in Hd.
  replace p with (1 + ((p - 1) / n) * n) by lia.
  rewrite Z_mod_plus_full. apply Z.mod_small. lia.
Qed.

Lemma hop_sym ndims nop sj sk :
  valid_state nop sj → valid_state nop sk → 0 < ndims →
  hop ndims nop sj sk → hop ndims nop sk sj.
Proof.
  intros Hj Hk Hn [Hc Hrule]. unfold hop. cbv zeta.
  assert (common sk sj ≡ₚ common sj sk) as Hperm.
  { apply common_perm; apply sorted_lt_NoDup; (apply Hj || apply Hk). }
  rewrite (Permutation_length Hperm), (sumZ_perm _ _ Hperm). split; [done|].
  destruct (decide (ndims = 1)) as [->|Hne]; [left; lia|].
  destruct Hrule as [Ha|[[Hd Hm]|[Hd Hm]]].
  - left. lia.
  - right. right. split; [done|]. intros H1. apply Hm.
    apply mod_succ_1; [lia|]. rewrite <- H1. f_equal. lia.
  - right. left. split; [done|]. intros H0. apply Hm.
    apply mod_pred_0; [lia|]. rewrite <- H0. f_equal. lia.
Qed.

Lemma hop_irrefl ndims nop s : valid_state nop s → ¬ hop ndims nop s s.
Proof.
  intros (Hlen & _) [Hc _]. rewrite common_self in Hc. lia.
Qed.

(** C2: the Hamiltonian assembled over a state space of valid states, for
    a positive row length and any number of workers, is symmetric and has
    a zero diagonal. *)
Theorem hamiltonian_symmetric pos_states ndims nop n_processes :
  Forall (valid_state nop) pos_states → 0 < ndims → (1 ≤ n_processes)%nat →
  ∃ ham,
    assemble pos_states (length pos_states) ndims nop n_processes = Ok ham ∧
    shape (length pos_states) (cells ham) ∧
    ∀ j k, (j < length pos_states)%nat → (k < length pos_states)%nat →
      (∃ v, cell (cells ham) j k = Some v ∧ cell (cells ham) k j = Some v) ∧
      cell (cells ham) j j = Some 0.
Proof.
  intros Hvalid Hdims Hn.
  destruct (assemble_cells pos_states ndims nop n_processes Hn)
    as (ham & Hrun & Hshape & _ & Hcells).
  exists ham. split; [done|]. split; [done|]. intros j k Hj Hk.
  rewrite !Hcells by done. unfold entry_at.
  assert (∀ i, (i < length pos_states)%nat →
               valid_state nop (pos_states !!! i)) as Hv.
  { intros i Hi. rewrite Forall_forall in Hvalid. apply Hvalid.
    by apply list_elem_of_lookup_total_2. }
  rewrite !ham_entry_hop by auto.
  split.
  - eexists. split; [done|]. f_equal.
    destruct (decide (hop ndims nop (pos_states !!! j) (pos_states !!! k)))
      as [Hh|Hh].
    + rewrite decide_True; [done|]. apply hop_sym; auto.
    + rewrite decide_False; [done|]. intros Hh'. apply Hh.
      apply hop_sym; auto.
  - rewrite decide_False; [done|]. apply hop_irrefl. auto.
Qed.

(** C7: for any number of workers from 1 on, the row ranges [distribute]
    hands out are contiguous, disjoint and cover [0, nos), the last one
    taking the remainder of the integer division; the assembled matrix (and
    the trace of the stores) is the one a single worker produces, every cell
    is stored exactly once, and any schedule of the same stores leaves the
    same matrix. *)
Theorem partition_not_observable pos_states ndims nop n_processes :
  (1 ≤ n_processes)%nat →
  let nos := length pos_states in
  ∃ start stop : nat → nat,
    (∀ i, (i < n_processes)%nat →
       distribute nos n_processes i = Ok (start i, stop i)) ∧
    start 0%nat = 0%nat ∧
    (∀ i, (i < n_processes)%nat → (start i ≤ stop i ≤ nos)%nat) ∧
    (∀ i, (i + 1 < n_processes)%nat → stop i = start (i + 1)%nat) ∧
    (∀ i i', (i < i' < n_processes)%nat → (stop i ≤ start i')%nat) ∧
    stop (n_processes - 1)%nat = nos ∧
    (stop (n_processes - 1) - start (n_processes - 1)
     = nos / n_processes + nos mod n_processes)%nat ∧
    ∃ ham,
      assemble pos_states nos ndims nop n_processes = Ok ham ∧
      assemble pos_states nos ndims nop 1 = Ok ham ∧
      NoDup (written ham) ∧
      (∀ j k, (j, k) ∈ written ham ↔ (j < nos)%nat ∧ (k < nos)%nat) ∧
      ∀ schedule, schedule ≡ₚ written ham →
        ∃ ham', run_schedule pos_states nos ndims nop schedule = Ok ham' ∧
                cells ham' = cells ham.
Proof.
  intros Hn nos.
  pose proof (div_mul_le nos n_processes Hn) as Hle.
  pose proof (Nat.div_mod_eq nos n_processes) as Hdm.
  set (q := (nos / n_processes)%nat) in *.
  exists (λ i, (i * q)%nat),
    (λ i, if decide (i = n_processes - 1)%nat then nos else (q * (i + 1))%nat).
  split.
  { intros i Hi. destruct (decide (i = n_processes - 1)%nat) as [->|Hne].
    - by rewrite distribute_last.
    - by rewrite distribute_inner by lia. }
  split; [lia|].
  split.
  { intros i Hi. destruct (decide (i = n_processes - 1)%nat) as [->|Hne];
      [lia|].
    assert ((i + 1) * q ≤ (n_processes - 1) * q)%nat
      by (apply Nat.mul_le_mono_r; lia).
    lia. }
  split.
  { intros i Hi. rewrite decide_False by lia. lia. }
  split.
  { intros i i' Hi. rewrite decide_False by lia.
    assert ((i + 1) * q ≤ i' * q)%nat by (apply Nat.mul_le_mono_r; lia).
    lia. }
  split; [by rewrite decide_True|].
  split.
  { rewrite decide_True by done. nia. }
  destruct (assemble_cells pos_states ndims nop n_processes Hn)
    as (ham & Hrun & Hshape & Hw & Hcells).
  destruct (assemble_cells pos_states ndims nop 1 ltac:(lia))
    as (ham1 & Hrun1 & Hshape1 & Hw1 & Hcells1).
  assert (ham1 = ham) as ->.
  { destruct ham1 as [c1 w1], ham as [c w]. simpl in *. f_equal; [|congruence].
    apply (matrix_ext_range (length pos_states)); [done..|].
    intros j k Hj Hk. by rewrite Hcells, Hcells1. }
  exists ham. split; [done|]. split; [done|].
  split; [rewrite Hw; apply NoDup_all_cells|].
  split; [intros j k; rewrite Hw; apply elem_of_all_cells|].
  intros schedule Hperm. rewrite Hw in Hperm.
  destruct (schedule_cells pos_states ndims nop schedule Hperm)
    as (ham' & Hrun' & Hshape' & _ & Hcells').
  exists ham'. split; [done|].
  apply (matrix_ext_range (length pos_states)); [done..|].
  intros j k Hj Hk. by rewrite Hcells, Hcells'.
Qed.

Ltac valid_states :=
  repeat first [apply Forall_nil_2 | apply Forall_cons_2 | split
               | apply SSorted_nil | apply SSorted_cons ];
  unfold site_label; try done; try lia.

Lemma hamiltonian_entry_rule_witness :
  Forall (valid_state 1) [[1]; [2]; [3]; [4]] ∧ 0 < 2 ∧ (1 ≤ 3)%nat ∧
  ∃ ham, assemble [[1]; [2]; [3]; [4]] 4 2 1 3 = Ok ham ∧
         cell (cells ham) 0 1 = Some 1 ∧ cell (cells ham) 1 2 = Some 0.
Proof.
  assert (Forall (valid_state 1) [[1]; [2]; [3]; [4]]) as Hv by valid_states.
  split; [done|]. split; [lia|]. split; [lia|].
  destruct (hamiltonian_entry_rule [[1]; [2]; [3]; [4]] 2 1 3 Hv)
    as (ham & Hrun & Hrule); [lia..|].
  exists ham. split; [done|]. split.
  - destruct (Hrule 0%nat 1%nat [1] [2]) as (v & -> & H1 & _); [done..|].
    f_equal. apply H1. by apply (bool_decide_unpack _).
  - destruct (Hrule 1%nat 2%nat [2] [3]) as (v & -> & _ & H0); [done..|].
    f_equal. apply H0. by apply (bool_decide_unpack (¬ _)).
Defined.

Lemma hamiltonian_symmetric_witness :
  Forall (valid_state 2) [[1; 2]; [1; 3]; [2; 3]] ∧ 0 < 3 ∧ (1 ≤ 2)%nat ∧
  ∃ ham, assemble [[1; 2]; [1; 3]; [2; 3]] 3 3 2 2 = Ok ham ∧
         cell (cells ham) 0 2 = cell (cells ham) 2 0 ∧
         cell (cells ham) 1 1 = Some 0.
Proof.
  assert (Forall (valid_state 2) [[1; 2]; [1; 3]; [2; 3]]) as Hv
    by valid_states.
  split; [done|]. split; [lia|]. split; [lia|].
  destruct (hamiltonian_symmetric [[1; 2]; [1; 3]; [2; 3]] 3 2 2 Hv)
    as (ham & Hrun & _ & Hsym); [lia..|].
  exists ham. split; [done|]. split.
  - destruct (Hsym 0 2)%nat as [(v & -> & ->) _]; simpl; [lia..|done].
  - destruct (Hsym 1 1)%nat as [_ ->]; simpl; [lia..|done].
Defined.

Lemma partition_not_observable_witness :
  (1 ≤ 3)%nat ∧
  ∃ ham, assemble [[1]; [2]; [3]; [4]] 4 2 1 3 = Ok ham ∧
         assemble [[1]; [2]; [3]; [4]] 4 2 1 1 = Ok ham.
Proof.
  split; [lia|].
  destruct (partition_not_observable [[1]; [2]; [3]; [4]] 2 1 3)
    as (start & stop & _ & _ & _ & _ & _ & _ & _ & ham & Hn & H1 & _);
    [lia|].
  by exists ham.
Defined.

(** ** Combinations *)

Lemma length_combinations {A} (l : list A) r :
  Z.of_nat (length (combinations l r)) = binom (length l) r.
Proof.
  revert r. induction l as [|x l IH]; intros [|r]; simpl; try done.
  rewrite length_app, length_fmap, Nat2Z.inj_add, !IH. done.
Qed.

Lemma elem_of_combinations {A} (l : list A) r c :
  c ∈ combinations l r ↔ c `sublist_of` l ∧ length c = r.
Proof.
  revert r c. induction l as [|x l IH]; intros [|r] c; simpl.
  - rewrite list_elem_of_singleton. split.
    + intros ->. split; [constructor|done].
    + intros [_ Hlen]. by apply nil_length_inv.
  - rewrite elem_of_nil, sublist_nil_r. split; [done|].
    by intros [-> ?].
  - rewrite list_elem_of_singleton. split.
    + intros ->. split; [apply sublist_nil_l|done].
    + intros [_ Hlen]. by apply nil_length_inv.
  - rewrite elem_of_app, list_elem_of_fmap, sublist_cons_r.
    setoid_rewrite IH. split.
    + intros [(c' & -> & Hs & Hlen)|[Hs Hlen]].
      * split; [|by simpl; f_equal]. right. by exists c'.
      * split; [by left|done].
    + intros [[Hs|(c' & -> & Hs)] Hlen].
      * by right.
      * left. exists c'. simpl in Hlen. split; [done|]. split; [done|lia].
Qed.

Lemma NoDup_combinations {A} (l : list A) r :
  NoDup l → NoDup (combinations l r).
Proof.
  intros Hl. revert r. induction Hl as [|x l Hx Hl IH]; intros [|r]; simpl.
  - apply NoDup_singleton.
  - constructor.
  - apply NoDup_singleton.
  - apply NoDup_app. split; [|split].
    + apply (NoDup_fmap_2 _), IH.
    + intros c (c' & -> & _)%list_elem_of_fmap
        [Hs _]%elem_of_combinations.
      apply Hx. eapply elem_of_sublist; [|done]. left.
    + apply IH.
Qed.

Lemma sorted_sublist {A} (R : relation A) (c l : list A) :
  c `sublist_of` l → StronglySorted R l → StronglySorted R c.
Proof.
  induction 1 as [|x c l Hs IH|x c l Hs IH]; intros Hl; [done|..].
  - apply StronglySorted_inv in Hl as [Hl Hx].
    constructor; [by apply IH|].
    rewrite Forall_forall in *. intros y Hy. apply Hx.
    by eapply elem_of_sublist.
  - apply StronglySorted_inv in Hl as [Hl _]. by apply IH.
Qed.

Lemma sorted_subseteq_sublist (s l : list Z) :
  StronglySorted Z.lt s → StronglySorted Z.lt l →
  (∀ x, x ∈ s → x ∈ l) → s `sublist_of` l.
Proof.
  intros Hs Hl. revert s Hs.
  induction Hl as [|x l Hl IH Hx]; intros s Hs Hsub.
  - destruct s as [|y s]; [done|].
    specialize (Hsub y ltac:(left)). by apply elem_of_nil in Hsub.
  - destruct s as [|y s]; [apply sublist_nil_l|].
    apply StronglySorted_inv in Hs as [Hs Hy].
    rewrite Forall_forall in Hx, Hy.
    destruct (decide (y = x)) as [->|Hne].
    + apply sublist_skip, IH; [done|].
      intros z Hz. specialize (Hsub z ltac:(by right)).
      apply elem_of_cons in Hsub as [->|?]; [|done].
      specialize (Hy _ Hz). lia.
    + apply sublist_cons, IH; [by constructor; [|apply Forall_forall]|].
      assert (x < y) as Hxy.
      { specialize (Hsub y ltac:(left)).
        apply elem_of_cons in Hsub as [?|?]; [done|]. by apply Hx. }
      intros z Hz. specialize (Hsub z Hz).
      apply elem_of_cons in Hsub as [->|?]; [|done].
      apply elem_of_cons in Hz as [->|Hz]; [lia|].
      specialize (Hy _ Hz). lia.
Qed.

(** ** Deleting positions *)

Lemma mapM_ok {A B} (f : A → result B) (g : A → B) (l : list A) :
  Forall (λ x, f x = Ok (g x)) l → mapM f l = Ok (g <$> l).
Proof.
  induction 1 as [|x l Hx Hl IH]; [done|].
  simpl. rewrite Hx. simpl. rewrite IH. done.
Qed.

Lemma np_index_in_range len i :
  0 ≤ i < Z.of_nat len → np_index len i = Ok (Z.to_nat i).
Proof.
  intros Hi. unfold np_index.
  replace (0 <=? i) with true by lia.
  replace (i <? Z.of_nat len) with true by lia. done.
Qed.

Lemma length_filter_zip_fst {A B} (P : A → Prop) `{∀ x, Decision (P x)}
    (l : list A) (k : list B) :
  length l = length k →
  length (filter (λ p, P p.1) (zip l k)) = length (filter P l).
Proof.
  revert k. induction l as [|x l IH]; intros [|y k] Hlen; simplify_eq/=;
    [done|].
  rewrite !filter_cons. simpl.
  destruct (decide (P x)); simpl; rewrite IH; done.
Qed.

Lemma length_filter_complement {A} (P : A → Prop) `{∀ x, Decision (P x)}
    (l : list A) :
  (length (filter P l) + length (filter (λ x, ¬ P x) l))%nat = length l.
Proof.
  rewrite <- length_app. apply Permutation_length, filter_app_complement.
Qed.

Lemma remove_dups_cons {A} `{EqDecision A} (x : A) (l : list A) :
  remove_dups (x :: l) =
    if decide (x ∈ l) then remove_dups l else x :: remove_dups l.
Proof. done. Qed.

Lemma length_remove_dups_fmap {A B} `{EqDecision A, EqDecision B}
    (f : A → B) (l : list A) :
  (∀ x y, x ∈ l → y ∈ l → f x = f y → x = y) →
  length (remove_dups (f <$> l)) = length (remove_dups l).
Proof.
  induction l as [|x l IH]; intros Hinj; [done|].
  rewrite fmap_cons, !remove_dups_cons.
  assert (length (remove_dups (f <$> l)) = length (remove_dups l)) as IH'.
  { apply IH. intros y z Hy Hz. apply Hinj; by right. }
  destruct (decide (x ∈ l)) as [Hin|Hnin],
    (decide (f x ∈ f <$> l)) as [Hin'|Hnin']; simpl.
  - done.
  - destruct Hnin'. apply list_elem_of_fmap. by exists x.
  - apply list_elem_of_fmap in Hin' as (y & Hfy & Hy). destruct Hnin.
    rewrite (Hinj x y); [done|left|by right|done].
  - by f_equal.
Qed.

Lemma np_delete_positions (lat : list Z) (del_pos : list Z) :
  NoDup lat →
  Forall (λ p, 1 ≤ p ≤ Z.of_nat (length lat)) del_pos →
  ∃ lat_del,
    np_delete lat ((λ p, p - 1) <$> del_pos) = Ok lat_del ∧
    lat_del `sublist_of` lat ∧
    (∀ i x, lat !! i = Some x → (x ∈ lat_del ↔ Z.of_nat i + 1 ∉ del_pos)) ∧
    length lat_del = (length lat - length (remove_dups del_pos))%nat.
Proof.
  intros Hnd Hpos. unfold np_delete.
  set (idx := (λ p, Z.to_nat (p - 1)) <$> del_pos).
  assert (mapM (np_index (length lat)) ((λ p, p - 1) <$> del_pos) = Ok idx)
    as ->.
  { rewrite (mapM_ok _ Z.to_nat).
    - unfold idx. by rewrite <- list_fmap_compose.
    - apply Forall_fmap. eapply Forall_impl; [done|]. simpl.
      intros p Hp. apply np_index_in_range. lia. }
  simpl. eexists. split; [done|].
  assert (∀ i, i ∈ idx ↔ Z.of_nat i + 1 ∈ del_pos) as Hidx.
  { intros i. unfold idx. rewrite list_elem_of_fmap.
    rewrite Forall_forall in Hpos. split.
    - intros (p & -> & Hp). specialize (Hpos _ Hp).
      by replace (Z.of_nat (Z.to_nat (p - 1)) + 1) with p by lia.
    - intros Hp. exists (Z.of_nat i + 1). split; [lia|done]. }
  split; [|split].
  - etrans; [apply fmap_sublist, sublist_filter|].
    by rewrite snd_zip by (rewrite length_seq; lia).
  - intros i x Hix. rewrite <- Hidx, list_elem_of_fmap. split.
    + intros ([i' x'] & -> & Hin). simpl in *.
      apply list_elem_of_filter in Hin as [Hni Hin]. simpl in Hni.
      apply list_elem_of_lookup in Hin as [n Hn].
      apply lookup_zip_with_Some in Hn as (a & b & Heq & Ha & Hb).
      simplify_eq. apply lookup_seq in Ha as [-> _]. simpl in *.
      by rewrite (NoDup_lookup _ _ _ _ Hnd Hix Hb).
    + intros Hni. exists (i, x). split; [done|].
      apply list_elem_of_filter. split; [done|].
      apply list_elem_of_lookup. exists i.
      apply lookup_zip_with_Some. exists i, x. split; [done|].
      split; [|done]. apply lookup_seq. split; [done|].
      by eapply lookup_lt_Some.
  - rewrite length_fmap.
    pose proof (length_filter_complement (λ p : nat * Z, p.1 ∈ idx)
                  (zip (seq 0 (length lat)) lat)) as Hc.
    rewrite length_zip, length_seq, Nat.min_id in Hc.
    pose proof (length_filter_zip_fst (λ i, i ∈ idx)
                  (seq 0 (length lat)) lat ltac:(by rewrite length_seq)) as Hz.
    simpl in Hz. rewrite Hz in Hc. clear Hz.
    assert (filter (λ i, i ∈ idx) (seq 0 (length lat)) ≡ₚ remove_dups idx)
      as Hperm.
    { apply NoDup_Permutation.
      - apply NoDup_filter, NoDup_seq.
      - apply NoDup_remove_dups.
      - intros i. rewrite list_elem_of_filter, elem_of_remove_dups, elem_of_seq.
        split; [tauto|]. intros Hi. split; [done|].
        apply Hidx in Hi. rewrite Forall_forall in Hpos.
        specialize (Hpos _ Hi). lia. }
    rewrite Hperm in Hc. unfold idx in Hc.
    rewrite length_remove_dups_fmap in Hc.
    + unfold idx. lia.
    + intros p q Hp Hq Heq. rewrite Forall_forall in Hpos.
      pose proof (Hpos _ Hp). pose proof (Hpos _ Hq). lia.
Qed.

Lemma fmap_wrap32_id (c : list Z) : Forall int32 c → wrap32 <$> c = c.
Proof.
  induction 1 as [|x c Hx Hc IH]; [done|].
  rewrite fmap_cons, IH, wrap32_id; done.
Qed.

Lemma cast_states_id (lat : list Z) nop :
  Forall int32 lat →
  (λ c : state, wrap32 <$> c) <$> combinations lat nop = combinations lat nop.
Proof.
  intros Hlat. rewrite <- (list_fmap_id (combinations lat nop)) at 2.
  apply list_fmap_ext. intros i c Hc. simpl.
  apply fmap_wrap32_id.
  apply list_elem_of_lookup_2, elem_of_combinations in Hc as [Hs _].
  rewrite Forall_forall in *. intros x Hx. apply Hlat.
  by eapply elem_of_sublist.
Qed.

(** C4: for an ascending array of [int32] labels and in-range 1-based
    deletion positions, [position_states] strikes exactly the labels at the
    0-based indices [position - 1], and returns, without repetition, all the
    strictly increasing [nop]-tuples of the remaining labels: there are
    C(available sites, nop) of them, and that count is the second result. *)
Theorem position_states_enumerates lat nop del_pos :
  StronglySorted Z.lt lat → Forall int32 lat →
  Forall (λ p, 1 ≤ p ≤ Z.of_nat (length lat)) del_pos →
  ∃ lat_del states,
    position_states lat nop (Some del_pos) = Ok (states, length states) ∧
    lat_del `sublist_of` lat ∧
    (∀ i x, lat !! i = Some x → (x ∈ lat_del ↔ Z.of_nat i + 1 ∉ del_pos)) ∧
    length lat_del = (length lat - length (remove_dups del_pos))%nat ∧
    Z.of_nat (length states) = binom (length lat_del) nop ∧
    NoDup states ∧
    ∀ s, s ∈ states ↔
         length s = nop ∧ StronglySorted Z.lt s ∧ NoDup s ∧
         ∀ x, x ∈ s → x ∈ lat_del.
Proof.
  intros Hsort Hint Hpos.
  destruct (np_delete_positions lat del_pos (sorted_lt_NoDup _ Hsort) Hpos)
    as (lat_del & Hdel & Hsub & Hmem & Hlen).
  assert (StronglySorted Z.lt lat_del) as Hsort' by by eapply sorted_sublist.
  assert (Forall int32 lat_del) as Hint'.
  { rewrite Forall_forall in *. intros x Hx. apply Hint.
    by eapply elem_of_sublist. }
  exists lat_del, (combinations lat_del nop).
  split; [|split; [done|split; [done|split; [done|split; [|split]]]]].
  - unfold position_states. rewrite Hdel. simpl.
    by rewrite cast_states_id.
  - apply length_combinations.
  - by apply NoDup_combinations, sorted_lt_NoDup.
  - intros s. rewrite elem_of_combinations. split.
    + intros [Hs Hl].
      assert (StronglySorted Z.lt s) by by eapply sorted_sublist.
      split; [done|]. split; [done|]. split; [by apply sorted_lt_NoDup|].
      intros x Hx. by eapply elem_of_sublist.
    + intros (Hl & Hs & _ & Hin). split; [|done].
      by apply sorted_subseteq_sublist.
Qed.

Lemma position_states_enumerates_witness :
  StronglySorted Z.lt [1; 2; 3; 4; 5] ∧ Forall int32 [1; 2; 3; 4; 5] ∧
  Forall (λ p, 1 ≤ p ≤ Z.of_nat (length [1; 2; 3; 4; 5])) [2; 5] ∧
  ∃ states, position_states [1; 2; 3; 4; 5] 2 (Some [2; 5])
              = Ok (states, length states)
            ∧ Z.of_nat (length states) = 3.
Proof.
  assert (StronglySorted Z.lt [1; 2; 3; 4; 5]) as Hs
    by (repeat constructor; lia).
  assert (Forall int32 [1; 2; 3; 4; 5]) as Hi
    by (repeat constructor; unfold int32; lia).
  assert (Forall (λ p, 1 ≤ p ≤ Z.of_nat (length [1; 2; 3; 4; 5])) [2; 5])
    as Hp by (repeat constructor; simpl; lia).
  split; [done|]. split; [done|]. split; [done|].
  destruct (position_states_enumerates [1; 2; 3; 4; 5] 2 [2; 5] Hs Hi Hp)
    as (lat_del & states & Hrun & _ & _ & Hlen & Hcount & _).
  exists states. split; [done|]. rewrite Hcount, Hlen. done.
Defined.

(** ** The pipeline from the lattice to the Hamiltonian *)

(** The state space of an ascending lattice of site labels consists of
    valid states. *)
Lemma position_states_valid lat nop :
  StronglySorted Z.lt lat → Forall site_label lat →
  ∃ states,
    position_states lat nop None = Ok (states, length states) ∧
    Forall (valid_state nop) states.
Proof.
  intros Hsorted Hlab.
  assert (Forall int32 lat) as Hint.
  { eapply Forall_impl; [done|]. unfold site_label, int32. simpl. lia. }
  exists (combinations lat nop). split.
  - unfold position_states. by rewrite cast_states_id.
  - apply Forall_forall. intros s [Hs Hlen]%elem_of_combinations.
    split; [done|]. split; [by eapply sorted_sublist|].
    rewrite Forall_forall in *. intros x Hx. apply Hlab.
    by eapply elem_of_sublist.
Qed.

(** [hamiltonian_parallel] on an ascending lattice of site labels returns a
    symmetric matrix with a zero diagonal, whatever the number of workers. *)
Lemma hamiltonian_parallel_symmetric lattice ndims nop n_processes :
  StronglySorted Z.lt lattice → Forall site_label lattice →
  0 < ndims → (1 ≤ n_processes)%nat →
  ∃ ham nos,
    hamiltonian_parallel lattice ndims nop n_processes = Ok ham ∧
    Z.of_nat nos = binom (length lattice) nop ∧
    shape nos ham ∧
    ∀ j k, (j < nos)%nat → (k < nos)%nat →
      cell ham j k = cell ham k j ∧ cell ham j j = Some 0.
Proof.
  intros Hsorted Hlab Hdims Hn.
  destruct (position_states_valid lattice nop Hsorted Hlab)
    as (states & Hpos & Hvalid).
  destruct (assemble_cells states ndims nop n_processes Hn)
    as (ham & Hrun & Hshape & _ & Hcells).
  exists (cells ham), (length states).
  split; [|split; [|split; [done|]]].
  - unfold hamiltonian_parallel. rewrite Hpos. simpl. by rewrite Hrun.
  - unfold position_states in Hpos. injection Hpos as Hpos.
    rewrite <- Hpos, length_fmap. apply length_combinations.
  - intros j k Hj Hk. rewrite !Hcells by done. unfold entry_at.
    assert (∀ i, (i < length states)%nat →
                 valid_state nop (states !!! i)) as Hv.
    { intros i Hi. rewrite Forall_forall in Hvalid. apply Hvalid.
      by apply list_elem_of_lookup_total_2. }
    rewrite !ham_entry_hop by auto. split.
    + f_equal.
      destruct (decide (hop ndims nop (states !!! j) (states !!! k)))
        as [Hh|Hh].
      * rewrite decide_True; [done|]. apply hop_sym; auto.
      * rewrite decide_False; [done|]. intros Hh'. apply Hh.
        apply hop_sym; auto.
    + rewrite decide_False; [done|]. apply hop_irrefl. auto.
Qed.

(** The hypothesis of the symmetry results on the row length is needed:
    with [ndims = 0] the two orientations of a hop get different entries. *)
Example ham_entry_zero_dims :
  ham_entry 0 1 [2] [3] = 0 ∧ ham_entry 0 1 [3] [2] = 1.
Proof. done. Qed.

(** ** Factorials and binomial coefficients *)

Lemma factorial_pos n : 0 < factorial n.
Proof. induction n as [|n IH]; simpl factorial; [lia|nia]. Qed.

Lemma binom_gt n k : (n < k)%nat → binom n k = 0.
Proof.
  revert k. induction n as [|n IH]; intros [|k] Hk; simpl; try lia.
  rewrite !IH by lia. done.
Qed.

Lemma binom_nonneg n k : 0 ≤ binom n k.
Proof.
  revert k. induction n as [|n IH]; intros [|k]; simpl; try lia.
  pose proof (IH k). pose proof (IH (S k)). lia.
Qed.

Lemma binom_pos n k : (k ≤ n)%nat → 1 ≤ binom n k.
Proof.
  revert k. induction n as [|n IH]; intros [|k] Hk; simpl; try lia.
  pose proof (IH k ltac:(lia)). pose proof (binom_nonneg n (S k)). lia.
Qed.

Lemma factorial_S n : factorial (S n) = Z.of_nat (S n) * factorial n.
Proof. done. Qed.

Lemma binom_factorial n k :
  (k ≤ n)%nat → binom n k * (factorial k * factorial (n - k)) = factorial n.
Proof.
  revert k. induction n as [|n IH]; intros [|k] Hk; try lia.
  - simpl. lia.
  - simpl binom. rewrite Nat.sub_0_r. simpl (factorial 0). lia.
  - change (binom (S n) (S k)) with (binom n k + binom n (S k)).
    replace (S n - S k)%nat with (n - k)%nat by lia.
    destruct (decide (k = n)) as [->|Hne].
    + rewrite (binom_gt n (S n)) by lia.
      pose proof (IH n ltac:(lia)) as IHn.
      rewrite Nat.sub_diag in *. rewrite (factorial_S n).
      simpl (factorial 0) in *. nia.
    + pose proof (IH k ltac:(lia)) as IH1.
      pose proof (IH (S k) ltac:(lia)) as IH2.
      replace (n - k)%nat with (S (n - S k)) in * by lia.
      rewrite (factorial_S n), (factorial_S k), (factorial_S (n - S k)) in *.
      replace (Z.of_nat (S n))
        with (Z.of_nat (S k) + Z.of_nat (S (n - S k))) by lia.
      nia.
Qed.

Lemma mt_factorial_nat n : mt_factorial (Z.of_nat n) = Ok (factorial n).
Proof.
  unfold mt_factorial. destruct (Z.ltb_spec (Z.of_nat n) 0); [lia|].
  by rewrite Nat2Z.id.
Qed.

Lemma ncr_binom n r :
  (r ≤ n)%nat → ncr (Z.of_nat n) (Z.of_nat r) = Ok (binom n r).
Proof.
  intros Hr. unfold ncr. rewrite !mt_factorial_nat. simpl.
  replace (Z.of_nat n - Z.of_nat r) with (Z.of_nat (n - r)) by lia.
  rewrite mt_factorial_nat. simpl. f_equal.
  rewrite <- (binom_factorial n r Hr).
  apply Z.div_mul.
  pose proof (factorial_pos r). pose proof (factorial_pos (n - r)). nia.
Qed.

Lemma ncr_defined n r v :
  ncr (Z.of_nat n) r = Ok v → 0 ≤ r ≤ Z.of_nat n.
Proof.
  unfold ncr, mt_factorial. destruct (Z.ltb_spec (Z.of_nat n) 0); [lia|].
  simpl. destruct (Z.ltb_spec r 0); [done|]. simpl.
  destruct (Z.ltb_spec (Z.of_nat n - r) 0); [done|]. lia.
Qed.

Lemma sum_ncr_sum_binom n k :
  (k ≤ n + 1)%nat → sum_ncr (Z.of_nat n) (Z.of_nat k) = Ok (sum_binom n k).
Proof.
  unfold sum_ncr, range. rewrite Nat2Z.id, Nat.sub_0_r.
  induction k as [|k IH]; intros Hk; [done|].
  rewrite seq_S, for_each_app, IH by lia. simpl.
  rewrite ncr_binom by lia. done.
Qed.

Lemma ncr_cases (n r : Z) :
  ncr n r = if decide (0 ≤ r ≤ n)
            then Ok (binom (Z.to_nat n) (Z.to_nat r))
            else Raise ValueError.
Proof.
  destruct (decide (0 ≤ r ≤ n)) as [Hr|Hr].
  - rewrite <- (Z2Nat.id n) at 1 by lia. rewrite <- (Z2Nat.id r) at 1 by lia.
    apply ncr_binom. lia.
  - unfold ncr, mt_factorial.
    destruct (Z.ltb_spec n 0); [done|]. simpl.
    destruct (Z.ltb_spec r 0); [done|]. simpl.
    destruct (Z.ltb_spec (n - r) 0); [done|]. lia.
Qed.

Lemma sum_ncr_snoc n k :
  sum_ncr n (Z.of_nat (S k)) =
    s ← sum_ncr n (Z.of_nat k); c ← ncr n (Z.of_nat k); Ok (s + c).
Proof.
  unfold sum_ncr, range. rewrite !Nat2Z.id, !Nat.sub_0_r.
  rewrite seq_S, for_each_app. simpl.
  destruct (for_each (seq 0 k) _ 0) as [s|e]; [|done]. simpl.
  by destruct (ncr n (Z.of_nat k)).
Qed.

(** More particles than sites: the dimension cannot be computed. *)
Lemma sum_ncr_beyond (n k : nat) :
  (n + 1 < k)%nat → sum_ncr (Z.of_nat n) (Z.of_nat k) = Raise ValueError.
Proof.
  induction k as [|k IH]; intros Hk; [lia|].
  rewrite sum_ncr_snoc.
  destruct (decide (n + 1 < k)%nat) as [Hlt|Hge]; [by rewrite IH|].
  rewrite sum_ncr_sum_binom by lia. simpl.
  rewrite ncr_cases, decide_False by lia. done.
Qed.

Lemma sum_binom_mono n k k' :
  (k ≤ k')%nat → sum_binom n k ≤ sum_binom n k'.
Proof.
  induction 1 as [|k' Hk IH]; [done|]. simpl.
  pose proof (binom_nonneg n k'). lia.
Qed.

(** ** Relabelling *)

Lemma patterns_snoc lat_a done st :
  patterns lat_a (done ++ [st]) =
    if decide (pattern lat_a st ∈ patterns lat_a done)
    then patterns lat_a done
    else patterns lat_a done ++ [pattern lat_a st].
Proof. unfold patterns. by rewrite foldl_app. Qed.

Lemma class_count_snoc lat_a n done st :
  class_count lat_a n (done ++ [st]) =
    (class_count lat_a n done
     + if decide (length (pattern lat_a st) = n) then 1 else 0)%nat.
Proof.
  unfold class_count. rewrite filter_app, length_app. f_equal.
  rewrite filter_cons. by destruct (decide (length (pattern lat_a st) = n)).
Qed.

Lemma count_size_snoc {A} n (d : list (list A)) c :
  count_size n (d ++ [c]) =
    (count_size n d + if decide (length c = n) then 1 else 0)%nat.
Proof.
  unfold count_size. rewrite filter_app, length_app. f_equal.
  rewrite filter_cons. by destruct (decide (length c = n)).
Qed.

Lemma count_size_le {A} n (d : list (list A)) :
  (count_size n d ≤ length d)%nat.
Proof. apply length_filter. Qed.

Lemma class_count_le lat_a n done : (class_count lat_a n done ≤ length done)%nat.
Proof. apply length_filter. Qed.

Lemma length_patterns lat_a done :
  (length (patterns lat_a done) ≤ length done)%nat.
Proof.
  induction done as [|st done IH] using rev_ind; [done|].
  rewrite patterns_snoc, length_app. simpl.
  destruct (decide _); [lia|]. rewrite length_app. simpl. lia.
Qed.

Lemma NoDup_patterns lat_a done : NoDup (patterns lat_a done).
Proof.
  induction done as [|st done IH] using rev_ind; [constructor|].
  rewrite patterns_snoc. destruct (decide _) as [Hin|Hnin]; [done|].
  apply NoDup_app. split; [done|]. split; [|apply NoDup_singleton].
  intros c Hc ->%list_elem_of_singleton. done.
Qed.

Lemma elem_of_patterns lat_a done c :
  c ∈ patterns lat_a done ↔ ∃ st, st ∈ done ∧ c = pattern lat_a st.
Proof.
  induction done as [|st done IH] using rev_ind.
  - unfold patterns. simpl. rewrite elem_of_nil. split; [done|].
    by intros (st & Hst%elem_of_nil & _).
  - rewrite patterns_snoc.
    assert ((∃ st0, st0 ∈ done ++ [st] ∧ c = pattern lat_a st0) ↔
            (c ∈ patterns lat_a done ∨ c = pattern lat_a st)) as ->.
    { rewrite IH. split.
      - intros (st0 & Hin & ->).
        apply elem_of_app in Hin as [Hin|Hin%list_elem_of_singleton];
          [left; eauto|right; by subst].
      - intros [(st0 & Hin & ->)| ->]; [exists st0|exists st];
          (split; [|done]); apply elem_of_app; [by left|right; by left]. }
    destruct (decide _) as [Hin|Hnin].
    + split; [by left|]. by intros [?| ->].
    + by rewrite elem_of_app, list_elem_of_singleton.
Qed.

(** The position in the cycle after one more state of the class. *)
Lemma cycle_step cc B :
  0 ≤ cc → 1 ≤ B →
  (cc + 1) mod B = if cc mod B + 1 =? B then 0 else cc mod B + 1.
Proof.
  intros Hcc HB.
  pose proof (Z.div_mod cc B ltac:(lia)) as Hd.
  pose proof (Z.mod_pos_bound cc B ltac:(lia)) as Hr.
  destruct (Z.eqb_spec (cc mod B + 1) B) as [Heq|Hne].
  - symmetry. apply (Z.mod_unique _ _ (cc / B + 1)); lia.
  - symmetry. apply (Z.mod_unique _ _ (cc / B)); lia.
Qed.

Section Relabel.
Variables (lat_a : list Z) (nop nol_b : nat).

Lemma relabel_inv_init :
  relabel_inv lat_a nop nol_b []
    (RelabelState (replicate (nop + 1) 0) (replicate (nop + 1) 0) [] []).
Proof.
  unfold relabel_inv. simpl. rewrite !length_replicate.
  repeat split; try lia; try done.
  - intros n Hn. by rewrite lookup_replicate_2 by lia.
  - intros n Hn. by rewrite lookup_replicate_2 by lia.
Qed.

(** One successful iteration of the loop keeps the invariant; it succeeds
    only for a state whose particles outside A fit into B. *)
Lemma relabel_body_inv done st s s' :
  relabel_inv lat_a nop nol_b done s →
  Z.of_nat (length done) + 1 < 2 ^ 31 →
  relabel_body nop nol_b lat_a st s = Ok s' →
  relabel_inv lat_a nop nol_b (done ++ [st]) s' ∧
  (length (pattern lat_a st) ≤ nop)%nat ∧
  (nop - length (pattern lat_a st) ≤ nol_b)%nat.
Proof.
  intros (Hl0 & Hl1 & Hdump & Hx0 & Hx1 & Hlen & Hrows) Hsmall Hrun.
  unfold relabel_body in Hrun. fold (pattern lat_a st) in Hrun.
  set (n := length (pattern lat_a st)) in *.
  unfold index in Hrun.
  destruct (x1 s !! n) as [c1|] eqn:E1; [|done]. simpl in Hrun.
  assert (n ≤ nop)%nat as Hn by (apply lookup_lt_Some in E1; lia).
  rewrite Hx1 in E1 by done. injection E1 as <-.
  set (cc := Z.of_nat (class_count lat_a n done)) in *.
  set (B := binom nol_b (nop - n)) in *.
  rewrite list_lookup_insert_eq in Hrun by lia.
  (* the counters are far from the [int32] limit *)
  pose proof (class_count_le lat_a n done) as Hcc.
  pose proof (count_size_le n (dump s)) as Hcs.
  pose proof (length_patterns lat_a done) as Hlp. rewrite <- Hdump in Hlp.
  assert (0 ≤ cc mod B ≤ cc) as Hmod.
  { destruct (decide (B = 0)) as [->|HB0].
    - rewrite Z.mod_0_r. lia.
    - pose proof (binom_nonneg nol_b (nop - n)).
      pose proof (Z.mod_pos_bound cc B ltac:(lia)).
      pose proof (Z.mod_le cc B ltac:(lia) ltac:(lia)). lia. }
  rewrite (wrap32_id (cc mod B + 1)) in Hrun by (unfold int32; lia).
  (* the pattern table and its counter *)
  assert (∃ x0' dump',
    (if decide (pattern lat_a st ∈ dump s) then Ok (x0 s, dump s)
     else c0 ← match x0 s !! n with
               | Some x => Ok x
               | None => Raise IndexError
               end;
          Ok (<[n:=wrap32 (c0 + 1)]> (x0 s), dump s ++ [pattern lat_a st]))
      = Ok (x0', dump') ∧
    dump' = patterns lat_a (done ++ [st]) ∧
    length x0' = S nop ∧
    ∀ m, (m ≤ nop)%nat → x0' !! m = Some (Z.of_nat (count_size m dump')))
    as (x0' & dump' & Hstep & Hdump' & Hl0' & Hx0').
  { rewrite patterns_snoc, <- Hdump.
    destruct (decide (pattern lat_a st ∈ dump s)) as [Hin|Hnin].
    - by exists (x0 s), (dump s).
    - rewrite Hx0 by done. simpl.
      rewrite wrap32_id by (unfold int32; lia).
      eexists _, _. split; [done|]. split; [done|].
      split; [by rewrite length_insert|].
      intros m Hm. rewrite count_size_snoc. fold n.
      destruct (decide (n = m)) as [<-|Hne].
      + rewrite list_lookup_insert_eq by lia. f_equal. lia.
      + rewrite list_lookup_insert_ne, Hx0 by done. f_equal. lia. }
  rewrite Hstep in Hrun.
  simpl in Hrun. rewrite Hx0' in Hrun by done. simpl in Hrun.
  destruct (ncr (Z.of_nat nol_b) (Z.of_nat nop - Z.of_nat n))
    as [total|] eqn:Encr; [|done].
  simpl in Hrun.
  apply ncr_defined in Encr as Hfit.
  assert (nop - n ≤ nol_b)%nat as Hfit' by lia.
  replace (Z.of_nat nop - Z.of_nat n) with (Z.of_nat (nop - n)) in Encr by lia.
  rewrite ncr_binom in Encr by done. injection Encr as <-. fold B in Hrun.
  pose proof (binom_pos nol_b (nop - n) Hfit') as HB. fold B in HB.
  split; [|done].
  (* both branches leave [(cc + 1) mod B] in the cycle counter *)
  assert (∃ x1', s' = RelabelState x0' x1' dump'
                    (relabelled_states s ++
                       [LabelRow (Z.of_nat (count_size n dump'))
                                 (Z.of_nat n) (cc mod B + 1)]) ∧
                 x1' = <[n := (cc + 1) mod B]> (x1 s)) as (x1' & -> & ->).
  { rewrite cycle_step by lia.
    destruct (Z.eqb_spec (cc mod B + 1) B) as [Heq|Hne];
      injection Hrun as <-; eexists; (split; [done|]).
    - by rewrite list_insert_insert_eq.
    - done. }
  unfold relabel_inv. simpl.
  split; [done|]. split; [by rewrite length_insert|]. split; [done|].
  split; [done|]. split; [|split].
  - intros m Hm. rewrite class_count_snoc. fold n.
    destruct (decide (n = m)) as [<-|Hne].
    + rewrite list_lookup_insert_eq by lia. fold cc B.
      do 2 f_equal. lia.
    + rewrite list_lookup_insert_ne, Hx1 by done.
      do 2 f_equal. lia.
  - rewrite !length_app. simpl. lia.
  - intros i st' Hi.
    destruct (decide (i < length done)%nat) as [Hlt|Hge].
    + rewrite lookup_app_l in Hi by done.
      rewrite lookup_app_l by lia.
      rewrite take_app_le by lia. by apply Hrows.
    + apply lookup_lt_Some in Hi as Hi'. rewrite length_app in Hi'.
      simpl in Hi'. assert (i = length done) as -> by lia.
      rewrite list_lookup_middle in Hi by done. injection Hi as <-.
      rewrite list_lookup_middle by done.
      rewrite take_app_length. unfold label_of. fold n cc B.
      by rewrite <- Hdump'.
Qed.
End Relabel.

Section RelabelLoop.
Variables (lat_a : list Z) (nop nol_b : nat).

Lemma relabel_body_ok done st s :
  relabel_inv lat_a nop nol_b done s →
  fits lat_a nop nol_b st →
  ∃ s', relabel_body nop nol_b lat_a st s = Ok s'.
Proof.
  intros (Hl0 & Hl1 & Hdump & Hx0 & Hx1 & Hlen & Hrows) [Hn Hfit].
  unfold relabel_body. fold (pattern lat_a st).
  set (n := length (pattern lat_a st)) in *.
  unfold index. rewrite Hx1 by done. simpl.
  rewrite list_lookup_insert_eq by lia.
  replace (Z.of_nat nop - Z.of_nat n) with (Z.of_nat (nop - n)) by lia.
  rewrite ncr_binom by done.
  destruct (decide (pattern lat_a st ∈ dump s)); simpl.
  - rewrite Hx0 by done. simpl. destruct (_ =? _); eauto.
  - rewrite Hx0 by done. simpl.
    rewrite list_lookup_insert_eq by lia. simpl.
    destruct (_ =? _); eauto.
Qed.

Lemma relabel_loop_inv l done s s' :
  relabel_inv lat_a nop nol_b done s →
  Z.of_nat (length done) + Z.of_nat (length l) < 2 ^ 31 →
  for_each l (relabel_body nop nol_b lat_a) s = Ok s' →
  relabel_inv lat_a nop nol_b (done ++ l) s' ∧
  Forall (fits lat_a nop nol_b) l.
Proof.
  revert done s. induction l as [|st l IH]; intros done s Hinv Hsmall Hrun.
  - simpl in Hrun. injection Hrun as <-. by rewrite app_nil_r.
  - simpl in Hrun, Hsmall.
    destruct (relabel_body nop nol_b lat_a st s) as [s1|] eqn:Hstep; [|done].
    simpl in Hrun.
    destruct (relabel_body_inv lat_a nop nol_b done st s s1 Hinv)
      as (Hinv1 & Hfit); [lia|done|].
    destruct (IH (done ++ [st]) s1 Hinv1) as [Hinv' Hfits].
    { rewrite length_app. simpl. lia. }
    { done. }
    rewrite <- app_assoc in Hinv'. split; [done|]. by constructor.
Qed.

Lemma relabel_loop_ok l done s :
  relabel_inv lat_a nop nol_b done s →
  Z.of_nat (length done) + Z.of_nat (length l) < 2 ^ 31 →
  Forall (fits lat_a nop nol_b) l →
  ∃ s', for_each l (relabel_body nop nol_b lat_a) s = Ok s'.
Proof.
  intros Hinv Hsmall Hfits. revert done s Hinv Hsmall.
  induction Hfits as [|st l Hfit Hfits IH]; intros done s Hinv Hsmall.
  - by exists s.
  - simpl in Hsmall.
    destruct (relabel_body_ok done st s Hinv Hfit) as [s1 Hstep].
    simpl. rewrite Hstep. simpl.
    destruct (relabel_body_inv lat_a nop nol_b done st s s1 Hinv)
      as (Hinv1 & _); [lia|done|].
    apply (IH (done ++ [st])); [done|].
    rewrite length_app. simpl. lia.
Qed.

(** The table [relabel] returns, row by row. *)
Lemma relabel_table e_states table :
  Z.of_nat (length e_states) < 2 ^ 31 →
  relabel e_states nop nol_b lat_a = Ok table →
  length table = length e_states ∧
  Forall (fits lat_a nop nol_b) e_states ∧
  ∀ i st, e_states !! i = Some st →
    table !! i = Some (label_of lat_a nop nol_b (take i e_states) st).
Proof.
  intros Hsmall Hrun. unfold relabel in Hrun.
  destruct (for_each e_states _ _) as [s|] eqn:Hloop; [|done].
  simpl in Hrun. injection Hrun as <-.
  destruct (relabel_loop_inv e_states [] _ s (relabel_inv_init lat_a nop nol_b))
    as [(_ & _ & _ & _ & _ & Hlen & Hrows) Hfits]; [simpl; lia|done|].
  done.
Qed.

Lemma relabel_ok e_states :
  Z.of_nat (length e_states) < 2 ^ 31 →
  Forall (fits lat_a nop nol_b) e_states →
  ∃ table, relabel e_states nop nol_b lat_a = Ok table.
Proof.
  intros Hsmall Hfits. unfold relabel.
  destruct (relabel_loop_ok e_states [] _ (relabel_inv_init lat_a nop nol_b))
    as [s ->]; [simpl; lia|done|].
  by eexists.
Qed.

Lemma patterns_app_prefix done rest :
  ∃ k, patterns lat_a (done ++ rest) = patterns lat_a done ++ k.
Proof.
  induction rest as [|st rest [k IH]] using rev_ind.
  - exists []. by rewrite !app_nil_r.
  - rewrite app_assoc, patterns_snoc, IH.
    destruct (decide _); [by exists k|].
    exists (k ++ [pattern lat_a st]). by rewrite app_assoc.
Qed.

Lemma count_size_app {A} n (d k : list (list A)) :
  count_size n (d ++ k) = (count_size n d + count_size n k)%nat.
Proof. unfold count_size. by rewrite filter_app, length_app. Qed.

Lemma count_size_pos {A} n (d : list (list A)) c :
  c ∈ d → length c = n → (1 ≤ count_size n d)%nat.
Proof.
  intros Hc Hn. unfold count_size.
  assert (c ∈ filter (λ c, length c = n) d) as Hin
    by by apply list_elem_of_filter.
  destruct (filter _ d); [by apply elem_of_nil in Hin|simpl; lia].
Qed.
End RelabelLoop.

(** C5: when every state fits (at most [nop] particles in A, the others
    fit into B) [relabel] returns one row per state, in order; the row of a
    state with [n] particles in A carries [n], an A-index equal to the number
    of distinct A-patterns of size [n] seen up to that state (so between 1
    and the number of such patterns in the state space), and a B-index that
    is one more than the number of earlier states of the class taken modulo
    C(nol_b, nop - n): it runs through 1 .. C(nol_b, nop - n) and starts
    again at 1 right after reaching that number. *)
Theorem relabel_counters e_states nop nol_b lat_a :
  Z.of_nat (length e_states) < 2 ^ 31 →
  Forall (fits lat_a nop nol_b) e_states →
  ∃ table,
    relabel e_states nop nol_b lat_a = Ok table ∧
    length table = length e_states ∧
    ∀ i st, e_states !! i = Some st →
      ∃ row, table !! i = Some row ∧
        let n := length (pattern lat_a st) in
        let B := binom nol_b (nop - n) in
        a_count row = Z.of_nat n ∧
        a_index row
          = Z.of_nat (count_size n (patterns lat_a (take (S i) e_states))) ∧
        1 ≤ a_index row ≤ Z.of_nat (count_size n (patterns lat_a e_states)) ∧
        b_index row
          = Z.of_nat (class_count lat_a n (take i e_states)) mod B + 1 ∧
        1 ≤ b_index row ≤ B.
Proof.
  intros Hsmall Hfits.
  destruct (relabel_ok lat_a nop nol_b e_states Hsmall Hfits) as [table Hrun].
  destruct (relabel_table lat_a nop nol_b e_states table Hsmall Hrun)
    as (Hlen & _ & Hrows).
  exists table. split; [done|]. split; [done|].
  intros i st Hi. eexists. split; [by apply Hrows|].
  unfold label_of. simpl.
  set (n := length (pattern lat_a st)).
  rewrite <- (take_S_r _ _ _ Hi).
  split; [done|]. split; [done|]. split; [|split; [done|]].
  - split.
    + apply inj_le with (n := 1%nat).
      apply (count_size_pos _ _ (pattern lat_a st)); [|done].
      apply elem_of_patterns. exists st. split; [|done].
      rewrite (take_S_r _ _ _ Hi). apply elem_of_app. right. left.
    + apply inj_le.
      destruct (patterns_app_prefix lat_a (take (S i) e_states)
                  (drop (S i) e_states)) as [k Hk].
      rewrite take_drop in Hk. rewrite Hk, count_size_app. lia.
  - rewrite Forall_forall in Hfits.
    destruct (Hfits st) as [Hn Hfit]; [by eapply list_elem_of_lookup_2|].
    pose proof (binom_pos nol_b (nop - n) Hfit) as HB.
    pose proof (Z.mod_pos_bound
                  (Z.of_nat (class_count lat_a n (take i e_states)))
                  (binom nol_b (nop - n)) ltac:(lia)).
    lia.
Qed.

Lemma relabel_counters_witness :
  Z.of_nat (length [[1; 2]; [1; 3]; [1; 4]; [2; 3]; [2; 4]; [3; 4]]) < 2 ^ 31 ∧
  Forall (fits [1; 2] 2 2) [[1; 2]; [1; 3]; [1; 4]; [2; 3]; [2; 4]; [3; 4]] ∧
  ∃ table,
    relabel [[1; 2]; [1; 3]; [1; 4]; [2; 3]; [2; 4]; [3; 4]] 2 2 [1; 2]
      = Ok table ∧
    length table = 6%nat.
Proof.
  assert (Forall (fits [1; 2] 2 2)
            [[1; 2]; [1; 3]; [1; 4]; [2; 3]; [2; 4]; [3; 4]]) as Hfits.
  { repeat constructor; vm_compute; lia. }
  split; [simpl; lia|]. split; [done|].
  destruct (relabel_counters
              [[1; 2]; [1; 3]; [1; 4]; [2; 3]; [2; 4]; [3; 4]] 2 2 [1; 2])
    as (table & Hrun & Hlen & _); [simpl; lia|done|].
  by exists table.
Defined.

(** ** The indices of the density matrices *)

Lemma sum_ncr_defined n k v :
  sum_ncr (Z.of_nat n) (Z.of_nat k) = Ok v →
  (k ≤ n + 1)%nat ∧ v = sum_binom n k.
Proof.
  intros Hrun.
  destruct (decide (k ≤ n + 1)%nat) as [Hk|Hk].
  - rewrite sum_ncr_sum_binom in Hrun by done. by injection Hrun as <-.
  - exfalso. unfold sum_ncr, range in Hrun.
    rewrite Nat2Z.id, Nat.sub_0_r in Hrun.
    replace k with ((n + 1) + S (k - (n + 2)))%nat in Hrun by lia.
    rewrite seq_app, for_each_app in Hrun.
    pose proof (sum_ncr_sum_binom n (n + 1) ltac:(lia)) as Hpre.
    unfold sum_ncr, range in Hpre.
    rewrite Nat2Z.id, Nat.sub_0_r in Hpre. rewrite Hpre in Hrun.
    simpl in Hrun.
    destruct (ncr (Z.of_nat n) (Z.of_nat (n + 1))) as [c|] eqn:Encr;
      [|done].
    apply ncr_defined in Encr. lia.
Qed.

Lemma pattern_sorted lat_a st :
  StronglySorted Z.lt st → StronglySorted Z.lt (pattern lat_a st).
Proof. apply sorted_sublist, sublist_filter. Qed.

Lemma sorted_same_elements (c1 c2 : list Z) :
  StronglySorted Z.lt c1 → StronglySorted Z.lt c2 →
  (∀ x, x ∈ c1 ↔ x ∈ c2) → c1 = c2.
Proof.
  intros H1 H2 Hel.
  apply (StronglySorted_unique Z.le); [by apply sorted_lt_le..|].
  apply NoDup_Permutation; [by apply sorted_lt_NoDup..|done].
Qed.

(** There are at most C(|A|, n) distinct patterns of size [n]. *)
Lemma count_patterns_le lat_a e_states n :
  NoDup lat_a → Forall (StronglySorted Z.lt) e_states →
  Z.of_nat (count_size n (patterns lat_a e_states))
    ≤ binom (length lat_a) n.
Proof.
  intros Hnd Hsorted. rewrite <- length_combinations. apply inj_le.
  unfold count_size.
  set (D := filter (λ c, length c = n) (patterns lat_a e_states)).
  set (g := λ c : list Z, filter (λ x, x ∈ c) lat_a).
  assert (∀ c, c ∈ D →
            length c = n ∧ StronglySorted Z.lt c ∧ ∀ x, x ∈ c → x ∈ lat_a)
    as HD.
  { intros c [Hlen Hc]%list_elem_of_filter.
    apply elem_of_patterns in Hc as (st & Hst & ->).
    split; [done|]. split.
    - apply pattern_sorted. rewrite Forall_forall in Hsorted. by apply Hsorted.
    - intros x Hx. by apply list_elem_of_filter in Hx as [? _]. }
  assert (∀ c x, c ∈ D → x ∈ g c ↔ x ∈ c) as Hg.
  { intros c x Hc. unfold g. rewrite list_elem_of_filter.
    destruct (HD c Hc) as (_ & _ & Hsub). split; [tauto|]. auto. }
  rewrite <- (length_fmap g).
  apply submseteq_length, NoDup_submseteq.
  - apply NoDup_fmap_2_strong; [|apply NoDup_filter, NoDup_patterns].
    intros c1 c2 Hc1 Hc2 Heq.
    destruct (HD c1 Hc1) as (_ & Hs1 & _), (HD c2 Hc2) as (_ & Hs2 & _).
    apply sorted_same_elements; [done..|].
    intros x. by rewrite <- (Hg c1), <- (Hg c2), Heq.
  - intros k (c & -> & Hc)%list_elem_of_fmap.
    apply elem_of_combinations. split; [apply sublist_filter|].
    destruct (HD c Hc) as (Hlen & Hs & _). rewrite <- Hlen.
    apply Permutation_length, NoDup_Permutation.
    + by apply NoDup_filter.
    + by apply sorted_lt_NoDup.
    + intros x. by apply Hg.
Qed.

Lemma sum_binom_S n k : sum_binom n (S k) = sum_binom n k + binom n k.
Proof. done. Qed.

Lemma density_indices_in_bounds_aux e_states nop nol_b lat_a label :
  Z.of_nat (length e_states) < 2 ^ 31 →
  Forall (StronglySorted Z.lt) e_states → NoDup lat_a →
  relabel e_states nop nol_b lat_a = Ok label →
  (∀ dim_a, sum_ncr (Z.of_nat (length lat_a)) (Z.of_nat nop + 1) = Ok dim_a →
     ∀ row, row ∈ label →
       ∃ m, index_a (length lat_a) row = Ok m ∧ 0 ≤ m < dim_a) ∧
  (∀ dim_b, sum_ncr (Z.of_nat nol_b) (Z.of_nat nop + 1) = Ok dim_b →
     ∀ row, row ∈ label →
       ∃ m, index_b nol_b nop row = Ok m ∧ 0 ≤ m < dim_b).
Proof.
  intros Hsmall Hsorted Hnd Hrun.
  destruct (relabel_table lat_a nop nol_b e_states label Hsmall Hrun)
    as (Hlen & Hfits & Hrows).
  assert (∀ row, row ∈ label →
    ∃ i st, e_states !! i = Some st ∧ fits lat_a nop nol_b st ∧
            row = label_of lat_a nop nol_b (take i e_states) st) as Hrow.
  { intros row [i Hi]%list_elem_of_lookup.
    destruct (lookup_lt_is_Some_2 e_states i) as [st Hst].
    { apply lookup_lt_Some in Hi. lia. }
    exists i, st. split; [done|]. split.
    - rewrite Forall_forall in Hfits. apply Hfits.
      by eapply list_elem_of_lookup_2.
    - rewrite (Hrows i st Hst) in Hi. by injection Hi. }
  split.
  - intros dim_a Hdim row Hin.
    replace (Z.of_nat nop + 1) with (Z.of_nat (nop + 1)) in Hdim by lia.
    apply sum_ncr_defined in Hdim as [Hnop ->].
    destruct (Hrow row Hin) as (i & st & Hst & [Hn Hfit] & ->).
    unfold index_a, label_of. simpl.
    set (n := length (pattern lat_a st)) in *.
    rewrite sum_ncr_sum_binom by lia. simpl. eexists. split; [done|].
    rewrite <- (take_S_r _ _ _ Hst).
    pose proof (count_patterns_le lat_a (take (S i) e_states) n Hnd) as Hle.
    assert (1 ≤ Z.of_nat (count_size n
              (patterns lat_a (take (S i) e_states)))) as Hge.
    { apply inj_le with (n := 1%nat).
      apply (count_size_pos _ _ (pattern lat_a st)); [|done].
      apply elem_of_patterns. exists st. split; [|done].
      rewrite (take_S_r _ _ _ Hst). apply elem_of_app. right. left. }
    pose proof (sum_binom_mono (length lat_a) (S n) (nop + 1) ltac:(lia))
      as Hmono.
    rewrite sum_binom_S in Hmono.
    pose proof (sum_binom_mono (length lat_a) 0 n ltac:(lia)) as H0.
    simpl in H0.
    specialize (Hle ltac:(by apply Forall_take)). lia.
  - intros dim_b Hdim row Hin.
    replace (Z.of_nat nop + 1) with (Z.of_nat (nop + 1)) in Hdim by lia.
    apply sum_ncr_defined in Hdim as [Hnop ->].
    destruct (Hrow row Hin) as (i & st & Hst & [Hn Hfit] & ->).
    unfold index_b, label_of. simpl.
    set (n := length (pattern lat_a st)) in *.
    replace (Z.of_nat nop - Z.of_nat n) with (Z.of_nat (nop - n)) by lia.
    rewrite sum_ncr_sum_binom by lia. simpl. eexists. split; [done|].
    pose proof (binom_pos nol_b (nop - n) Hfit) as HB.
    pose proof (Z.mod_pos_bound
                  (Z.of_nat (class_count lat_a n (take i e_states)))
                  (binom nol_b (nop - n)) ltac:(lia)) as Hmod.
    pose proof (sum_binom_mono nol_b (S (nop - n)) (nop + 1) ltac:(lia))
      as Hmono.
    rewrite sum_binom_S in Hmono.
    pose proof (sum_binom_mono nol_b 0 (nop - n) ltac:(lia)) as H0.
    simpl in H0. lia.
Qed.

(** C10: for a table [relabel] produced from strictly increasing states and
    a duplicate-free A, every index [density_matrix_a] computes (with
    [nol_a] the number of A-sites) and every index [rho_b_pbasis] computes
    lies in [0, dim), [dim] being the dimension the function allocates. *)
Theorem density_indices_in_bounds e_states nop nol_b lat_a label :
  Z.of_nat (length e_states) < 2 ^ 31 →
  Forall (StronglySorted Z.lt) e_states → NoDup lat_a →
  relabel e_states nop nol_b lat_a = Ok label →
  (∀ dim_a, sum_ncr (Z.of_nat (length lat_a)) (Z.of_nat nop + 1) = Ok dim_a →
     ∀ row, row ∈ label →
       ∃ m, index_a (length lat_a) row = Ok m ∧ 0 ≤ m < dim_a) ∧
  (∀ dim_b, sum_ncr (Z.of_nat nol_b) (Z.of_nat nop + 1) = Ok dim_b →
     ∀ row, row ∈ label →
       ∃ m, index_b nol_b nop row = Ok m ∧ 0 ≤ m < dim_b).
Proof. apply density_indices_in_bounds_aux. Qed.

(** ** Complex arithmetic and sums *)

Lemma complex_eq a b : re a = re b → im a = im b → a = b.
Proof. destruct a, b. simpl. by intros -> ->. Qed.

Lemma cadd_comm a b : cadd a b = cadd b a.
Proof. apply complex_eq; simpl; ring. Qed.

Lemma cadd_assoc a b c : cadd a (cadd b c) = cadd (cadd a b) c.
Proof. apply complex_eq; simpl; ring. Qed.

Lemma cadd_0_r a : cadd a czero = a.
Proof. apply complex_eq; simpl; ring. Qed.

Lemma conj_cadd a b : conj (cadd a b) = cadd (conj a) (conj b).
Proof. apply complex_eq; simpl; ring. Qed.

Lemma conj_vdot a b : conj (vdot a b) = vdot b a.
Proof. apply complex_eq; simpl; ring. Qed.

Lemma re_vdot_self a : re (vdot a a) = (re a * re a + im a * im a)%Qc.
Proof. simpl. ring. Qed.

Lemma csum_perm l1 l2 : l1 ≡ₚ l2 → csum l1 = csum l2.
Proof.
  induction 1 as [|x l1 l2 _ IH|x y l|l1 l2 l3 _ IH1 _ IH2]; simpl.
  - done.
  - by rewrite IH.
  - by rewrite !cadd_assoc, (cadd_comm x y).
  - by rewrite IH1.
Qed.

Lemma conj_csum l : conj (csum l) = csum (conj <$> l).
Proof.
  induction l as [|x l IH]; simpl.
  - by apply complex_eq; simpl; [|ring].
  - by rewrite conj_cadd, IH.
Qed.

Lemma qsum_cons x l : qsum (x :: l) = (x + qsum l)%Qc.
Proof. done. Qed.

Lemma qsum_app l1 l2 : qsum (l1 ++ l2) = (qsum l1 + qsum l2)%Qc.
Proof.
  induction l1 as [|x l1 IH]; [simpl; ring|].
  rewrite <- app_comm_cons, !qsum_cons, IH. ring.
Qed.

Lemma qsum_zero {A} (l : list A) : qsum ((λ _, 0%Qc) <$> l) = 0%Qc.
Proof.
  induction l as [|x l IH]; [done|].
  rewrite fmap_cons, qsum_cons, IH. ring.
Qed.

(** A sum whose terms are changed at one index. *)
Lemma qsum_seq_point (g : nat → Qc) (m : nat) (d : Qc) s n :
  qsum ((λ p, g p + if decide (p = m) then d else 0)%Qc <$> seq s n) =
  (qsum (g <$> seq s n)
   + if decide (s ≤ m < s + n)%nat then d else 0)%Qc.
Proof.
  revert s. induction n as [|n IH]; intros s.
  - simpl. rewrite decide_False by lia. ring.
  - rewrite <- cons_seq, !fmap_cons, !qsum_cons, IH.
    destruct (decide (s = m)) as [->|Hne].
    + rewrite decide_False by lia. rewrite decide_True by lia. ring.
    + destruct (decide (S s ≤ m < S s + n)%nat).
      * rewrite decide_True by lia. ring.
      * rewrite decide_False by lia. ring.
Qed.

(** ** Traces *)

Lemma omap_total {A B} (f : A → option B) (d : B) (l : list A) :
  Forall (λ x, is_Some (f x)) l → omap f l = (λ x, default d (f x)) <$> l.
Proof.
  induction 1 as [|x l [y Hy] Hl IH]; [done|].
  rewrite fmap_cons, <- IH. simpl. by rewrite Hy.
Qed.

Lemma diagonal_shape {A} (d : A) n (m : list (list A)) :
  shape n m → diagonal m = (λ p, default d (cell m p p)) <$> seq 0 n.
Proof.
  intros Hshape. unfold diagonal.
  destruct Hshape as [Hlen Hrows] eqn:E. rewrite Hlen.
  apply omap_total, Forall_forall. intros p Hp%elem_of_seq.
  apply (cell_is_Some n); [done|lia..].
Qed.

Lemma trace_real_shape n rho :
  shape n rho →
  trace_real rho = qsum ((λ p, re (default czero (cell rho p p))) <$> seq 0 n).
Proof.
  intros Hshape. unfold trace_real.
  rewrite (diagonal_shape czero n) by done.
  by rewrite <- list_fmap_compose.
Qed.

Lemma trace_real_insert n rho row mi ni old v :
  shape n rho → rho !! mi = Some row → row !! ni = Some old →
  trace_real (<[mi := <[ni := cadd old v]> row]> rho) =
    (trace_real rho + if decide (mi = ni) then re v else 0)%Qc.
Proof.
  intros Hshape Hrow Hold.
  apply lookup_lt_Some in Hrow as Hmi. apply lookup_lt_Some in Hold as Hni.
  assert (mi < n)%nat as Hmi' by (destruct Hshape; lia).
  rewrite (trace_real_shape n) by by apply shape_insert.
  rewrite (trace_real_shape n rho) by done.
  destruct (decide (mi = ni)) as [<-|Hne].
  - rewrite <- (decide_True (re v) 0%Qc (P := (0 ≤ mi < 0 + n)%nat)) by lia.
    rewrite <- qsum_seq_point. f_equal.
    apply list_fmap_ext. intros i p Hp.
    rewrite cell_insert by done.
    destruct (decide ((p, p) = (mi, mi))) as [Heq|Hneq].
    + injection Heq as ->. rewrite decide_True by done.
      unfold cell. rewrite Hrow. simpl. rewrite Hold. done.
    + rewrite decide_False by congruence. simpl. ring.
  - rewrite Qcplus_0_r. f_equal.
    apply list_fmap_ext. intros i p Hp.
    rewrite cell_insert by done.
    rewrite decide_False; [done|]. congruence.
Qed.

(** ** The accumulation loops *)

Section Accumulate.
Variables (same : label_row → label_row → bool) (pos : label_row → result Z).
Variables (label : list label_row) (e_vec : list complex) (dim : nat).
Hypothesis Hvec : length e_vec = length label.
Hypothesis Hpos : ∀ row, row ∈ label →
  ∃ p, pos row = Ok (Z.of_nat p) ∧ (p < dim)%nat.

Lemma pos_posn row :
  row ∈ label →
  pos row = Ok (Z.of_nat (posn pos row)) ∧ (posn pos row < dim)%nat.
Proof.
  intros Hin. destruct (Hpos row Hin) as (p & Hp & Hlt).
  unfold posn. rewrite Hp, Nat2Z.id. done.
Qed.

Lemma accumulate_step i j rho :
  shape dim rho → (i < length label)%nat → (j < length label)%nat →
  ∃ rho',
    accumulate_body same pos label e_vec i j rho = Ok rho' ∧
    shape dim rho' ∧
    (∀ p q, cell rho' p q =
       if decide (contributes same pos label p q (i, j))
       then (λ old, cadd old (term e_vec (i, j))) <$> cell rho p q
       else cell rho p q) ∧
    trace_real rho' =
      (trace_real rho + diag_weight same pos label e_vec (i, j))%Qc.
Proof.
  intros Hshape Hi Hj.
  assert (∀ p q, contributes same pos label p q (i, j) ↔
            same (label !!! i) (label !!! j) = true ∧
            posn pos (label !!! i) = p ∧ posn pos (label !!! j) = q) as Hc
    by done.
  unfold accumulate_body, index, diag_weight. simpl.
  rewrite (list_lookup_lookup_total_lt label i) by done.
  rewrite (list_lookup_lookup_total_lt label j) by done. simpl.
  set (li := label !!! i) in *. set (lj := label !!! j) in *.
  destruct (same li lj) eqn:Hsame.
  2:{ exists rho. split; [done|]. split; [done|]. split.
      - intros p q. rewrite decide_False; [done|].
        rewrite Hc. by intros [? _].
      - rewrite decide_False; [ring|]. rewrite Hc. by intros [? _]. }
  destruct (pos_posn li) as [-> Hpi]; [by apply list_elem_of_lookup_total_2|].
  destruct (pos_posn lj) as [-> Hpj]; [by apply list_elem_of_lookup_total_2|].
  simpl. destruct Hshape as [Hlen Hrows] eqn:E. clear E.
  rewrite Hlen, np_index_in_range, Nat2Z.id by lia. simpl.
  destruct (lookup_lt_is_Some_2 rho (posn pos li)) as [row Hrow]; [lia|].
  rewrite Hrow. simpl.
  assert (length row = dim) as Hr.
  { rewrite Forall_forall in Hrows. apply Hrows.
    by eapply list_elem_of_lookup_2. }
  rewrite Hr, np_index_in_range, Nat2Z.id by lia. simpl.
  destruct (lookup_lt_is_Some_2 row (posn pos lj)) as [old Hold]; [lia|].
  rewrite Hold. simpl.
  rewrite (list_lookup_lookup_total_lt e_vec j) by lia.
  rewrite (list_lookup_lookup_total_lt e_vec i) by lia. simpl.
  eexists. split; [done|]. split; [by apply shape_insert|]. split.
  - intros p q. rewrite cell_insert by (done || lia).
    destruct (decide ((p, q) = (posn pos li, posn pos lj))) as [Heq|Hne].
    + injection Heq as -> ->. rewrite decide_True by by apply Hc.
      unfold cell. rewrite Hrow. simpl. rewrite Hold. done.
    + rewrite decide_False; [done|]. rewrite Hc. intros (_ & <- & <-). done.
  - rewrite (trace_real_insert dim) by done. f_equal.
    destruct (decide (posn pos li = posn pos lj)) as [Heq|Hne].
    + rewrite decide_True; [done|]. by apply Hc.
    + rewrite decide_False; [done|]. rewrite Hc. by intros (_ & ? & _).
Qed.

Lemma accumulate_cells l rho :
  shape dim rho →
  Forall (λ ij, (ij.1 < length label)%nat ∧ (ij.2 < length label)%nat) l →
  ∃ rho',
    for_each l (λ ij rho, accumulate_body same pos label e_vec ij.1 ij.2 rho)
      rho = Ok rho' ∧
    shape dim rho' ∧
    (∀ p q, cell rho' p q =
       (λ old, cadd old
          (csum (term e_vec
                   <$> filter (contributes same pos label p q) l)))
       <$> cell rho p q) ∧
    trace_real rho' =
      (trace_real rho + qsum (diag_weight same pos label e_vec <$> l))%Qc.
Proof.
  intros Hshape Hall. revert rho Hshape.
  induction Hall as [|[i j] l [Hi Hj] Hall IH]; intros rho Hshape.
  - exists rho. split; [done|]. split; [done|]. split.
    + intros p q. simpl. destruct (cell rho p q); [|done].
      simpl. by rewrite cadd_0_r.
    + simpl. ring.
  - simpl in Hi, Hj.
    destruct (accumulate_step i j rho Hshape Hi Hj)
      as (rho1 & Hstep & Hshape1 & Hcell1 & Htr1).
    destruct (IH rho1 Hshape1) as (rho' & Hrun & Hshape' & Hcell' & Htr').
    exists rho'. split; [by simpl; rewrite Hstep|]. split; [done|]. split.
    + intros p q. rewrite Hcell', Hcell1.
      destruct (decide (contributes same pos label p q (i, j))) as [Hc|Hc].
      * rewrite filter_cons_True by done.
        destruct (cell rho p q); [|done]. simpl.
        by rewrite <- cadd_assoc.
      * by rewrite filter_cons_False by done.
    + rewrite Htr', Htr1, fmap_cons, qsum_cons. ring.
Qed.
End Accumulate.

Lemma shape_replicate {A} n (x : A) : shape n (replicate n (replicate n x)).
Proof.
  split; [apply length_replicate|].
  apply Forall_replicate, length_replicate.
Qed.

Lemma cell_replicate {A} n (x : A) p q :
  (p < n)%nat → (q < n)%nat → cell (replicate n (replicate n x)) p q = Some x.
Proof.
  intros Hp Hq. unfold cell. rewrite lookup_replicate_2 by done. simpl.
  by rewrite lookup_replicate_2.
Qed.

Lemma trace_real_czeros dim : trace_real (czeros dim) = 0%Qc.
Proof.
  rewrite (trace_real_shape dim) by apply shape_replicate.
  rewrite <- (qsum_zero (seq 0 dim)). f_equal.
  apply list_fmap_ext. intros i p Hp.
  apply list_elem_of_lookup_2, elem_of_seq in Hp.
  unfold czeros. by rewrite cell_replicate by lia.
Qed.

Lemma filter_fmap {A B} (f : A → B) (P : B → Prop) `{∀ y, Decision (P y)}
    (l : list A) :
  filter P (f <$> l) = f <$> filter (λ x, P (f x)) l.
Proof.
  induction l as [|x l IH]; [done|].
  rewrite fmap_cons, !filter_cons, IH. by destruct (decide (P (f x))).
Qed.

Lemma all_cells_swap nos : prod_swap <$> all_cells nos ≡ₚ all_cells nos.
Proof.
  apply NoDup_Permutation.
  - apply (NoDup_fmap_2 _), NoDup_all_cells.
  - apply NoDup_all_cells.
  - intros [i j]. rewrite list_elem_of_fmap, elem_of_all_cells. split.
    + intros ([j' i'] & Heq & Hin). apply elem_of_all_cells in Hin.
      unfold prod_swap in Heq. simpl in Heq. injection Heq as -> ->. lia.
    + intros [Hi Hj]. exists (j, i). split; [done|].
      by apply elem_of_all_cells.
Qed.

Lemma qsum_bind {A B} (h : B → Qc) (g : A → list B) (l : list A) :
  qsum (h <$> (l ≫= g)) = qsum ((λ x, qsum (h <$> g x)) <$> l).
Proof.
  induction l as [|x l IH]; [done|].
  rewrite bind_cons, fmap_app, qsum_app, fmap_cons, qsum_cons, IH. done.
Qed.

Lemma qsum_ext {A} (f g : A → Qc) (l : list A) :
  (∀ x, x ∈ l → f x = g x) → qsum (f <$> l) = qsum (g <$> l).
Proof.
  intros Hext. f_equal. apply list_fmap_ext. intros i x Hx.
  apply Hext. by eapply list_elem_of_lookup_2.
Qed.

(** Summing over all cells what only the diagonal pairs carry. *)
Lemma qsum_all_cells_diag (f : nat → Qc) nos :
  qsum ((λ ij, if decide (ij.1 = ij.2) then f ij.1 else 0%Qc)
          <$> all_cells nos)
  = qsum (f <$> seq 0 nos).
Proof.
  unfold all_cells, range. rewrite Nat.sub_0_r, qsum_bind.
  apply qsum_ext. intros i Hi%elem_of_seq.
  rewrite qsum_bind.
  rewrite (qsum_ext _ (λ j, 0 + if decide (j = i) then f i else 0)%Qc).
  - rewrite (qsum_seq_point (λ _, 0%Qc)), qsum_zero.
    rewrite decide_True by lia. ring.
  - intros j _. simpl. rewrite Qcplus_0_r, Qcplus_0_l.
    destruct (decide (i = j)), (decide (j = i)); done || lia.
Qed.

Lemma list_as_seq {A} `{Inhabited A} (l : list A) :
  l = (λ i, l !!! i) <$> seq 0 (length l).
Proof.
  apply list_eq. intros i. rewrite list_lookup_fmap.
  destruct (decide (i < length l)%nat) as [Hlt|Hge].
  - rewrite lookup_seq_lt by done. simpl.
    by apply list_lookup_lookup_total_lt.
  - rewrite lookup_seq_ge by lia. simpl. apply lookup_ge_None. lia.
Qed.

Section Reduced.
Variables (same : label_row → label_row → bool) (pos : label_row → result Z).
Variables (label : list label_row) (e_vec : list complex) (dim : nat).
Hypothesis Hvec : length e_vec = length label.
Hypothesis Hpos : ∀ row, row ∈ label →
  ∃ p, pos row = Ok (Z.of_nat p) ∧ (p < dim)%nat.

(** The double loop over all pairs of states, from the zero matrix. *)
Lemma accumulate_loops :
  ∃ rho,
    for_each (range 0 (length label)) (λ i rho,
      for_each (range 0 (length label)) (λ j rho,
        accumulate_body same pos label e_vec i j rho) rho) (czeros dim)
      = Ok rho ∧
    shape dim rho ∧
    (∀ p q, (p < dim)%nat → (q < dim)%nat →
       cell rho p q =
         Some (csum (term e_vec
                       <$> filter (contributes same pos label p q)
                             (all_cells (length label))))) ∧
    trace_real rho =
      qsum (diag_weight same pos label e_vec <$> all_cells (length label)).
Proof.
  destruct (accumulate_cells same pos label e_vec dim Hvec Hpos
              (all_cells (length label)) (czeros dim))
    as (rho & Hrun & Hshape & Hcell & Htr).
  { apply shape_replicate. }
  { apply Forall_forall. intros [i j] Hin.
    by apply elem_of_all_cells in Hin. }
  exists rho. split; [|split; [done|split]].
  - rewrite <- Hrun. unfold all_cells. rewrite for_each_flatten.
    apply for_each_ext. intros i s. rewrite for_each_flatten.
    apply for_each_ext. intros j s'. simpl.
    by destruct (accumulate_body same pos label e_vec i j s').
  - intros p q Hp Hq. rewrite Hcell. unfold czeros.
    rewrite cell_replicate by done. simpl. f_equal.
    apply complex_eq; simpl; ring.
  - rewrite Htr, trace_real_czeros. ring.
Qed.

Hypothesis same_sym : ∀ a b, same a b = same b a.

Lemma partial_trace_conj p q :
  conj (csum (term e_vec
                <$> filter (contributes same pos label p q)
                      (all_cells (length label))))
  = csum (term e_vec
            <$> filter (contributes same pos label q p)
                  (all_cells (length label))).
Proof.
  rewrite conj_csum, <- list_fmap_compose.
  transitivity
    (csum (term e_vec
             <$> filter (contributes same pos label q p)
                   (prod_swap <$> all_cells (length label)))).
  2:{ apply csum_perm, fmap_Permutation, filter_Permutation, all_cells_swap. }
  rewrite filter_fmap, <- list_fmap_compose.
  rewrite (list_filter_iff
             (λ x, contributes same pos label q p (prod_swap x))
             (contributes same pos label p q)).
  - f_equal. apply list_fmap_ext. intros i [a b] _. simpl.
    unfold term, prod_swap. simpl. apply conj_vdot.
  - intros [a b]. unfold contributes, prod_swap. simpl.
    rewrite (same_sym (label !!! b)). tauto.
Qed.

Lemma accumulate_hermitian rho :
  shape dim rho →
  (∀ p q, (p < dim)%nat → (q < dim)%nat →
     cell rho p q =
       Some (csum (term e_vec
                     <$> filter (contributes same pos label p q)
                           (all_cells (length label))))) →
  hermitian rho.
Proof.
  intros Hshape Hcell p q.
  destruct (decide (p < dim ∧ q < dim)%nat) as [[Hp Hq]|Hout].
  - rewrite !Hcell by done. simpl. f_equal. symmetry.
    apply partial_trace_conj.
  - rewrite !(cell_outside dim) by (done || lia). done.
Qed.

Hypothesis same_refl : ∀ a, same a a = true.
Hypothesis Hdistinct : NoDup label.
Hypothesis Hinj : ∀ a b, a ∈ label → b ∈ label →
  same a b = true → posn pos a = posn pos b → a = b.

(** With pairwise distinct rows only the pairs [(i, i)] reach the
    diagonal, and the trace is the squared norm of the vector. *)
Lemma accumulate_trace :
  qsum (diag_weight same pos label e_vec <$> all_cells (length label))
  = norm2 e_vec.
Proof.
  set (f := λ i : nat, (re (e_vec !!! i) * re (e_vec !!! i)
                        + im (e_vec !!! i) * im (e_vec !!! i))%Qc).
  rewrite (qsum_ext _ (λ ij, if decide (ij.1 = ij.2) then f ij.1 else 0%Qc)).
  - rewrite (qsum_all_cells_diag f). unfold norm2.
    rewrite (list_as_seq e_vec) at 1. rewrite <- list_fmap_compose.
    by rewrite Hvec.
  - intros [i j] [Hi Hj]%elem_of_all_cells. unfold diag_weight.
    simpl in *.
    destruct (decide (i = j)) as [->|Hne].
    + rewrite decide_True by (split; [apply same_refl|done]).
      unfold term. simpl fst. simpl snd. apply re_vdot_self.
    + rewrite decide_False; [done|]. intros (Hs & Hp & _). simpl in *.
      apply Hne. eapply NoDup_lookup; [done| |].
      * by apply list_lookup_lookup_total_lt.
      * rewrite list_lookup_lookup_total_lt by done. f_equal.
        symmetry. apply Hinj; [by apply list_elem_of_lookup_total_2..|done|done].
Qed.
End Reduced.

(** ** The two reduced density matrices *)

Lemma same_a_sym a b : same_a a b = same_a b a.
Proof.
  unfold same_a.
  by rewrite (Z.eqb_sym (a_count a)), (Z.eqb_sym (b_index a)).
Qed.

Lemma same_b_sym a b : same_b a b = same_b b a.
Proof.
  unfold same_b.
  by rewrite (Z.eqb_sym (a_count a)), (Z.eqb_sym (a_index a)).
Qed.

Lemma same_a_refl a : same_a a a = true.
Proof. unfold same_a. by rewrite !Z.eqb_refl. Qed.

Lemma same_b_refl a : same_b a a = true.
Proof. unfold same_b. by rewrite !Z.eqb_refl. Qed.

Lemma index_a_inj nol_a a b pa pb :
  index_a nol_a a = Ok (Z.of_nat pa) → index_a nol_a b = Ok (Z.of_nat pb) →
  same_a a b = true →
  posn (index_a nol_a) a = posn (index_a nol_a) b → a = b.
Proof.
  intros Ha Hb Hsame Hpos. unfold posn in Hpos. rewrite Ha, Hb in Hpos.
  rewrite !Nat2Z.id in Hpos. subst pb.
  unfold same_a in Hsame. apply andb_true_iff in Hsame as [Hn Hbi].
  apply Z.eqb_eq in Hn, Hbi.
  unfold index_a in Ha, Hb. rewrite <- Hn in Hb.
  destruct (sum_ncr (Z.of_nat nol_a) (a_count a)) as [s|]; [|done].
  simpl in Ha, Hb. injection Ha as Ha. injection Hb as Hb.
  destruct a, b. simpl in *. f_equal; lia.
Qed.

Lemma index_b_inj nol_b nop a b pa pb :
  index_b nol_b nop a = Ok (Z.of_nat pa) →
  index_b nol_b nop b = Ok (Z.of_nat pb) →
  same_b a b = true →
  posn (index_b nol_b nop) a = posn (index_b nol_b nop) b → a = b.
Proof.
  intros Ha Hb Hsame Hpos. unfold posn in Hpos. rewrite Ha, Hb in Hpos.
  rewrite !Nat2Z.id in Hpos. subst pb.
  unfold same_b in Hsame. apply andb_true_iff in Hsame as [Hn Hai].
  apply Z.eqb_eq in Hn, Hai.
  unfold index_b in Ha, Hb. rewrite <- Hn in Hb.
  destruct (sum_ncr (Z.of_nat nol_b) (Z.of_nat nop - a_count a)) as [s|];
    [|done].
  simpl in Ha, Hb. injection Ha as Ha. injection Hb as Hb.
  destruct a, b. simpl in *. f_equal; lia.
Qed.

Lemma density_loop_a_accumulate label e_vec nos nol_a nop dim :
  sum_ncr (Z.of_nat nol_a) (Z.of_nat nop + 1) = Ok dim →
  density_loop_a label e_vec nos nol_a nop =
    for_each (range 0 nos) (λ i rho,
      for_each (range 0 nos) (λ j rho,
        accumulate_body same_a (index_a nol_a) label e_vec i j rho) rho)
      (czeros (Z.to_nat dim)).
Proof. intros Hdim. unfold density_loop_a. by rewrite Hdim. Qed.

Lemma rho_loop_b_accumulate label e_vec nos nol_b nop dim :
  sum_ncr (Z.of_nat nol_b) (Z.of_nat nop + 1) = Ok dim →
  rho_loop_b label e_vec nos nol_b nop =
    for_each (range 0 nos) (λ i rho,
      for_each (range 0 nos) (λ j rho,
        accumulate_body same_b (index_b nol_b nop) label e_vec i j rho) rho)
      (czeros (Z.to_nat dim)).
Proof. intros Hdim. unfold rho_loop_b. by rewrite Hdim. Qed.

Lemma fabs_0 : fabs (1 - 1) = 0%Qc.
Proof. by apply Qc_is_canon. Qed.

Lemma within_tolerance : ¬ (tolerance < fabs (1 - 1))%Qc.
Proof. rewrite fabs_0. by apply Qcle_not_lt. Qed.

Lemma density_indices_in_bounds_witness :
  let e_states := [[1; 2]; [1; 3]; [1; 4]; [2; 3]; [2; 4]; [3; 4]] in
  let label := [LabelRow 1 2 1; LabelRow 1 1 1; LabelRow 1 1 2;
                LabelRow 2 1 1; LabelRow 2 1 2; LabelRow 1 0 1] in
  Z.of_nat (length e_states) < 2 ^ 31 ∧
  Forall (StronglySorted Z.lt) e_states ∧ NoDup [1; 2] ∧
  relabel e_states 2 2 [1; 2] = Ok label ∧
  ∃ m, index_b 2 2 (LabelRow 2 1 2) = Ok m ∧ 0 ≤ m < 4.
Proof.
  intros e_states label.
  assert (Forall (StronglySorted Z.lt) e_states) as Hs
    by (repeat constructor; lia).
  assert (NoDup [1; 2]) as Hnd by by apply (bool_decide_unpack _).
  assert (relabel e_states 2 2 [1; 2] = Ok label) as Hrun by reflexivity.
  split; [simpl; lia|]. split; [done|]. split; [done|]. split; [done|].
  destruct (density_indices_in_bounds e_states 2 2 [1; 2] label)
    as [_ Hb]; [simpl; lia|done|done|done|].
  apply (Hb 4); [reflexivity|].
  by apply (bool_decide_unpack _).
Defined.

(** ** The trace check *)

(** In [rho_b_pbasis] a trace off by more than the tolerance is printed and
    the matrix is returned. *)
Lemma rho_b_pbasis_deviation_printed label e_vec nos nol_b nop rho_b :
  rho_loop_b label e_vec nos nol_b nop = Ok rho_b →
  (tolerance < fabs (trace_real rho_b - 1))%Qc →
  rho_b_pbasis label e_vec nos nol_b nop =
    Ok (rho_b, [Printed "WARNING: Trace of density matrix B not 1, Trace="
                  (trace_real rho_b)]).
Proof.
  intros Hloop Hdev. unfold rho_b_pbasis. rewrite Hloop. simpl.
  by rewrite decide_True.
Qed.

(** In [density_matrix_a] the same deviation ends in a [TypeError]: the
    trace is passed where [warnings.warn] expects the warning category. *)
Lemma density_matrix_a_deviation_raises label e_vec nos nol_a nop rho_a :
  density_loop_a label e_vec nos nol_a nop = Ok rho_a →
  (tolerance < fabs (trace_real rho_a - 1))%Qc →
  density_matrix_a label e_vec nos nol_a nop = Raise TypeError.
Proof.
  intros Hloop Hdev. unfold density_matrix_a. rewrite Hloop. simpl.
  by rewrite decide_True.
Qed.

(** C3 (the code departs from it): one state, one A-site, no particle and
    the coefficient 2 give a density matrix of trace 4; [density_matrix_a]
    raises [TypeError] instead of warning and returning the matrix. *)
Theorem density_matrix_a_trace_check_raises :
  density_loop_a [LabelRow 1 0 1] [Complex (Q2Qc 2) 0%Qc] 1 1 0
    = Ok [[Complex (Q2Qc 4) 0%Qc]] ∧
  (tolerance < fabs (trace_real [[Complex (Q2Qc 4) 0%Qc]] - 1))%Qc ∧
  density_matrix_a [LabelRow 1 0 1] [Complex (Q2Qc 2) 0%Qc] 1 1 0
    = Raise TypeError.
Proof.
  assert (density_loop_a [LabelRow 1 0 1] [Complex (Q2Qc 2) 0%Qc] 1 1 0
            = Ok [[Complex (Q2Qc 4) 0%Qc]]) as Hloop.
  { vm_compute. repeat f_equal; by apply Qc_is_canon. }
  assert (tolerance < fabs (trace_real [[Complex (Q2Qc 4) 0%Qc]] - 1))%Qc
    as Hdev by by vm_compute.
  split; [done|]. split; [done|].
  by eapply density_matrix_a_deviation_raises.
Qed.

(** ** A sorting routine that meets the contract of [argsort] *)

Lemma insert_index_perm v i l : insert_index v i l ≡ₚ i :: l.
Proof.
  induction l as [|j l IH]; simpl; [done|].
  destruct (decide _); [done|]. rewrite IH. apply Permutation_swap.
Qed.

Lemma insert_index_sorted v i l :
  StronglySorted (λ a b, v !!! a ≤ v !!! b)%Qc l →
  StronglySorted (λ a b, v !!! a ≤ v !!! b)%Qc (insert_index v i l).
Proof.
  induction 1 as [|j l Hl IH Hj]; simpl.
  - repeat constructor.
  - destruct (decide (v !!! i ≤ v !!! j)%Qc) as [Hle|Hgt].
    + constructor; [by constructor|]. constructor; [done|].
      eapply Forall_impl; [done|]. simpl. intros k Hk.
      by eapply Qcle_trans.
    + constructor; [done|]. rewrite insert_index_perm.
      constructor; [|done].
      destruct (Qc_le_total (v !!! i) (v !!! j)); done.
Qed.

Lemma insertion_argsort_contract v :
  insertion_argsort v ≡ₚ seq 0 (length v) ∧
  StronglySorted Qcle ((λ k, v !!! k) <$> insertion_argsort v).
Proof.
  unfold insertion_argsort. split.
  - induction (seq 0 (length v)) as [|i l IH]; simpl; [done|].
    by rewrite insert_index_perm, IH.
  - apply (StronglySorted_fmap (λ k, v !!! k)
             (λ a b, v !!! a ≤ v !!! b)%Qc Qcle); [by intros ???|].
    induction (seq 0 (length v)) as [|i l IH]; simpl; [constructor|].
    by apply insert_index_sorted.
Qed.

(** ** Diagonalisation *)

Lemma take_indices_ok {A} `{Inhabited A} (a : list A) (idx : list nat) :
  Forall (λ k, (k < length a)%nat) idx →
  take_indices a idx = Ok ((λ k, a !!! k) <$> idx).
Proof.
  intros Hidx. unfold take_indices. apply mapM_ok.
  eapply Forall_impl; [done|]. simpl. intros k Hk.
  unfold index. by rewrite list_lookup_lookup_total_lt.
Qed.

(** C8: whatever eigenvalues and eigenvector matrix the solver returns for
    [h] (each row of the matrix as long as the list of eigenvalues), if the
    indices [argsort] returns for the real parts are a permutation of the
    positions that puts them in non-decreasing order, [diagonalize] returns
    the real parts in non-decreasing order, a rearrangement of the solver's,
    and the [i]-th returned eigenvalue and the [i]-th returned column are
    the eigenvalue and the column the solver had at one and the same
    position [index[i]]. *)
Theorem diagonalize_sorted_paired {H}
    (eig : H → list complex * list (list complex))
    (argsort : list Qc → list nat) (h : H) :
  let w := (eig h).1 in
  let v := (eig h).2 in
  let idx := argsort (re <$> w) in
  Forall (λ row, length row = length w) v →
  idx ≡ₚ seq 0 (length w) →
  StronglySorted Qcle ((λ k, (re <$> w) !!! k) <$> idx) →
  ∃ eigenvalues eigenvectors,
    diagonalize eig argsort h = Ok (eigenvalues, eigenvectors) ∧
    StronglySorted Qcle eigenvalues ∧
    eigenvalues ≡ₚ re <$> w ∧
    length eigenvectors = length v ∧
    ∀ i k, idx !! i = Some k →
      eigenvalues !! i = re <$> w !! k ∧
      ∀ r row, v !! r = Some row →
        ∃ row', eigenvectors !! r = Some row' ∧ row' !! i = row !! k.
Proof.
  intros w v idx Hrows Hperm Hsorted.
  assert (Forall (λ k, (k < length w)%nat) idx) as Hidx.
  { apply Forall_forall. intros k Hk. rewrite Hperm in Hk.
    apply elem_of_seq in Hk. lia. }
  exists ((λ k, (re <$> w) !!! k) <$> idx),
    ((λ row : list complex, (λ k, row !!! k) <$> idx) <$> v).
  split; [|split; [done|split; [|split]]].
  - unfold diagonalize. fold w v idx.
    destruct (eig h) as [w' v'] eqn:E. simpl in w, v. subst w v. fold idx.
    rewrite (mapM_ok _ (λ row : list complex, (λ k, row !!! k) <$> idx)).
    + simpl. rewrite take_indices_ok; [done|].
      by rewrite length_fmap.
    + eapply Forall_impl; [done|]. simpl. intros row Hrow.
      apply take_indices_ok. by rewrite Hrow.
  - rewrite Hperm. rewrite <- (length_fmap re w).
    by rewrite <- list_as_seq.
  - by rewrite length_fmap.
  - intros i k Hik.
    assert (k < length w)%nat as Hk.
    { rewrite Forall_forall in Hidx. apply Hidx.
      by eapply list_elem_of_lookup_2. }
    split.
    + rewrite list_lookup_fmap, Hik. simpl.
      rewrite <- list_lookup_fmap. symmetry.
      apply list_lookup_lookup_total_lt. by rewrite length_fmap.
    + intros r row Hr. eexists.
      split; [by rewrite list_lookup_fmap, Hr|].
      rewrite list_lookup_fmap, Hik. simpl. symmetry.
      apply list_lookup_lookup_total_lt.
      rewrite Forall_forall in Hrows.
      rewrite (Hrows row); [done|]. by eapply list_elem_of_lookup_2.
Qed.

Lemma diagonalize_sorted_paired_witness :
  let w := [Complex (Q2Qc 3) 0%Qc; Complex (Q2Qc 1) (Q2Qc 1);
            Complex (Q2Qc 2) 0%Qc] in
  let c (n : Z) := Complex (Q2Qc (inject_Z n)) 0%Qc in
  let v := [[c 1; c 2; c 3]; [c 4; c 5; c 6]; [c 7; c 8; c 9]] in
  let eig := λ _ : unit, (w, v) in
  Forall (λ row, length row = length w) v ∧
  insertion_argsort (re <$> w) ≡ₚ seq 0 (length w) ∧
  StronglySorted Qcle
    ((λ k, (re <$> w) !!! k) <$> insertion_argsort (re <$> w)) ∧
  ∃ eigenvectors,
    diagonalize eig insertion_argsort ()
      = Ok ([Q2Qc 1; Q2Qc 2; Q2Qc 3], eigenvectors) ∧
    eigenvectors !! 0%nat = Some [c 2; c 3; c 1].
Proof.
  intros w c v eig.
  assert (Forall (λ row, length row = length w) v) as Hrows
    by (repeat constructor).
  assert (insertion_argsort (re <$> w) ≡ₚ seq 0 (length w)) as Hperm
    by by apply (bool_decide_unpack _).
  assert (StronglySorted Qcle
            ((λ k, (re <$> w) !!! k) <$> insertion_argsort (re <$> w)))
    as Hsorted by by apply (bool_decide_unpack _).
  split; [done|]. split; [done|]. split; [done|].
  destruct (diagonalize_sorted_paired eig insertion_argsort () Hrows Hperm
              Hsorted) as (vals & vecs & Hrun & _).
  assert (diagonalize eig insertion_argsort ()
            = Ok ([Q2Qc 1; Q2Qc 2; Q2Qc 3],
                  [[c 2; c 3; c 1]; [c 5; c 6; c 4]; [c 8; c 9; c 7]]))
    as Hval by reflexivity.
  rewrite Hval in Hrun. injection Hrun as <- <-.
  eexists. split; [apply Hval|done].
Defined.

(** ** The thermalisation diagnostic *)

Lemma efloat_le_trans a b c : efloat_le a b → efloat_le b c → efloat_le a c.
Proof.
  destruct a, b, c; simpl; try done. apply Qcle_trans.
Qed.

Lemma efloat_le_total a b : efloat_le a b ∨ efloat_le b a.
Proof.
  destruct a as [|x], b as [|y]; simpl; try tauto.
  destruct (Qclt_le_dec x y); [left; by apply Qclt_le_weak|by right].
Qed.

Lemma efloat_le_NegInf a : efloat_le a NegInf → a = NegInf.
Proof. by destruct a. Qed.

Lemma complex_le_trans a b c : complex_le a b → complex_le b c → complex_le a c.
Proof.
  unfold complex_le. intros [H1|[H1 H1']] [H2|[H2 H2']].
  - left. by eapply Qclt_trans.
  - left. by rewrite <- H2.
  - left. by rewrite H1.
  - right. split; [congruence|by eapply Qcle_trans].
Qed.

Lemma complex_le_total a b : complex_le a b ∨ complex_le b a.
Proof.
  unfold complex_le. destruct (Qc_dec (re a) (re b)) as [[Hlt|Hlt]|Heq].
  - left. by left.
  - right. by left.
  - destruct (Qclt_le_dec (im a) (im b)) as [Him|Him].
    + left. right. split; [done|by apply Qclt_le_weak].
    + right. by right.
Qed.

Lemma ecomplex_le_trans a b c :
  ecomplex_le a b → ecomplex_le b c → ecomplex_le a c.
Proof.
  destruct a, b, c; simpl; try done. apply complex_le_trans.
Qed.

Lemma ecomplex_le_total a b : ecomplex_le a b ∨ ecomplex_le b a.
Proof.
  destruct a as [|x], b as [|y]; simpl; try tauto. apply complex_le_total.
Qed.

Lemma ecomplex_le_CNegInf a : ecomplex_le a CNegInf → a = CNegInf.
Proof. by destruct a. Qed.

(** Arrays of floats and arrays of complex numbers hold negative infinity. *)
Global Instance float64_inexact : Inexact efloat :=
  {| neg_inf := NegInf;
     of_float_neg_inf := eq_refl;
     dt_le_trans := efloat_le_trans;
     dt_le_total := efloat_le_total;
     neg_inf_least := efloat_le_NegInf |}.

Global Instance complex128_inexact : Inexact ecomplex :=
  {| neg_inf := CNegInf;
     of_float_neg_inf := eq_refl;
     dt_le_trans := ecomplex_le_trans;
     dt_le_total := ecomplex_le_total;
     neg_inf_least := ecomplex_le_CNegInf |}.

Section Maximum.
Context `{Inexact E}.

Lemma dt_le_refl (a : E) : dt_le a a.
Proof. by destruct (dt_le_total a a). Qed.

Lemma fmax_ub_l (a b : E) : dt_le a (fmax a b).
Proof. unfold fmax. destruct (decide _); [done|apply dt_le_refl]. Qed.

Lemma fmax_ub_r (a b : E) : dt_le b (fmax a b).
Proof.
  unfold fmax. destruct (decide _) as [|Hn]; [apply dt_le_refl|].
  by destruct (dt_le_total a b).
Qed.

Lemma fmax_cases (a b : E) : fmax a b = a ∨ fmax a b = b.
Proof. unfold fmax. destruct (decide _); tauto. Qed.

Lemma foldl_fmax (x : E) l :
  foldl fmax x l ∈ x :: l ∧ ∀ y, y ∈ x :: l → dt_le y (foldl fmax x l).
Proof.
  revert x. induction l as [|z l IH]; intros x; simpl.
  - split; [left|]. intros y ->%list_elem_of_singleton.
    apply dt_le_refl.
  - destruct (IH (fmax x z)) as [Hin Hub]. split.
    + apply elem_of_cons in Hin as [->|Hin].
      * destruct (fmax_cases x z) as [-> | ->]; [left|right; left].
      * right. by right.
    + intros y Hy.
      assert (dt_le (fmax x z) (foldl fmax (fmax x z) l)) as Hm
        by (apply Hub; left).
      apply elem_of_cons in Hy as [->|Hy].
      * eapply dt_le_trans; [apply fmax_ub_l|done].
      * apply elem_of_cons in Hy as [->|Hy].
        -- eapply dt_le_trans; [apply fmax_ub_r|done].
        -- apply Hub. by right.
Qed.

Lemma array_max_spec (a : list E) :
  a ≠ [] →
  ∃ m, array_max a = Ok m ∧ m ∈ a ∧ ∀ y, y ∈ a → dt_le y m.
Proof.
  destruct a as [|x a]; [done|]. intros _. eexists. split; [done|].
  apply foldl_fmax.
Qed.
End Maximum.

Lemma elem_of_diagonal {A} (m : list (list A)) x :
  x ∈ diagonal m ↔ ∃ p, cell m p p = Some x.
Proof.
  unfold diagonal. rewrite list_elem_of_omap. split.
  - intros (p & _ & Hp). by exists p.
  - intros (p & Hp). exists p. split; [|done].
    apply elem_of_seq. unfold cell in Hp.
    destruct (m !! p) eqn:E; [|done].
    apply lookup_lt_Some in E. lia.
Qed.

Lemma elem_of_entries {A} (m : list (list A)) x :
  x ∈ mjoin m ↔ ∃ p q, cell m p q = Some x.
Proof.
  rewrite list_elem_of_join. unfold cell. split.
  - intros (row & [q Hq]%list_elem_of_lookup & [p Hp]%list_elem_of_lookup).
    exists p, q. by rewrite Hp.
  - intros (p & q & Hpq). destruct (m !! p) as [row|] eqn:E; [|done].
    exists row. split; by eapply list_elem_of_lookup_2.
Qed.

Lemma cell_fill_diagonal {A} (m : list (list A)) (v : A) p q :
  cell (imap (λ i row, <[i := v]> row) m) p q =
    if decide (p = q) then (λ _, v) <$> cell m p q else cell m p q.
Proof.
  unfold cell. rewrite list_lookup_imap.
  destruct (m !! p) as [row|]; simpl; [|by destruct (decide _)].
  rewrite list_lookup_insert.
  destruct (decide (p = q)) as [->|Hne].
  - destruct (row !! q) eqn:E.
    + apply lookup_lt_Some in E. by rewrite decide_True.
    + apply lookup_ge_None in E. by rewrite decide_False by lia.
  - rewrite decide_False; [done|]. by intros [? _].
Qed.

Lemma run_bind {E A B} (m : prog E A) (f : A → prog E B) σ :
  run (m ≫= f) σ =
    match run m σ with
    | (Ok a, σ') => run (f a) σ'
    | (Raise e, σ') => (Raise e, σ')
    end.
Proof. done. Qed.

Lemma run_load {E} r (σ : heap E) m :
  σ !! r = Some m → run (load r) σ = (Ok m, σ).
Proof. intros Hr. unfold load. simpl. by rewrite Hr. Qed.

Lemma run_np_copy {E} r (σ : heap E) m :
  σ !! r = Some m → run (np_copy r) σ = (Ok (length σ), σ ++ [m]).
Proof.
  intros Hr. unfold np_copy. by rewrite run_bind, (run_load _ _ _ Hr).
Qed.

Lemma run_np_fill_diagonal `{Dtype E} r val (v : E) (σ : heap E) m :
  σ !! r = Some m → of_float val = Ok v →
  run (np_fill_diagonal r val) σ =
    (Ok (), <[r := imap (λ i row, <[i := v]> row) m]> σ).
Proof.
  intros Hr Hv. unfold np_fill_diagonal.
  rewrite run_bind, (run_load _ _ _ Hr), run_bind.
  simpl (run (lift _) _). by rewrite Hv.
Qed.

(** C9 (amended): for a square matrix of floats or of complex numbers with
    at least one row, stored in the heap, [naive_thermal] returns the largest
    diagonal entry and the largest off-diagonal entry in the order of the
    element type (complex numbers by real part, then by imaginary part), the
    latter being negative infinity when the matrix has no off-diagonal
    entry; they are found on a copy whose diagonal is set to negative
    infinity, and every array that was in the heap, the caller's matrix
    among them, is the same afterwards. *)
Theorem naive_thermal_frame `{Inexact E} (σ : heap E) rho m n :
  σ !! rho = Some m → shape n m → (1 ≤ n)%nat →
  ∃ max_diag max_offdiag σ',
    run (naive_thermal rho) σ = (Ok (max_diag, max_offdiag), σ') ∧
    σ' !! rho = Some m ∧
    (∀ r a, σ !! r = Some a → σ' !! r = Some a) ∧
    (∃ p, cell m p p = Some max_diag) ∧
    (∀ p x, cell m p p = Some x → dt_le x max_diag) ∧
    (∀ p q x, p ≠ q → cell m p q = Some x → dt_le x max_offdiag) ∧
    ((∃ p q, p ≠ q ∧ cell m p q = Some max_offdiag)
     ∨ (n = 1%nat ∧ max_offdiag = neg_inf)).
Proof.
  intros Hrho Hshape Hn.
  set (filled := imap (λ i row, <[i := neg_inf]> row) m).
  assert (is_Some (cell m 0 0)) as [x00 H00]
    by (apply (cell_is_Some n); [done|lia..]).
  destruct (array_max_spec (diagonal m)) as (max_diag & Hd & Hdin & Hdub).
  { intros Hnil. assert (x00 ∈ diagonal m) as Hin
      by (apply elem_of_diagonal; eauto).
    rewrite Hnil in Hin. by apply elem_of_nil in Hin. }
  destruct (array_max_spec (mjoin filled)) as (max_off & Ho & Hoin & Houb).
  { intros Hnil. assert (neg_inf ∈ mjoin filled) as Hin.
    { apply elem_of_entries. exists 0%nat, 0%nat. unfold filled.
      rewrite cell_fill_diagonal, decide_True by done. by rewrite H00. }
    rewrite Hnil in Hin. by apply elem_of_nil in Hin. }
  exists max_diag, max_off, (σ ++ [filled]).
  assert (rho < length σ)%nat as Hlt by by eapply lookup_lt_Some.
  split; [|split; [|split; [|split; [|split; [|split]]]]].
  - unfold naive_thermal.
    rewrite run_bind, (run_load _ _ _ Hrho).
    rewrite run_bind. simpl (run (lift _) _). rewrite Hd.
    rewrite run_bind, (run_np_copy _ _ _ Hrho).
    rewrite run_bind, (run_np_fill_diagonal _ _ neg_inf (σ ++ [m]) m);
      [|by apply list_lookup_middle|apply of_float_neg_inf].
    replace (<[length σ := imap (λ i row, <[i := neg_inf]> row) m]> (σ ++ [m]))
      with (σ ++ [filled]).
    2:{ rewrite insert_app_r_alt, Nat.sub_diag by done. done. }
    rewrite run_bind, (run_load _ (σ ++ [filled]) filled)
      by by apply list_lookup_middle.
    rewrite run_bind. simpl (run (lift _) _). rewrite Ho. done.
  - by rewrite lookup_app_l.
  - intros r a Hr. rewrite lookup_app_l; [done|]. by eapply lookup_lt_Some.
  - by apply elem_of_diagonal.
  - intros p x Hp. apply Hdub, elem_of_diagonal. eauto.
  - intros p q x Hne Hpq. apply Houb, elem_of_entries. exists p, q.
    unfold filled. by rewrite cell_fill_diagonal, decide_False.
  - apply elem_of_entries in Hoin as (p & q & Hpq). unfold filled in Hpq.
    rewrite cell_fill_diagonal in Hpq.
    destruct (decide (p = q)) as [->|Hne]; [|left; eauto].
    assert (max_off = neg_inf) as ->.
    { destruct (cell m q q); simpl in Hpq; congruence. }
    destruct (decide (n = 1%nat)) as [->|Hn1]; [by right|left].
    destruct (cell_is_Some n m 0 1 Hshape) as [x01 H01]; [lia..|].
    exists 0%nat, 1%nat. split; [done|]. rewrite H01. f_equal.
    apply neg_inf_least, Houb, elem_of_entries. exists 0%nat, 1%nat.
    unfold filled. by rewrite cell_fill_diagonal, decide_False.
Qed.

Lemma naive_thermal_frame_witness :
  let c := λ x y : Z, CFinite (Complex (Q2Qc (x # 4)) (Q2Qc (y # 4))) in
  let m := [[c 2 0; c 1 1]; [c 1 (-1); c 3 0]] in
  let m' := [[Finite (Q2Qc 5); Finite (Q2Qc 9)];
             [Finite (Q2Qc 7); Finite (Q2Qc 2)]] in
  ([m] !! 0%nat = Some m ∧ shape 2 m ∧ (1 ≤ 2)%nat ∧
   ∃ σ', run (naive_thermal 0) [m] = (Ok (c 3 0, c 1 1), σ') ∧
         σ' !! 0%nat = Some m) ∧
  ([m'] !! 0%nat = Some m' ∧ shape 2 m' ∧ (1 ≤ 2)%nat ∧
   ∃ σ', run (naive_thermal 0) [m']
           = (Ok (Finite (Q2Qc 5), Finite (Q2Qc 9)), σ') ∧
         σ' !! 0%nat = Some m').
Proof.
  intros c m m'.
  assert (shape 2 m) as Hshape by (split; [done|by repeat constructor]).
  assert (shape 2 m') as Hshape' by (split; [done|by repeat constructor]).
  split.
  - split; [done|]. split; [done|]. split; [lia|].
    destruct (naive_thermal_frame [m] 0 m 2) as
      (max_diag & max_off & σ' & Hrun & Hframe & _); [done|done|lia|].
    assert (fst (run (naive_thermal 0) [m]) = Ok (c 3 0, c 1 1)) as Hval
      by reflexivity.
    rewrite Hrun in Hval. simpl in Hval. rewrite Hval in Hrun.
    by exists σ'.
  - split; [done|]. split; [done|]. split; [lia|].
    destruct (naive_thermal_frame [m'] 0 m' 2) as
      (max_diag & max_off & σ' & Hrun & Hframe & _); [done|done|lia|].
    assert (fst (run (naive_thermal 0) [m'])
              = Ok (Finite (Q2Qc 5), Finite (Q2Qc 9))) as Hval by reflexivity.
    rewrite Hrun in Hval. simpl in Hval. rewrite Hval in Hrun.
    by exists σ'.
Defined.

(** C9 as stated fails.  On a square matrix of integers no integer stands
    for the negative infinity that [np.fill_diagonal] is to write: the call
    ends in an [OverflowError] and returns nothing (the copy was made, the
    caller's matrix is as it was).  On the square matrix without entries,
    here of complex numbers, the first [max()] raises [ValueError]. *)
Lemma naive_thermal_raises :
  let m : list (list Z) := [[1; 2]; [3; 4]] in
  run (naive_thermal 0) [m] = (Raise OverflowError, [m; m]) ∧
  run (naive_thermal 0) ([[]] : heap ecomplex) = (Raise ValueError, [[]]).
Proof. split; reflexivity. Qed.

(** ** When the rows of the relabel table are pairwise distinct

    [relabel] relies on the order of the state space: when the A-sites come
    first in the lattice the states of a class are grouped by A-pattern, each
    group holding one state per B-pattern, and no two states get the same
    row. *)

Lemma filter_none {A} (P : A → Prop) `{∀ x, Decision (P x)} (l : list A) :
  Forall (λ x, ¬ P x) l → filter P l = [].
Proof.
  induction 1 as [|x l Hx Hl IH]; [done|].
  by rewrite filter_cons_False.
Qed.

Lemma pattern_app lat_a c b :
  Forall (λ x, x ∈ lat_a) c → Forall (λ x, x ∉ lat_a) b →
  pattern lat_a (c ++ b) = c.
Proof.
  intros Hc Hb. unfold pattern.
  rewrite filter_app, filter_all, filter_none, app_nil_r; done.
Qed.

Lemma fmap_bind {A B C} (f : A → B) (g : B → list C) (l : list A) :
  (f <$> l) ≫= g = l ≫= (λ x, g (f x)).
Proof.
  induction l as [|x l IH]; [done|].
  by rewrite fmap_cons, !bind_cons, IH.
Qed.

Lemma bind_fmap {A B C} (f : B → C) (g : A → list B) (l : list A) :
  f <$> (l ≫= g) = l ≫= (λ x, f <$> g x).
Proof.
  induction l as [|x l IH]; [done|].
  by rewrite !bind_cons, fmap_app, IH.
Qed.

Lemma combinations_0 {A} (l : list A) : combinations l 0 = [[]].
Proof. by destruct l. Qed.

(** The states of a class, in the order of the state space. *)
Lemma class_combinations lat_a la lb k n :
  Forall (λ x, x ∈ lat_a) la → Forall (λ x, x ∉ lat_a) lb → (n ≤ k)%nat →
  filter (λ st, length (pattern lat_a st) = n) (combinations (la ++ lb) k)
  = c ← combinations la n; (λ b, c ++ b) <$> combinations lb (k - n).
Proof.
  intros Hla Hlb. revert k n.
  induction Hla as [|a la Ha Hla IH]; intros k n Hn.
  - simpl app.
    assert (∀ st, st ∈ combinations lb k → pattern lat_a st = []) as Hpat.
    { intros st [Hs _]%elem_of_combinations. apply filter_none.
      rewrite Forall_forall in *. intros x Hx. apply Hlb.
      by eapply elem_of_sublist. }
    destruct n as [|n].
    + rewrite Nat.sub_0_r, filter_all.
      * simpl. rewrite app_nil_r. by rewrite list_fmap_id.
      * apply Forall_forall. intros st Hst. by rewrite Hpat.
    + rewrite filter_none.
      * by destruct k.
      * apply Forall_forall. intros st Hst. by rewrite Hpat.
  - destruct k as [|k].
    + assert (n = 0)%nat as -> by lia. by rewrite !combinations_0.
    + change (combinations ((a :: la) ++ lb) (S k))
        with ((cons a <$> combinations (la ++ lb) k)
              ++ combinations (la ++ lb) (S k)).
      rewrite filter_app, filter_fmap, (IH (S k) n) by lia.
      assert (∀ st, length (pattern lat_a (a :: st))
                    = S (length (pattern lat_a st))) as Hcons.
      { intros st. unfold pattern. by rewrite filter_cons_True. }
      destruct n as [|n].
      * rewrite filter_none; [by rewrite !combinations_0|].
        apply Forall_forall. intros st _. by rewrite Hcons.
      * rewrite (list_filter_iff _ (λ st, length (pattern lat_a st) = n))
          by (intros st; rewrite Hcons; lia).
        rewrite (IH k n) by lia.
        change (combinations (a :: la) (S n))
          with ((cons a <$> combinations la n) ++ combinations la (S n)).
        rewrite bind_app, fmap_bind, bind_fmap. f_equal.
        apply list_bind_ext; [|done]. intros c.
        rewrite <- list_fmap_compose. done.
Qed.

(** Looking up in a list made of blocks of the same length. *)
Lemma lookup_blocks {A B C} (f : A → B → C) (cs : list A) (bs : list B) p x :
  (cs ≫= λ c, f c <$> bs) !! p = Some x →
  ∃ g o c b, (p = g * length bs + o)%nat ∧ (o < length bs)%nat ∧
             cs !! g = Some c ∧ bs !! o = Some b ∧ x = f c b.
Proof.
  revert p. induction cs as [|c cs IH]; intros p Hp; [done|].
  rewrite bind_cons in Hp. apply lookup_app_Some in Hp as [Hp|[Hge Hp]].
  - apply list_lookup_fmap_Some in Hp as (b & -> & Hb).
    exists 0%nat, p, c, b. apply lookup_lt_Some in Hb as Hlt.
    split; [lia|]. done.
  - rewrite length_fmap in Hge, Hp.
    destruct (IH _ Hp) as (g & o & c' & b & Heq & Ho & Hc & Hb & ->).
    exists (S g), o, c', b. split; [lia|]. done.
Qed.

Lemma filter_lookup_position {A} (P : A → Prop) `{∀ x, Decision (P x)}
    (l : list A) i x :
  l !! i = Some x → P x →
  filter P l !! length (filter P (take i l)) = Some x.
Proof.
  intros Hi Hx.
  transitivity (filter P (take i l ++ x :: drop (S i) l)
                  !! length (filter P (take i l))).
  { by rewrite take_drop_middle. }
  rewrite filter_app, filter_cons_True by done.
  by apply list_lookup_middle.
Qed.

Lemma filter_take_mono {A} (P : A → Prop) `{∀ x, Decision (P x)}
    (l : list A) i i' :
  (i ≤ i')%nat →
  (length (filter P (take i l)) ≤ length (filter P (take i' l)))%nat.
Proof.
  intros Hle. rewrite <- (take_drop i (take i' l)).
  rewrite take_take, Nat.min_l, filter_app, length_app by done. lia.
Qed.

Lemma filter_take_lt {A} (P : A → Prop) `{∀ x, Decision (P x)}
    (l : list A) i i' x :
  l !! i = Some x → P x → (i < i')%nat →
  (length (filter P (take i l)) < length (filter P (take i' l)))%nat.
Proof.
  intros Hi Hx Hlt.
  pose proof (filter_take_mono P l (S i) i' ltac:(lia)) as Hmono.
  rewrite (take_S_r l i x Hi), filter_app, length_app in Hmono.
  rewrite (filter_cons_True P x []) in Hmono by done. simpl in Hmono. lia.
Qed.

Lemma mod_block g B o :
  (o < B)%nat → Z.of_nat (g * B + o) mod Z.of_nat B = Z.of_nat o.
Proof.
  intros Ho. rewrite Nat2Z.inj_add, Nat2Z.inj_mul, Z.add_comm.
  rewrite Z_mod_plus_full. apply Z.mod_small. lia.
Qed.

Section AFirst.
Variables (lat_a la lb : list Z) (nop : nat).
Hypothesis Hla : Forall (λ x, x ∈ lat_a) la.
Hypothesis Hlb : Forall (λ x, x ∉ lat_a) lb.
Hypothesis Hnd : NoDup la.

(** A state of the space is an A-part followed by a B-part. *)
Lemma state_parts st :
  st ∈ combinations (la ++ lb) nop →
  ∃ c b, st = c ++ b ∧ pattern lat_a st = c ∧
         c `sublist_of` la ∧ b `sublist_of` lb ∧
         (length c + length b = nop)%nat.
Proof.
  intros [Hs Hlen]%elem_of_combinations.
  apply sublist_app_r in Hs as (c & b & -> & Hc & Hb).
  exists c, b. split; [done|]. split; [|split; [done|split; [done|]]].
  - apply pattern_app.
    + rewrite Forall_forall in *. intros x Hx. apply Hla.
      by eapply elem_of_sublist.
    + rewrite Forall_forall in *. intros x Hx. apply Hlb.
      by eapply elem_of_sublist.
  - by rewrite length_app in Hlen.
Qed.

Lemma states_fit :
  Forall (fits lat_a nop (length lb)) (combinations (la ++ lb) nop).
Proof.
  apply Forall_forall. intros st Hst.
  destruct (state_parts st Hst) as (c & b & -> & Hpat & Hc & Hb & Hlen).
  unfold fits. rewrite Hpat. apply sublist_length in Hb. lia.
Qed.

(** Two states at different places of the space get different rows. *)
Lemma rows_differ i j sti stj :
  (i < j)%nat →
  combinations (la ++ lb) nop !! i = Some sti →
  combinations (la ++ lb) nop !! j = Some stj →
  label_of lat_a nop (length lb) (take i (combinations (la ++ lb) nop)) sti
  ≠ label_of lat_a nop (length lb) (take j (combinations (la ++ lb) nop)) stj.
Proof.
  set (e := combinations (la ++ lb) nop).
  intros Hij Hi Hj Heq. unfold label_of in Heq.
  rewrite <- (take_S_r _ _ _ Hi), <- (take_S_r _ _ _ Hj) in Heq.
  injection Heq as Ha Hn Hb.
  apply Nat2Z.inj in Hn, Ha. rewrite <- Hn in Ha, Hb.
  set (n := length (pattern lat_a sti)) in *.
  set (P := λ st : list Z, length (pattern lat_a st) = n).
  assert (fits lat_a nop (length lb) sti) as [Hn1 Hn2].
  { pose proof states_fit as Hf. rewrite Forall_forall in Hf.
    apply Hf. by eapply list_elem_of_lookup_2. }
  fold n in Hn1, Hn2.
  set (C := combinations la n).
  set (Bs := combinations lb (nop - n)).
  assert (filter P e = c ← C; (λ b, c ++ b) <$> Bs) as HG
    by by apply class_combinations.
  assert (binom (length lb) (nop - n) = Z.of_nat (length Bs)) as HB
    by (symmetry; apply length_combinations).
  rewrite HB in Hb. unfold class_count in Hb. fold P in Hb.
  (* the places of the two states in their class *)
  pose proof (filter_lookup_position P e i sti Hi eq_refl) as Hpi.
  pose proof (filter_lookup_position P e j stj Hj (eq_sym Hn)) as Hpj.
  pose proof (filter_take_lt P e i j sti Hi eq_refl Hij) as Hlt.
  rewrite HG in Hpi, Hpj.
  apply lookup_blocks in Hpi as (gi & oi & ci & bi & Hpi & Hoi & Hci & _ & _).
  apply lookup_blocks in Hpj as (gj & oj & cj & bj & Hpj & Hoj & Hcj & Hbj & ->).
  rewrite Hpi, Hpj in Hb. rewrite !mod_block in Hb by done.
  assert (oi = oj) as <- by lia.
  assert (gi < gj)%nat as Hg by nia.
  (* the pattern of the later state is new *)
  assert (pattern lat_a (cj ++ bj) = cj) as Hpat.
  { apply pattern_app.
    - apply list_elem_of_lookup_2, elem_of_combinations in Hcj as [Hs _].
      rewrite Forall_forall in *. intros x Hx. apply Hla.
      by eapply elem_of_sublist.
    - apply list_elem_of_lookup_2, elem_of_combinations in Hbj as [Hs _].
      rewrite Forall_forall in *. intros x Hx. apply Hlb.
      by eapply elem_of_sublist. }
  assert (length cj = n) as Hlen by (by rewrite <- Hpat).
  destruct (patterns_app_prefix lat_a (take (S i) e)
              (drop (S i) (take (S j) e))) as [extra Hextra].
  assert (take (S i) e ++ drop (S i) (take (S j) e) = take (S j) e) as Htd.
  { rewrite <- (take_drop (S i) (take (S j) e)) at 2.
    by rewrite take_take, Nat.min_l by lia. }
  rewrite Htd in Hextra. rewrite Hextra, count_size_app in Ha.
  assert (cj ∈ patterns lat_a (take (S j) e)) as Hin.
  { apply elem_of_patterns. exists (cj ++ bj). split; [|done].
    apply elem_of_take. exists j. split; [done|lia]. }
  rewrite Hextra in Hin. apply elem_of_app in Hin as [Hin|Hin].
  - apply elem_of_patterns in Hin as (st' & Hst' & Hpat').
    apply elem_of_take in Hst' as (i' & Hi' & Hle).
    assert (P st') as HP by (unfold P; by rewrite <- Hpat').
    pose proof (filter_lookup_position P e i' st' Hi' HP) as Hp'.
    pose proof (filter_take_mono P e i' i ltac:(lia)) as Hmono.
    rewrite HG in Hp'.
    apply lookup_blocks in Hp'
      as (g' & o' & c' & b' & Hp' & Ho' & Hc' & Hb' & ->).
    assert (pattern lat_a (c' ++ b') = c') as Hpat''.
    { apply pattern_app.
      - apply list_elem_of_lookup_2, elem_of_combinations in Hc' as [Hs _].
        rewrite Forall_forall in *. intros x Hx. apply Hla.
        by eapply elem_of_sublist.
      - apply list_elem_of_lookup_2, elem_of_combinations in Hb' as [Hs _].
        rewrite Forall_forall in *. intros x Hx. apply Hlb.
        by eapply elem_of_sublist. }
    rewrite Hpat'' in Hpat'. subst c'.
    assert (g' = gj) as ->.
    { eapply NoDup_lookup; [|done..]. by apply NoDup_combinations. }
    nia.
  - pose proof (count_size_pos n extra cj Hin Hlen). lia.
Qed.

Lemma relabel_rows_distinct :
  Z.of_nat (length (combinations (la ++ lb) nop)) < 2 ^ 31 →
  ∃ label,
    relabel (combinations (la ++ lb) nop) nop (length lb) lat_a = Ok label ∧
    NoDup label.
Proof.
  intros Hsmall.
  destruct (relabel_ok lat_a nop (length lb) _ Hsmall states_fit)
    as [label Hrun].
  destruct (relabel_table lat_a nop (length lb) _ label Hsmall Hrun)
    as (Hlen & _ & Hrows).
  exists label. split; [done|]. apply NoDup_alt. intros i j row Hi Hj.
  destruct (lookup_lt_is_Some_2 (combinations (la ++ lb) nop) i)
    as [sti Hsti]; [apply lookup_lt_Some in Hi; lia|].
  destruct (lookup_lt_is_Some_2 (combinations (la ++ lb) nop) j)
    as [stj Hstj]; [apply lookup_lt_Some in Hj; lia|].
  rewrite (Hrows i sti Hsti) in Hi. rewrite (Hrows j stj Hstj) in Hj.
  injection Hi as Hi. injection Hj as Hj.
  destruct (Nat.lt_trichotomy i j) as [Hlt|[->|Hlt]]; [|done|].
  - destruct (rows_differ i j sti stj Hlt Hsti Hstj). congruence.
  - destruct (rows_differ j i stj sti Hlt Hstj Hsti). congruence.
Qed.
End AFirst.

(** ** The reduced density matrices *)

(** C6 (amended): for a table [relabel] produced from strictly increasing
    states and a duplicate-free A, and any coefficient vector over the state
    space, each of the two accumulation loops returns when [nop] is at most
    the size of its own sub-lattice, and raises [ValueError] otherwise; the
    matrix it returns is square of dimension
    C(size, 0) + ... + C(size, nop) and Hermitian (in exact arithmetic);
    when moreover the rows of the table are pairwise distinct and the vector
    has unit norm, the real trace is 1 and the function returns the matrix
    without a diagnostic.  The rows are pairwise distinct for the complete
    state space of a lattice whose A-sites come before its other sites. *)
Theorem reduced_density_matrices e_states nop nol_b lat_a label e_vec :
  Z.of_nat (length e_states) < 2 ^ 31 →
  Forall (StronglySorted Z.lt) e_states → NoDup lat_a →
  relabel e_states nop nol_b lat_a = Ok label →
  length e_vec = length label →
  ((nop ≤ length lat_a)%nat →
   ∃ rho_a,
     density_loop_a label e_vec (length label) (length lat_a) nop = Ok rho_a ∧
     shape (Z.to_nat (sum_binom (length lat_a) (nop + 1))) rho_a ∧
     hermitian rho_a ∧
     (NoDup label → norm2 e_vec = 1%Qc →
        trace_real rho_a = 1%Qc ∧
        density_matrix_a label e_vec (length label) (length lat_a) nop
          = Ok (rho_a, []))) ∧
  ((length lat_a < nop)%nat →
   density_matrix_a label e_vec (length label) (length lat_a) nop
     = Raise ValueError) ∧
  ((nop ≤ nol_b)%nat →
   ∃ rho_b,
     rho_loop_b label e_vec (length label) nol_b nop = Ok rho_b ∧
     shape (Z.to_nat (sum_binom nol_b (nop + 1))) rho_b ∧
     hermitian rho_b ∧
     (NoDup label → norm2 e_vec = 1%Qc →
        trace_real rho_b = 1%Qc ∧
        rho_b_pbasis label e_vec (length label) nol_b nop = Ok (rho_b, []))) ∧
  ((nol_b < nop)%nat →
   rho_b_pbasis label e_vec (length label) nol_b nop = Raise ValueError) ∧
  (∀ la lb,
     e_states = combinations (la ++ lb) nop → nol_b = length lb →
     Forall (λ x, x ∈ lat_a) la → Forall (λ x, x ∉ lat_a) lb → NoDup la →
     NoDup label).
Proof.
  intros Hsmall Hsorted Hnd Hrun Hvec.
  destruct (density_indices_in_bounds_aux e_states nop nol_b lat_a label
              Hsmall Hsorted Hnd Hrun) as [Hia Hib].
  replace (Z.of_nat nop + 1) with (Z.of_nat (nop + 1)) in Hia, Hib by lia.
  split; [|split; [|split; [|split]]].
  - intros Hna.
    pose proof (sum_ncr_sum_binom (length lat_a) (nop + 1) ltac:(lia)) as Hda.
    set (dim_a := sum_binom (length lat_a) (nop + 1)) in *.
    assert (∀ row, row ∈ label →
              ∃ p, index_a (length lat_a) row = Ok (Z.of_nat p)
                   ∧ (p < Z.to_nat dim_a)%nat) as Hpa.
    { intros row Hin. destruct (Hia dim_a Hda row Hin) as (m & Hm & Hrange).
      exists (Z.to_nat m). rewrite Z2Nat.id by lia. split; [done|lia]. }
    destruct (accumulate_loops same_a (index_a (length lat_a)) label e_vec
                (Z.to_nat dim_a) Hvec Hpa)
      as (rho_a & Hra & Hsa & Hca & Hta).
    replace (Z.of_nat (nop + 1)) with (Z.of_nat nop + 1) in Hda by lia.
    rewrite <- (density_loop_a_accumulate _ _ _ _ _ _ Hda) in Hra.
    exists rho_a. split; [done|]. split; [done|]. split.
    { eapply accumulate_hermitian; [done|apply same_a_sym|done|done]. }
    intros Hdistinct Hnorm.
    assert (trace_real rho_a = 1%Qc) as Htra.
    { rewrite Hta, <- Hnorm.
      apply (accumulate_trace same_a (index_a (length lat_a)) label e_vec);
        [done|apply same_a_refl|done|].
      intros a b Ha Hb.
      destruct (Hpa a Ha) as (pa & Hpa' & _), (Hpa b Hb) as (pb & Hpb' & _).
      by eapply index_a_inj. }
    split; [done|].
    unfold density_matrix_a. rewrite Hra. simpl. rewrite Htra.
    rewrite decide_False by apply within_tolerance. done.
  - intros Hna. unfold density_matrix_a, density_loop_a.
    replace (Z.of_nat nop + 1) with (Z.of_nat (nop + 1)) by lia.
    by rewrite sum_ncr_beyond by lia.
  - intros Hnb.
    pose proof (sum_ncr_sum_binom nol_b (nop + 1) ltac:(lia)) as Hdb.
    set (dim_b := sum_binom nol_b (nop + 1)) in *.
    assert (∀ row, row ∈ label →
              ∃ p, index_b nol_b nop row = Ok (Z.of_nat p)
                   ∧ (p < Z.to_nat dim_b)%nat) as Hpb.
    { intros row Hin. destruct (Hib dim_b Hdb row Hin) as (m & Hm & Hrange).
      exists (Z.to_nat m). rewrite Z2Nat.id by lia. split; [done|lia]. }
    destruct (accumulate_loops same_b (index_b nol_b nop) label e_vec
                (Z.to_nat dim_b) Hvec Hpb)
      as (rho_b & Hrb & Hsb & Hcb & Htb).
    replace (Z.of_nat (nop + 1)) with (Z.of_nat nop + 1) in Hdb by lia.
    rewrite <- (rho_loop_b_accumulate _ _ _ _ _ _ Hdb) in Hrb.
    exists rho_b. split; [done|]. split; [done|]. split.
    { eapply accumulate_hermitian; [done|apply same_b_sym|done|done]. }
    intros Hdistinct Hnorm.
    assert (trace_real rho_b = 1%Qc) as Htrb.
    { rewrite Htb, <- Hnorm.
      apply (accumulate_trace same_b (index_b nol_b nop) label e_vec);
        [done|apply same_b_refl|done|].
      intros a b Ha Hb.
      destruct (Hpb a Ha) as (pa & Hpa' & _), (Hpb b Hb) as (pb & Hpb' & _).
      by eapply index_b_inj. }
    split; [done|].
    unfold rho_b_pbasis. rewrite Hrb. simpl. rewrite Htrb.
    rewrite decide_False by apply within_tolerance. done.
  - intros Hnb. unfold rho_b_pbasis, rho_loop_b.
    replace (Z.of_nat nop + 1) with (Z.of_nat (nop + 1)) by lia.
    by rewrite sum_ncr_beyond by lia.
  - intros la lb -> -> Hla Hlb Hndla.
    destruct (relabel_rows_distinct lat_a la lb nop Hla Hlb Hndla Hsmall)
      as (label' & Hrun' & Hdistinct).
    rewrite Hrun in Hrun'. by injection Hrun' as <-.
Qed.

Lemma reduced_density_matrices_witness :
  let e_states := [[1; 2]; [1; 3]; [1; 4]; [2; 3]; [2; 4]; [3; 4]] in
  let half := Complex (Q2Qc (1 # 2)) (Q2Qc (1 # 2)) in
  let e_vec := [czero; half; czero; czero; half; czero] in
  Z.of_nat (length e_states) < 2 ^ 31 ∧
  Forall (StronglySorted Z.lt) e_states ∧
  (let label := [LabelRow 1 2 1; LabelRow 1 1 1; LabelRow 1 1 2;
                 LabelRow 2 1 1; LabelRow 2 1 2; LabelRow 1 0 1] in
   NoDup [1; 2] ∧ relabel e_states 2 2 [1; 2] = Ok label ∧
   length e_vec = length label ∧
   ∃ rho_a rho_b,
     density_matrix_a label e_vec 6 2 2 = Ok (rho_a, []) ∧
     shape 4 rho_a ∧ trace_real rho_a = 1%Qc ∧
     rho_b_pbasis label e_vec 6 2 2 = Ok (rho_b, []) ∧
     shape 4 rho_b ∧ trace_real rho_b = 1%Qc) ∧
  (let label := [LabelRow 1 1 1; LabelRow 1 1 2; LabelRow 1 1 3;
                 LabelRow 1 0 1; LabelRow 1 0 2; LabelRow 1 0 3] in
   NoDup [1] ∧ relabel e_states 2 3 [1] = Ok label ∧
   length e_vec = length label ∧
   density_matrix_a label e_vec 6 1 2 = Raise ValueError ∧
   ∃ rho_b,
     rho_b_pbasis label e_vec 6 3 2 = Ok (rho_b, []) ∧
     shape 7 rho_b ∧ trace_real rho_b = 1%Qc).
Proof.
  intros e_states half e_vec.
  assert (Forall (StronglySorted Z.lt) e_states) as Hs
    by (repeat constructor; lia).
  assert (norm2 e_vec = 1%Qc) as Hnorm by by apply Qc_is_canon.
  split; [simpl; lia|]. split; [done|]. split.
  - intros label.
    assert (NoDup [1; 2]) as Hnd by by apply (bool_decide_unpack _).
    assert (NoDup label) as Hndl by by apply (bool_decide_unpack _).
    assert (relabel e_states 2 2 [1; 2] = Ok label) as Hrun by reflexivity.
    split; [done|]. split; [done|]. split; [done|].
    destruct (reduced_density_matrices e_states 2 2 [1; 2] label e_vec)
      as (Ha & _ & Hb & _); [simpl; lia|done|done|done|done|].
    destruct Ha as (rho_a & _ & Hsa & _ & Hta); [simpl; lia|].
    destruct Hb as (rho_b & _ & Hsb & _ & Htb); [lia|].
    destruct (Hta Hndl Hnorm) as [Htra Hreta].
    destruct (Htb Hndl Hnorm) as [Htrb Hretb].
    exists rho_a, rho_b.
    split; [exact Hreta|]. split; [exact Hsa|]. split; [exact Htra|].
    split; [exact Hretb|]. split; [exact Hsb|exact Htrb].
  - intros label.
    assert (NoDup [1]) as Hnd by by apply (bool_decide_unpack _).
    assert (NoDup label) as Hndl by by apply (bool_decide_unpack _).
    assert (relabel e_states 2 3 [1] = Ok label) as Hrun by reflexivity.
    split; [done|]. split; [done|]. split; [done|].
    destruct (reduced_density_matrices e_states 2 3 [1] label e_vec)
      as (_ & Ha & Hb & _); [simpl; lia|done|done|done|done|].
    split; [apply Ha; simpl; lia|].
    destruct Hb as (rho_b & _ & Hsb & _ & Htb); [lia|].
    destruct (Htb Hndl Hnorm) as [Htrb Hretb].
    exists rho_b.
    split; [exact Hretb|]. split; [exact Hsb|exact Htrb].
Defined.

(** C6 as stated fails: on the complete state space of two particles on the
    sites 1..4 with A = {2, 3} and B = {1, 4}, two states get the same row of
    the relabel table, and for a unit vector supported on them the matrix
    [rho_b_pbasis] returns has trace 2. *)
Lemma reduced_density_counterexample :
  let e_states := [[1; 2]; [1; 3]; [1; 4]; [2; 3]; [2; 4]; [3; 4]] in
  let half := Complex (Q2Qc (1 # 2)) (Q2Qc (1 # 2)) in
  let e_vec := [czero; half; czero; czero; czero; half] in
  ∃ label rho d,
    position_states [1; 2; 3; 4] 2 None = Ok (e_states, 6%nat) ∧
    relabel e_states 2 2 [2; 3] = Ok label ∧
    norm2 e_vec = 1%Qc ∧
    rho_b_pbasis label e_vec 6 2 2 = Ok (rho, d) ∧
    ¬ (fabs (trace_real rho - 1) ≤ tolerance)%Qc.
Proof.
  intros e_states half e_vec. eexists _, _, _.
  split; [reflexivity|]. split; [reflexivity|].
  split; [by apply Qc_is_canon|].
  split; [vm_compute; reflexivity|].
  apply Qclt_not_le. by vm_compute.
Qed.

(** ** Further results: combinatorial numbers *)

(** X1: [ncr(n, r)] is the binomial coefficient C(n, r), the number Pascal's
    rule defines, when [0 <= r <= n] (the floor division of the factorials
    is exact), and it raises [ValueError] for every other pair of
    integers; it never divides by zero. *)
Theorem ncr_value_and_errors (n r : Z) :
  ncr n r = if decide (0 ≤ r ≤ n)
            then Ok (binom (Z.to_nat n) (Z.to_nat r))
            else Raise ValueError.
Proof. apply ncr_cases. Qed.

(** X2: [sum_ncr(n, k)] adds C(n, r) for [r] from 0 to [k - 1] (the bound
    [k] itself is not included).  For [k <= 0] it is 0 whatever [n] is; for
    [1 <= k <= n + 1] it is that sum; in every other case ([n] negative, or
    [k] beyond [n + 1]) it raises [ValueError]. *)
Theorem sum_ncr_value_and_errors (n k : Z) :
  sum_ncr n k =
    if decide (k ≤ 0) then Ok 0
    else if decide (0 ≤ n ∧ k ≤ n + 1)
         then Ok (sum_binom (Z.to_nat n) (Z.to_nat k))
         else Raise ValueError.
Proof.
  destruct (decide (k ≤ 0)) as [Hk|Hk].
  { unfold sum_ncr. by replace (Z.to_nat k) with 0%nat by lia. }
  destruct (decide (0 ≤ n ∧ k ≤ n + 1)) as [Hn|Hn].
  { rewrite <- (Z2Nat.id n) at 1 by lia. rewrite <- (Z2Nat.id k) at 1 by lia.
    apply sum_ncr_sum_binom. lia. }
  rewrite <- (Z2Nat.id k) by lia.
  assert (∃ m, Z.to_nat k = S m) as [m Hm]
    by (exists (Z.to_nat k - 1)%nat; lia).
  rewrite Hm.
  assert (n < 0 ∨ (0 ≤ n ∧ (Z.to_nat n + 1 ≤ m)%nat)) as Hcase by lia.
  clear Hm Hn Hk k. induction m as [|m IH].
  - rewrite sum_ncr_snoc. simpl.
    rewrite ncr_cases, decide_False by lia. done.
  - rewrite sum_ncr_snoc.
    destruct (decide (n < 0 ∨ (0 ≤ n ∧ (Z.to_nat n + 1 ≤ m)%nat))) as [H|H].
    + by rewrite IH.
    + rewrite <- (Z2Nat.id n) at 1 by lia.
      rewrite sum_ncr_sum_binom by lia. simpl.
      rewrite ncr_cases, decide_False by lia. done.
Qed.

Lemma sum_binom_pascal n k :
  sum_binom (S n) (S k) = sum_binom n k + sum_binom n (S k).
Proof.
  induction k as [|k IH]; [by destruct n|].
  change (sum_binom (S n) (S (S k)))
    with (sum_binom (S n) (S k) + binom (S n) (S k)).
  rewrite IH. change (binom (S n) (S k)) with (binom n k + binom n (S k)).
  simpl. lia.
Qed.

Lemma sum_binom_full n : sum_binom n (S n) = 2 ^ Z.of_nat n.
Proof.
  induction n as [|n IH]; [done|].
  rewrite sum_binom_pascal, IH.
  change (sum_binom n (S (S n))) with (sum_binom n (S n) + binom n (S n)).
  rewrite IH, binom_gt by lia.
  rewrite Nat2Z.inj_succ, Z.pow_succ_r by lia. lia.
Qed.

(** X3: over all the particle numbers a lattice of [n] sites allows,
    [sum_ncr(n, n + 1)] counts the [2 ^ n] occupation patterns. *)
Theorem sum_ncr_all_patterns (n : nat) :
  sum_ncr (Z.of_nat n) (Z.of_nat n + 1) = Ok (2 ^ Z.of_nat n).
Proof.
  replace (Z.of_nat n + 1) with (Z.of_nat (S n)) by lia.
  rewrite sum_ncr_sum_binom by lia. by rewrite sum_binom_full.
Qed.

(** ** Further results: the shares of the workers *)

(** X4: [distribute] divides by the number of processes, so none at all is
    a [ZeroDivisionError]; otherwise worker [i] starts at row
    [i * (n_items // n_processes)], every worker but the last one gets
    exactly [n_items // n_processes] rows and the last one gets the
    remainder [n_items % n_processes] on top, fewer than [n_processes]
    more; with fewer rows than processes only the last worker gets any. *)
Theorem distribute_shares (n_items n_processes i : nat) :
  distribute n_items 0 i = Raise ZeroDivisionError ∧
  ((1 ≤ n_processes)%nat →
   ∃ start stop,
     distribute n_items n_processes i = Ok (start, stop) ∧
     start = (i * (n_items / n_processes))%nat ∧
     ((i + 1 < n_processes)%nat →
        (stop - start = n_items / n_processes)%nat ∧
        ((n_items < n_processes)%nat → start = stop)) ∧
     ((i + 1 = n_processes)%nat →
        stop = n_items ∧
        (stop - start
         = n_items / n_processes + n_items mod n_processes)%nat ∧
        (n_items mod n_processes < n_processes)%nat ∧
        ((n_items < n_processes)%nat → start = 0%nat))).
Proof.
  split; [done|]. intros Hn. unfold distribute.
  rewrite decide_False by lia.
  set (q := (n_items / n_processes)%nat).
  pose proof (Nat.div_mod_eq n_items n_processes) as Hdm.
  pose proof (Nat.mod_upper_bound n_items n_processes ltac:(lia)) as Hm.
  fold q in Hdm.
  eexists _, _. split; [done|]. split; [done|]. split.
  - intros Hi. rewrite decide_False by lia. split; [lia|].
    intros Hsmall. assert (q = 0)%nat as ->; [|lia].
    by apply Nat.div_small.
  - intros Hi. rewrite decide_True by lia.
    assert (i = n_processes - 1)%nat as -> by lia.
    split; [done|]. split; [nia|]. split; [done|]. intros Hsmall.
    assert (q = 0)%nat as ->; [|lia]. by apply Nat.div_small.
Qed.

Lemma distribute_shares_witness :
  (1 ≤ 4)%nat ∧ (3 + 1 = 4)%nat ∧
  ∃ start stop,
    distribute 10 4 3 = Ok (start, stop) ∧
    start = 6%nat ∧ stop = 10%nat ∧ (stop - start = 4)%nat.
Proof.
  split; [lia|]. split; [lia|].
  destruct (distribute_shares 10 4 3) as [_ H].
  destruct H as (start & stop & Hrun & Hstart & _ & Hlast); [lia|].
  destruct Hlast as (Hstop & Hlen & _); [lia|].
  exists start, stop. split; [done|]. split; [exact Hstart|].
  split; [exact Hstop|exact Hlen].
Defined.

(** ** Further results: deleting sites *)

Lemma mapM_ext_in {A B} (f g : A → result B) (l : list A) :
  Forall (λ x, f x = g x) l → mapM f l = mapM g l.
Proof.
  induction 1 as [|x l Hx Hl IH]; [done|]. simpl. by rewrite Hx, IH.
Qed.

Lemma mapM_fmap {A B C} (f : B → result C) (g : A → B) (l : list A) :
  mapM f (g <$> l) = mapM (f ∘ g) l.
Proof.
  induction l as [|x l IH]; [done|].
  rewrite fmap_cons. change (mapM f (g x :: (g <$> l)))
    with (y ← f (g x); k ← mapM f (g <$> l); mret (y :: k)).
  by rewrite IH.
Qed.

Lemma np_index_cases len i :
  np_index len i =
    if decide (- Z.of_nat len ≤ i < Z.of_nat len)
    then Ok (Z.to_nat (i mod Z.of_nat len))
    else Raise IndexError.
Proof.
  unfold np_index.
  destruct (Z.leb_spec 0 i), (Z.ltb_spec i (Z.of_nat len)); simpl.
  - rewrite decide_True by lia. by rewrite Z.mod_small by lia.
  - destruct (Z.leb_spec (- Z.of_nat len) i), (Z.ltb_spec i 0); simpl;
      try lia. by rewrite decide_False by lia.
  - destruct (Z.leb_spec (- Z.of_nat len) i), (Z.ltb_spec i 0); simpl;
      try lia.
    + rewrite decide_True by lia. do 2 f_equal.
      apply Z.mod_unique with (-1); lia.
    + by rewrite decide_False by lia.
  - lia.
Qed.

Lemma mapM_np_index len (obj : list Z) :
  mapM (np_index len) obj =
    if decide (Forall (λ i, - Z.of_nat len ≤ i < Z.of_nat len) obj)
    then Ok ((λ i, Z.to_nat (i mod Z.of_nat len)) <$> obj)
    else Raise IndexError.
Proof.
  induction obj as [|i obj IH]; [done|].
  simpl. rewrite np_index_cases.
  destruct (decide (- Z.of_nat len ≤ i < Z.of_nat len)) as [Hi|Hi]; simpl.
  - rewrite IH. destruct (decide (Forall _ obj)) as [Ho|Ho]; simpl.
    + by rewrite decide_True by by constructor.
    + rewrite decide_False; [done|]. by inversion 1.
  - rewrite decide_False; [done|]. by inversion 1.
Qed.

(** X5: a deletion position at or below 0 is not refused: it counts from
    the end of the lattice array (position 0 strikes the last site).  For
    positions between [1 - len] and [len], [position_states] returns what
    it returns for the same positions counted from the start. *)
Theorem position_states_from_end lat nop del_pos :
  Forall (λ p, - Z.of_nat (length lat) < p ≤ Z.of_nat (length lat)) del_pos →
  Forall (λ p, 1 ≤ p ≤ Z.of_nat (length lat))
         (from_start (length lat) <$> del_pos) ∧
  position_states lat nop (Some del_pos)
  = position_states lat nop (Some (from_start (length lat) <$> del_pos)).
Proof.
  intros Hpos. split.
  - apply Forall_fmap. eapply Forall_impl; [done|]. simpl. intros p Hp.
    unfold from_start. destruct (decide (p ≤ 0)); lia.
  - unfold position_states, np_delete.
    rewrite <- list_fmap_compose, !mapM_fmap.
    rewrite (mapM_ext_in _ (np_index (length lat) ∘ (λ p, p - 1)
                            ∘ from_start (length lat)) del_pos); [done|].
    eapply Forall_impl; [done|]. simpl. intros p Hp.
    rewrite !np_index_cases. unfold from_start.
    destruct (decide (p ≤ 0)); [|done].
    rewrite !decide_True by lia. do 2 f_equal.
    replace (p + Z.of_nat (length lat) - 1)
      with (p - 1 + 1 * Z.of_nat (length lat)) by lia.
    by rewrite Z.mod_add by lia.
Qed.

Lemma position_states_from_end_witness :
  position_states [1; 2; 3] 2 (Some [0]) = Ok ([[1; 2]], 1%nat).
Proof.
  destruct (position_states_from_end [1; 2; 3] 2 [0]) as [_ ->].
  - repeat constructor; simpl; lia.
  - reflexivity.
Defined.

Lemma np_delete_sublist lat obj lat_del :
  np_delete lat obj = Ok lat_del → lat_del `sublist_of` lat.
Proof.
  unfold np_delete. destruct (mapM _ obj) as [idx|e]; [|done]. simpl.
  intros [= <-].
  transitivity (snd <$> zip (seq 0 (length lat)) lat).
  - apply fmap_sublist, sublist_filter.
  - by rewrite snd_zip by (by rewrite length_seq).
Qed.

(** X6: for a lattice of [int32] labels, which the cast to [int32] leaves
    as they are, the only exception of [position_states] is the
    [IndexError] of [np.delete], raised exactly when some deletion position
    lies outside [1 - len .. len]; otherwise it returns a state space, each
    state made of [nop] labels of the lattice in the order of the lattice,
    together with its length. *)
Theorem position_states_index_error lat nop del_pos :
  Forall int32 lat →
  match position_states lat nop (Some del_pos) with
  | Ok (states, nos) =>
      nos = length states ∧
      Forall (λ st, length st = nop ∧ st `sublist_of` lat) states ∧
      Forall (λ p, - Z.of_nat (length lat) < p ≤ Z.of_nat (length lat))
             del_pos
  | Raise e =>
      e = IndexError ∧
      Exists (λ p, p ≤ - Z.of_nat (length lat) ∨ Z.of_nat (length lat) < p)
             del_pos
  end.
Proof.
  intros Hlat.
  destruct (position_states lat nop (Some del_pos)) as [[states nos]|e]
    eqn:Hrun.
  - unfold position_states in Hrun.
    destruct (np_delete lat _) as [lat_del|] eqn:Hdel; [|done].
    simpl in Hrun. injection Hrun as <- <-.
    pose proof (np_delete_sublist _ _ _ Hdel) as Hsub.
    assert (Forall int32 lat_del) as Hint.
    { rewrite Forall_forall in *. intros x Hx. apply Hlat.
      by eapply elem_of_sublist. }
    rewrite cast_states_id by done.
    split; [done|]. split.
    + apply Forall_forall. intros st [Hs Hlen]%elem_of_combinations.
      split; [done|]. by etrans.
    + unfold np_delete in Hdel. rewrite mapM_np_index in Hdel.
      destruct (decide (Forall _ _)) as [Hin|Hout]; [|done].
      apply Forall_fmap in Hin.
      eapply Forall_impl; [done|]. simpl. lia.
  - unfold position_states, np_delete in Hrun. rewrite mapM_np_index in Hrun.
    destruct (decide (Forall _ _)) as [Hin|Hout]; [done|].
    simpl in Hrun. injection Hrun as <-.
    split; [done|]. apply not_Forall_Exists in Hout; [|apply _].
    apply Exists_exists in Hout as (i & Hi & Hn).
    apply list_elem_of_fmap in Hi as (p & -> & Hp).
    apply Exists_exists. exists p. split; [done|]. simpl in Hn. lia.
Qed.

Lemma position_states_index_error_witness :
  Forall int32 [1; 2; 3] ∧
  position_states [1; 2; 3] 2 (Some [2; 4]) = Raise IndexError ∧
  ∃ states nos,
    position_states [1; 2; 3] 2 (Some [-2]) = Ok (states, nos) ∧
    Forall (λ st, length st = 2%nat ∧ st `sublist_of` [1; 2; 3]) states.
Proof.
  assert (Forall int32 [1; 2; 3]) as Hlat
    by (repeat constructor; unfold int32; lia).
  split; [done|]. split.
  - pose proof (position_states_index_error [1; 2; 3] 2 [2; 4] Hlat) as H.
    destruct (position_states [1; 2; 3] 2 (Some [2; 4])) as [[states nos]|e].
    + destruct H as (_ & _ & H). apply Forall_cons in H as [_ H].
      apply Forall_cons in H as [H _]. simpl in H. lia.
    + by destruct H as [-> _].
  - pose proof (position_states_index_error [1; 2; 3] 2 [-2] Hlat) as H.
    destruct (position_states [1; 2; 3] 2 (Some [-2])) as [[states nos]|e].
    + destruct H as (_ & H & _). by exists states, nos.
    + destruct H as [_ H]. apply Exists_cons in H as [H|H].
      * simpl in H. lia.
      * by apply Exists_nil in H.
Defined.

(** ** Further results: the state enumeration of [Main.py] *)

Lemma np_delete_nil lat : np_delete lat [] = Ok lat.
Proof.
  unfold np_delete. simpl. f_equal.
  rewrite (filter_all (λ p : nat * Z, p.1 ∉ [])).
  - rewrite snd_zip; [done|]. by rewrite length_seq.
  - apply Forall_forall. intros p _. apply not_elem_of_nil.
Qed.

(** X7: [eigenstates_lattice] of [Main.py] first prints the lattice and
    then returns (or raises) what [position_states] does for the same
    deletion array; an empty deletion array is the case [del_pos=None] of
    [position_states], which an empty integer array gives as well. *)
Theorem eigenstates_lattice_position_states lat nop lat_del_pos :
  (∃ out, (eigenstates_lattice lat nop lat_del_pos).1
          = ("lattice sites="%string, lat) :: out) ∧
  (eigenstates_lattice lat nop lat_del_pos).2
  = position_states lat nop (Some lat_del_pos) ∧
  (eigenstates_lattice lat nop []).2 = position_states lat nop None.
Proof.
  split; [|split].
  - unfold eigenstates_lattice.
    destruct (decide (length lat_del_pos ≠ 0%nat)); [|by eexists].
    destruct (np_delete lat _); by eexists.
  - unfold eigenstates_lattice, position_states.
    destruct (decide (length lat_del_pos ≠ 0%nat)) as [Hne|He].
    + by destruct (np_delete lat _).
    + destruct lat_del_pos; [|by destruct He]. simpl fmap.
      by rewrite np_delete_nil.
  - done.
Qed.

(** ** Further results: one worker of the assembly *)

Lemma elem_of_rows start stop nos j k :
  (j, k) ∈ (j ← range start stop; k ← range 0 nos; [(j, k)])
  ↔ (start ≤ j < stop)%nat ∧ (k < nos)%nat.
Proof.
  unfold range. rewrite Nat.sub_0_r. split.
  - intros (j' & Hin & Hj)%list_elem_of_bind.
    apply list_elem_of_bind in Hin as (k' & Hin & Hk).
    apply list_elem_of_singleton in Hin. simplify_eq.
    apply elem_of_seq in Hj, Hk. lia.
  - intros [Hj Hk]. apply list_elem_of_bind. exists j. split.
    + apply list_elem_of_bind. exists k. split; [by left|].
      apply elem_of_seq. lia.
    + apply elem_of_seq. lia.
Qed.

(** X8: a worker touches the rows of its range and no other: after
    [_hamiltonian(start, stop, ...)] every cell of the rows [start .. stop
    - 1] holds the entry of its pair of states, whatever the array held
    there before, and every other cell is as it was.  A range that reaches
    beyond the state space ends in an [IndexError]. *)
Theorem _hamiltonian_rows pos_states ndims nop start stop ham :
  shape (length pos_states) (cells ham) →
  ((stop ≤ length pos_states)%nat →
   ∃ ham',
     _hamiltonian start stop (length pos_states) ndims nop pos_states ham
       = Ok ham' ∧
     shape (length pos_states) (cells ham') ∧
     ∀ j k, cell (cells ham') j k =
       if decide ((start ≤ j < stop)%nat ∧ (k < length pos_states)%nat)
       then Some (entry_at pos_states ndims nop j k)
       else cell (cells ham) j k) ∧
  ((start < stop)%nat → (1 ≤ length pos_states < stop)%nat →
   _hamiltonian start stop (length pos_states) ndims nop pos_states ham
     = Raise IndexError).
Proof.
  intros Hshape. split.
  - intros Hstop. rewrite _hamiltonian_schedule.
    destruct (run_cells pos_states ndims nop
                (j ← range start stop; k ← range 0 (length pos_states);
                 [(j, k)]) ham Hshape)
      as (ham' & Hrun & Hshape' & _ & Hcells).
    { apply Forall_forall. intros [j k] Hin%elem_of_rows. simpl. lia. }
    exists ham'. split; [done|]. split; [done|].
    intros j k. rewrite Hcells.
    destruct (decide ((start ≤ j < stop)%nat ∧ (k < length pos_states)%nat))
      as [Hin|Hout].
    + rewrite decide_True; [done|]. by apply elem_of_rows.
    + rewrite decide_False; [done|]. by rewrite elem_of_rows.
  - intros Hlt Hnos. rewrite _hamiltonian_schedule.
    set (first := Nat.max start (length pos_states)).
    assert (range start stop
            = range start first ++ first :: range (S first) stop) as ->.
    { unfold range.
      replace (stop - start)%nat
        with ((first - start) + S (stop - S first))%nat by lia.
      rewrite seq_app, <- cons_seq.
      by replace (start + (first - start))%nat with first by lia. }
    rewrite bind_app, for_each_app.
    destruct (run_cells pos_states ndims nop
                (j ← range start first; k ← range 0 (length pos_states);
                 [(j, k)]) ham Hshape)
      as (ham' & -> & _).
    { apply Forall_forall. intros [j k] Hin%elem_of_rows. simpl. lia. }
    cbn [mbind result_bind]. rewrite bind_cons, for_each_app.
    assert (range 0 (length pos_states)
            = 0%nat :: range 1 (length pos_states)) as ->.
    { unfold range. rewrite Nat.sub_0_r.
      destruct (length pos_states) as [|n]; [lia|].
      rewrite <- cons_seq. do 2 f_equal. lia. }
    rewrite bind_cons. rewrite for_each_app.
    assert (ham_body ndims nop pos_states first 0 ham' = Raise IndexError)
      as Hbody.
    { unfold ham_body, index.
      by rewrite (lookup_ge_None_2 pos_states first) by (unfold first; lia). }
    simpl. by rewrite Hbody.
Qed.

Lemma _hamiltonian_rows_witness :
  ∃ ham',
    _hamiltonian 1 2 2 1 1 [[1]; [2]] (SharedArray [[7; 7]; [7; 7]] [])
      = Ok ham' ∧
    cells ham' = [[7; 7]; [1; 0]].
Proof.
  destruct (_hamiltonian_rows [[1]; [2]] 1 1 1 2
              (SharedArray [[7; 7]; [7; 7]] [])) as [H _].
  { split; [done|]. by repeat constructor. }
  destruct H as (ham' & Hrun & _ & _); [simpl; lia|].
  exists ham'. split; [done|].
  vm_compute in Hrun. by injection Hrun as <-.
Defined.

(** ** Further results: the hopping rule on the lattice *)

Lemma grid_adjacent_rule n a b :
  0 < n →
  grid_adjacent n a b ↔
    Z.abs (a - b) = n
    ∨ (b - a = 1 ∧ a mod n ≠ 0)
    ∨ (a - b = 1 ∧ a mod n ≠ 1).
Proof.
  intros Hn. unfold grid_adjacent, grid_row, grid_col.
  pose proof (Z.div_mod (a - 1) n ltac:(lia)) as Ha.
  pose proof (Z.div_mod (b - 1) n ltac:(lia)) as Hb.
  pose proof (Z.mod_pos_bound (a - 1) n Hn) as Hra.
  pose proof (Z.mod_pos_bound (b - 1) n Hn) as Hrb.
  set (qa := (a - 1) / n) in *. set (ra := (a - 1) mod n) in *.
  set (qb := (b - 1) / n) in *. set (rb := (b - 1) mod n) in *.
  assert (a mod n = if decide (ra = n - 1) then 0 else ra + 1) as Hmod.
  { destruct (decide (ra = n - 1)) as [Hr|Hr].
    - symmetry. apply Z.mod_unique with (qa + 1); lia.
    - symmetry. apply Z.mod_unique with qa; lia. }
  rewrite Hmod. clearbody qa ra qb rb.
  assert (a - b = n * (qa - qb) + (ra - rb)) as Hd by lia.
  rewrite Hd. replace (b - a) with (- (n * (qa - qb) + (ra - rb))) by lia.
  clear Ha Hb Hd Hmod a b.
  assert (qa - qb ≤ -2 ∨ qa - qb = -1 ∨ qa - qb = 0 ∨ qa - qb = 1
          ∨ 2 ≤ qa - qb) as Hcases by lia.
  destruct (decide (ra = n - 1));
    destruct Hcases as [H|[H|[H|[H|H]]]]; try rewrite H; nia.
Qed.

Lemma sumZ_common sj sk :
  sumZ sj = sumZ (common sj sk) + sumZ (filter (λ x, x ∉ sk) sj).
Proof.
  rewrite <- sumZ_app. apply sumZ_perm. unfold common.
  by rewrite (filter_app_complement (λ x, x ∈ sk) sj).
Qed.

(** The particle of [sj] that [sk] does not have, when all the others are
    shared. *)
Lemma unshared nop sj sk :
  length sj = nop →
  Z.of_nat (length (common sj sk)) = Z.of_nat nop - 1 →
  ∃ a, filter (λ x, x ∉ sk) sj = [a] ∧
       sumZ sj = sumZ (common sj sk) + a.
Proof.
  intros Hlen Hc.
  pose proof (filter_app_complement (λ x, x ∈ sk) sj) as Hp.
  unfold common in *.
  assert (length (filter (λ x, x ∉ sk) sj) = 1%nat) as H1.
  { apply Permutation_length in Hp. rewrite length_app in Hp. lia. }
  destruct (filter (λ x, x ∉ sk) sj) as [|a [|??]] eqn:Hf; simplify_eq/=.
  exists a. split; [done|].
  rewrite <- (sumZ_perm _ _ Hp), sumZ_app. simpl. lia.
Qed.

Lemma moves_unshared sj sk a b :
  NoDup sj → moves sj sk a b → filter (λ x, x ∉ sk) sj ≡ₚ [a].
Proof.
  intros Hnd (Ha & Hna & Hb & Hnb & Hrest).
  apply NoDup_Permutation; [by apply NoDup_filter|apply NoDup_singleton|].
  intros x. rewrite list_elem_of_filter, list_elem_of_singleton. split.
  - intros [Hx Hin]. destruct (decide (x = a)) as [|Hne]; [done|].
    destruct Hx. apply Hrest; [done| |done]. intros ->. done.
  - intros ->. done.
Qed.

Lemma moves_sym sj sk a b : moves sj sk a b → moves sk sj b a.
Proof.
  intros (Ha & Hna & Hb & Hnb & Hrest). repeat split; try done.
  - intros Hx. by apply Hrest.
  - intros Hx. by apply Hrest.
Qed.

(** The hopping rule is the move of one particle to a nearest
    neighbour. *)
Lemma hop_moves ndims nop sj sk :
  valid_state nop sj → valid_state nop sk → 0 < ndims →
  hop ndims nop sj sk ↔ ∃ a b, moves sj sk a b ∧ grid_adjacent ndims a b.
Proof.
  intros (Hlj & Hsj & _) (Hlk & Hsk & _) Hn.
  pose proof (sorted_lt_NoDup _ Hsj) as Hndj.
  pose proof (sorted_lt_NoDup _ Hsk) as Hndk.
  pose proof (common_perm sj sk Hndj Hndk) as Hperm.
  split.
  - intros [Hc Hrule].
    destruct (unshared nop sj sk Hlj Hc) as (a & Hfa & Hsa).
    assert (Z.of_nat (length (common sk sj)) = Z.of_nat nop - 1) as Hc'
      by by rewrite <- Hperm.
    destruct (unshared nop sk sj Hlk Hc') as (b & Hfb & Hsb).
    rewrite <- (sumZ_perm _ _ Hperm) in Hsb.
    assert (∀ x, x ∈ sj ∧ x ∉ sk ↔ x = a) as Ha.
    { intros x. rewrite <- list_elem_of_singleton, <- Hfa.
      rewrite list_elem_of_filter. tauto. }
    assert (∀ x, x ∈ sk ∧ x ∉ sj ↔ x = b) as Hb.
    { intros x. rewrite <- list_elem_of_singleton, <- Hfb.
      rewrite list_elem_of_filter. tauto. }
    exists a, b. split.
    + destruct (proj2 (Ha a) eq_refl) as [Haj Hak].
      destruct (proj2 (Hb b) eq_refl) as [Hbk Hbj].
      split; [done|]. split; [done|]. split; [done|]. split; [done|].
      intros x Hxa Hxb. split.
      * intros Hx. destruct (decide (x ∈ sk)); [done|].
        destruct Hxa. by apply Ha.
      * intros Hx. destruct (decide (x ∈ sj)); [done|].
        destruct Hxb. by apply Hb.
    + apply grid_adjacent_rule; [done|].
      replace (a - b) with (sumZ sj - sumZ sk) by lia.
      replace (b - a) with (sumZ sk - sumZ sj) by lia.
      replace a with (sumZ sj - sumZ (common sj sk)) by lia.
      done.
  - intros (a & b & Hm & Hadj).
    pose proof (moves_unshared _ _ _ _ Hndj Hm) as Hfa.
    pose proof (moves_unshared _ _ _ _ Hndk (moves_sym _ _ _ _ Hm)) as Hfb.
    pose proof (sumZ_common sj sk) as Hsa.
    pose proof (sumZ_common sk sj) as Hsb.
    rewrite (sumZ_perm _ _ Hfa) in Hsa. rewrite (sumZ_perm _ _ Hfb) in Hsb.
    rewrite <- (sumZ_perm _ _ Hperm) in Hsb. simpl in Hsa, Hsb.
    pose proof (filter_app_complement (λ x, x ∈ sk) sj) as Hp.
    apply Permutation_length in Hp. rewrite length_app in Hp.
    rewrite (Permutation_length Hfa) in Hp. simpl in Hp.
    apply grid_adjacent_rule in Hadj; [|done].
    split.
    + unfold common. lia.
    + replace (sumZ sj - sumZ sk) with (a - b) by lia.
      replace (sumZ sk - sumZ sj) with (b - a) by lia.
      replace (sumZ sj - sumZ (common sj sk)) with a by lia.
      done.
Qed.

(** X9: on valid states and a lattice of positive row length the entry
    [_hamiltonian] stores for a pair of states is 1 exactly when the
    second state is the first one with one particle moved to a nearest
    neighbour of its site on the lattice (sites numbered from 1, row by
    row: no hop across the end of a row), and 0 otherwise. *)
Theorem ham_entry_nearest_neighbour ndims nop sj sk :
  valid_state nop sj → valid_state nop sk → 0 < ndims →
  (ham_entry ndims nop sj sk = 1 ∨ ham_entry ndims nop sj sk = 0) ∧
  (ham_entry ndims nop sj sk = 1
   ↔ ∃ a b, moves sj sk a b ∧ grid_adjacent ndims a b).
Proof.
  intros Hj Hk Hn. rewrite ham_entry_hop by done.
  pose proof (hop_moves ndims nop sj sk Hj Hk Hn) as Hiff.
  split; [destruct (decide (hop ndims nop sj sk)); auto|].
  destruct (decide (hop ndims nop sj sk)) as [Hh|Hh].
  - split; [by intros _; apply Hiff|done].
  - split; [done|]. intros He. by apply Hiff in He.
Qed.

Lemma ham_entry_nearest_neighbour_witness :
  ham_entry 3 2 [1; 5] [2; 5] = 1 ∧ ham_entry 3 2 [3; 5] [4; 5] = 0.
Proof.
  assert (∀ x, valid_state 2 [x; 5] ↔ 0 ≤ x < 5) as Hv.
  { intros x. unfold valid_state, site_label. split.
    - intros (_ & Hs & Hl). inversion Hs as [|?? _ Hlt]. inversion Hl.
      inversion Hlt. lia.
    - intros Hx. split; [done|]. split; repeat constructor; lia. }
  split.
  - apply (ham_entry_nearest_neighbour 3 2 [1; 5] [2; 5]);
      [apply Hv; lia..|lia|].
    exists 1, 2. split; [|done]. unfold moves.
    rewrite !elem_of_cons, !elem_of_nil.
    split; [lia|]. split; [lia|]. split; [lia|]. split; [lia|].
    intros x. rewrite !elem_of_cons, !elem_of_nil. lia.
  - destruct (ham_entry_nearest_neighbour 3 2 [3; 5] [4; 5]) as [[H|H] _];
      [apply Hv; lia..|lia| |done].
    done.
Defined.

(** ** Further results: the block-diagonal Hamiltonian *)

Lemma ncols_shape {A} n (m : list (list A)) : shape n m → ncols m = n.
Proof.
  intros [Hlen Hrows]. destruct m as [|row m]; [done|].
  simpl. by inversion Hrows.
Qed.

Lemma shape_row {A} n (m : list (list A)) p row :
  shape n m → m !! p = Some row → length row = n.
Proof.
  intros [_ Hrows] Hrow. rewrite Forall_forall in Hrows.
  apply Hrows. by eapply list_elem_of_lookup_2.
Qed.

(** The cells of a block placed before the blocks [b]. *)
Lemma place_blocks_cons_cell (a : matrix) rest n p q :
  shape (length a) a → shape n (place_blocks rest) →
  cell (place_blocks (a :: rest)) p q =
    if decide (p < length a)%nat then
      if decide (q < length a)%nat then cell a p q
      else if decide (q < length a + n)%nat then Some 0 else None
    else if decide (q < length a)%nat then
      if decide (p < length a + n)%nat then Some 0 else None
    else cell (place_blocks rest) (p - length a) (q - length a).
Proof.
  intros Ha Hb. simpl place_blocks.
  rewrite (ncols_shape _ _ Ha), (ncols_shape _ _ Hb).
  set (b := place_blocks rest) in *. unfold cell.
  destruct (decide (p < length a)%nat) as [Hp|Hp].
  - rewrite lookup_app_l by by rewrite length_fmap.
    rewrite list_lookup_fmap.
    destruct (lookup_lt_is_Some_2 a p Hp) as [row Hrow].
    rewrite Hrow. simpl.
    pose proof (shape_row _ _ _ _ Ha Hrow) as Hlen.
    destruct (decide (q < length a)%nat) as [Hq|Hq].
    + by rewrite lookup_app_l by lia.
    + rewrite lookup_app_r by lia. rewrite Hlen.
      destruct (decide (q < length a + n)%nat).
      * by rewrite lookup_replicate_2 by lia.
      * apply lookup_replicate_None. lia.
  - rewrite lookup_app_r by (rewrite length_fmap; lia).
    rewrite length_fmap, list_lookup_fmap.
    destruct (b !! (p - length a)%nat) as [row|] eqn:Hrow; simpl.
    + pose proof (shape_row _ _ _ _ Hb Hrow) as Hlen.
      apply lookup_lt_Some in Hrow. destruct Hb as [Hbl _].
      destruct (decide (q < length a)%nat) as [Hq|Hq].
      * rewrite decide_True by lia.
        rewrite lookup_app_l by (rewrite length_replicate; lia).
        by rewrite lookup_replicate_2.
      * rewrite lookup_app_r by (rewrite length_replicate; lia).
        by rewrite length_replicate.
    + apply lookup_ge_None in Hrow. destruct Hb as [Hbl _].
      destruct (decide (q < length a)%nat); [|done].
      by rewrite decide_False by lia.
Qed.

Lemma place_blocks_shape arrs :
  Forall (λ a : matrix, shape (length a) a) arrs →
  shape (sum_list (length <$> arrs)) (place_blocks arrs).
Proof.
  induction 1 as [|a rest Ha Hrest IH]; [done|].
  simpl place_blocks. rewrite fmap_cons. simpl sum_list.
  rewrite (ncols_shape _ _ Ha), (ncols_shape _ _ IH).
  destruct Ha as [_ Har], IH as [Hbl Hbr]. split.
  - rewrite length_app, !length_fmap. lia.
  - apply Forall_app. split; apply Forall_fmap.
    + eapply Forall_impl; [exact Har|]. simpl. intros row Hrow.
      rewrite length_app, length_replicate. lia.
    + eapply Forall_impl; [exact Hbr|]. simpl. intros row Hrow.
      rewrite length_app, length_replicate. lia.
Qed.

(** What the blocks have in common carries over to the whole matrix. *)
Lemma place_blocks_cells arrs :
  Forall (λ a : matrix,
     shape (length a) a ∧
     (∀ p q, cell a p q = cell a q p) ∧
     (∀ p, (p < length a)%nat → cell a p p = Some 0) ∧
     (∀ p q v, cell a p q = Some v → v = 0 ∨ v = 1)) arrs →
  (∀ p q, cell (place_blocks arrs) p q = cell (place_blocks arrs) q p) ∧
  (∀ p, (p < sum_list (length <$> arrs))%nat →
     cell (place_blocks arrs) p p = Some 0) ∧
  (∀ p q v, cell (place_blocks arrs) p q = Some v → v = 0 ∨ v = 1).
Proof.
  intros Hall.
  assert (Forall (λ a : matrix, shape (length a) a) arrs) as Hsq.
  { eapply Forall_impl; [done|]. simpl. tauto. }
  induction Hall as [|a rest (Ha & Hsym & Hdiag & Hbin) Hrest IH].
  { split; [done|]. split; [simpl; lia|]. intros p q v Hv. by destruct p. }
  inversion Hsq as [|?? _ Hsq']. subst.
  destruct (IH Hsq') as (IHsym & IHdiag & IHbin).
  pose proof (place_blocks_shape rest Hsq') as Hb.
  pose proof (λ p q, place_blocks_cons_cell a rest _ p q Ha Hb) as Hcell.
  split; [|split].
  - intros p q. rewrite !Hcell.
    repeat case_decide; first [done | lia | apply IHsym].
  - intros p Hp. rewrite fmap_cons in Hp. simpl in Hp. rewrite Hcell.
    destruct (decide (p < length a)%nat); [by apply Hdiag|].
    apply IHdiag. lia.
  - intros p q v. rewrite Hcell.
    repeat case_decide; try done; try (intros [= <-]; auto).
    + apply Hbin.
    + apply IHbin.
Qed.

(** The row [p] of the block at position [i]. *)
Lemma place_blocks_row arrs i (a : matrix) p q :
  Forall (λ a : matrix, shape (length a) a) arrs →
  arrs !! i = Some a → (p < length a)%nat →
  let off := sum_list (length <$> take i arrs) in
  cell (place_blocks arrs) (off + p) q =
    if decide (off ≤ q < off + length a)%nat then cell a p (q - off)
    else if decide (q < sum_list (length <$> arrs))%nat then Some 0
    else None.
Proof.
  intros Hsq. revert i q.
  induction Hsq as [|a0 rest Ha0 Hrest IH]; intros i q Hi Hp; [done|].
  cbv zeta.
  pose proof (place_blocks_shape rest Hrest) as Hb.
  rewrite (place_blocks_cons_cell a0 rest _ _ _ Ha0 Hb).
  rewrite fmap_cons. simpl sum_list.
  destruct i as [|i]; simpl in Hi.
  - injection Hi as ->. simpl.
    rewrite decide_True by done. rewrite Nat.sub_0_r.
    repeat case_decide; try done; lia.
  - rewrite firstn_cons, fmap_cons. simpl sum_list.
    set (off := sum_list (length <$> take i rest)).
    specialize (IH i (q - length a0)%nat Hi Hp). cbv zeta in IH.
    fold off in IH.
    assert (off + length a ≤ sum_list (length <$> rest))%nat as Hle.
    { rewrite <- (take_drop_middle rest i a Hi).
      rewrite fmap_app, fmap_cons, sum_list_with_app. simpl. unfold off.
      lia. }
    rewrite decide_False by lia.
    destruct (decide (q < length a0)%nat) as [Hq|Hq].
    + rewrite decide_True by lia. rewrite decide_False by lia.
      by rewrite decide_True by lia.
    + replace (length a0 + off + p - length a0)%nat with (off + p)%nat by lia.
      rewrite IH.
      repeat case_decide; try lia; try done.
      f_equal. lia.
Qed.

Lemma ham_entry_binary ndims nop sj sk :
  ham_entry ndims nop sj sk = 0 ∨ ham_entry ndims nop sj sk = 1.
Proof.
  unfold ham_entry.
  repeat match goal with
         | |- context [if ?b then _ else _] => destruct b
         end; auto.
Qed.

(** [hamiltonian_parallel] on any lattice: the matrix of the entries of the
    pairs of states. *)
Lemma hamiltonian_parallel_entries lattice ndims nop n_processes :
  (1 ≤ n_processes)%nat →
  let states := (λ c : state, wrap32 <$> c) <$> combinations lattice nop in
  ∃ ham,
    hamiltonian_parallel lattice ndims nop n_processes = Ok ham ∧
    shape (length states) ham ∧
    ∀ j k, (j < length states)%nat → (k < length states)%nat →
      cell ham j k = Some (entry_at states ndims nop j k).
Proof.
  intros Hn states.
  destruct (assemble_cells states ndims nop n_processes Hn)
    as (ham & Hrun & Hshape & _ & Hcells).
  exists (cells ham). split; [|done].
  unfold hamiltonian_parallel, position_states. simpl.
  fold states. by rewrite Hrun.
Qed.

Lemma for_each_collect {A B} (f : A → result B) (g : A → B) l acc :
  Forall (λ x, f x = Ok (g x)) l →
  for_each l (λ x acc, h ← f x; Ok (acc ++ [h])) acc = Ok (acc ++ (g <$> l)).
Proof.
  intros Hall. revert acc.
  induction Hall as [|x l Hx Hall IH]; intros acc.
  - by rewrite app_nil_r.
  - simpl. rewrite Hx. simpl. rewrite IH.
    by rewrite <- app_assoc.
Qed.

Lemma sum_lengths_binom (g : nat → matrix) n m :
  (∀ i, (i < m)%nat → Z.of_nat (length (g i)) = binom n i) →
  Z.of_nat (sum_list (length <$> (g <$> seq 0 m))) = sum_binom n m.
Proof.
  induction m as [|m IH]; intros Hg; [done|].
  rewrite seq_S, !fmap_app, sum_list_with_app. simpl.
  rewrite Nat2Z.inj_add, IH by (intros i Hi; apply Hg; lia).
  rewrite Nat.add_0_r, Hg by lia. done.
Qed.

Section BlockDiagonal.
Variables (lat_b : list Z) (n_dim : Z) (nop n_processes : nat).
Hypothesis Hsorted : StronglySorted Z.lt lat_b.
Hypothesis Hlab : Forall site_label lat_b.
Hypothesis Hdim : 0 < n_dim.
Hypothesis Hn : (1 ≤ n_processes)%nat.

Lemma block_ok i :
  hamiltonian_parallel lat_b n_dim i n_processes
  = Ok (block lat_b n_dim n_processes i).
Proof.
  unfold block.
  by destruct (hamiltonian_parallel_entries lat_b n_dim i n_processes Hn)
    as (ham & -> & _).
Qed.

Lemma block_properties i :
  let h := block lat_b n_dim n_processes i in
  Z.of_nat (length h) = binom (length lat_b) i ∧
  shape (length h) h ∧
  (∀ p q, cell h p q = cell h q p) ∧
  (∀ p, (p < length h)%nat → cell h p p = Some 0) ∧
  (∀ p q v, cell h p q = Some v → v = 0 ∨ v = 1).
Proof.
  intros h.
  destruct (hamiltonian_parallel_symmetric lat_b n_dim i n_processes
              Hsorted Hlab Hdim Hn) as (ham & nos & Hrun & Hnos & Hsh & Hsym).
  destruct (hamiltonian_parallel_entries lat_b n_dim i n_processes Hn)
    as (ham' & Hrun' & Hsh' & Hcells).
  rewrite block_ok in Hrun, Hrun'. injection Hrun as <-. injection Hrun' as <-.
  fold h in Hsh, Hsym, Hsh', Hcells.
  assert (length h = nos) as Hlen by apply Hsh.
  rewrite Hlen. split; [done|]. split; [done|]. split; [|split].
  - intros p q.
    destruct (decide (p < nos ∧ q < nos)%nat) as [[Hp Hq]|Hout].
    + by apply Hsym.
    + rewrite !(cell_outside nos) by (done || lia). done.
  - intros p Hp. by apply (Hsym p p).
  - intros p q v Hv.
    destruct (decide (p < nos ∧ q < nos)%nat) as [[Hp Hq]|Hout].
    + rewrite Hcells in Hv by (destruct Hsh'; lia).
      injection Hv as <-. apply ham_entry_binary.
    + by rewrite (cell_outside nos) in Hv.
Qed.

Lemma h_block_diagonal_blocks_placed :
  h_block_diagonal lat_b n_dim nop n_processes
  = Ok (place_blocks (block lat_b n_dim n_processes <$> seq 0 (nop + 1))).
Proof.
  unfold h_block_diagonal, range. rewrite Nat.sub_0_r.
  rewrite (for_each_collect _ (block lat_b n_dim n_processes)).
  - simpl. unfold block_diag. rewrite Nat.add_1_r, <- cons_seq. done.
  - apply Forall_forall. intros i _. apply block_ok.
Qed.

Lemma blocks_square m :
  Forall (λ a : matrix, shape (length a) a)
         (block lat_b n_dim n_processes <$> seq 0 m).
Proof.
  apply Forall_fmap, Forall_forall. intros i _. apply block_properties.
Qed.

End BlockDiagonal.

(** X10: for an ascending lattice B of site labels, a positive row length
    and a particle number up to the size of B, [h_block_diagonal] returns
    a square matrix whose dimension is [sum_ncr(nol_b, nop + 1)], the
    dimension [rho_b_pbasis] gives the reduced density matrix of B; the
    matrix is symmetric, its diagonal is zero and every entry is 0 or 1. *)
Theorem h_block_diagonal_matrix lat_b n_dim nop n_processes :
  StronglySorted Z.lt lat_b → Forall site_label lat_b → 0 < n_dim →
  (1 ≤ n_processes)%nat → (nop ≤ length lat_b)%nat →
  ∃ bd dim,
    h_block_diagonal lat_b n_dim nop n_processes = Ok bd ∧
    sum_ncr (Z.of_nat (length lat_b)) (Z.of_nat nop + 1)
      = Ok (Z.of_nat dim) ∧
    shape dim bd ∧
    ∀ p q, (p < dim)%nat → (q < dim)%nat →
      cell bd p q = cell bd q p ∧
      cell bd p p = Some 0 ∧
      (cell bd p q = Some 0 ∨ cell bd p q = Some 1).
Proof.
  intros Hsorted Hlab Hdim Hn Hnop.
  set (blocks := block lat_b n_dim n_processes <$> seq 0 (nop + 1)).
  exists (place_blocks blocks), (sum_list (length <$> blocks)).
  pose proof (blocks_square lat_b n_dim n_processes Hsorted Hlab Hdim Hn
                (nop + 1)) as Hsq.
  fold blocks in Hsq.
  destruct (place_blocks_cells blocks) as (Hsym & Hdiag & Hbin).
  { apply Forall_fmap, Forall_forall. intros i _.
    by apply block_properties. }
  pose proof (place_blocks_shape blocks Hsq) as Hshape.
  split; [by apply h_block_diagonal_blocks_placed|].
  split; [|split; [done|]].
  - unfold blocks. rewrite (sum_lengths_binom _ (length lat_b)).
    + replace (Z.of_nat nop + 1) with (Z.of_nat (nop + 1)) by lia.
      apply sum_ncr_sum_binom. lia.
    + intros i _. by apply block_properties.
  - intros p q Hp Hq. split; [apply Hsym|]. split; [by apply Hdiag|].
    destruct (cell_is_Some _ _ p q Hshape Hp Hq) as [v Hv].
    rewrite Hv. destruct (Hbin p q v Hv) as [-> | ->]; auto.
Qed.

Lemma h_block_diagonal_matrix_witness :
  ∃ bd, h_block_diagonal [1; 2] 2 2 1 = Ok bd ∧ shape 4 bd.
Proof.
  destruct (h_block_diagonal_matrix [1; 2] 2 2 1)
    as (bd & dim & Hrun & Hdim & Hshape & _).
  - repeat constructor; lia.
  - repeat constructor; unfold site_label; lia.
  - lia.
  - lia.
  - simpl. lia.
  - exists bd. split; [done|].
    assert (Ok (Z.of_nat dim) = Ok 4) as E by (by rewrite <- Hdim).
    injection E as E.
    by replace dim with 4%nat in Hshape by lia.
Defined.

(** X11: the block for [i] particles is the matrix [hamiltonian_parallel]
    returns for [i] particles on B; it starts at row and column
    [sum_ncr(nol_b, i)], the offset [rho_b_pbasis] uses for the states with
    [i] particles in B, and the rest of its rows is zero: no entry couples
    two different particle numbers. *)
Theorem h_block_diagonal_blocks lat_b n_dim nop n_processes i :
  StronglySorted Z.lt lat_b → Forall site_label lat_b → 0 < n_dim →
  (1 ≤ n_processes)%nat → (nop ≤ length lat_b)%nat → (i ≤ nop)%nat →
  ∃ bd h off,
    h_block_diagonal lat_b n_dim nop n_processes = Ok bd ∧
    hamiltonian_parallel lat_b n_dim i n_processes = Ok h ∧
    sum_ncr (Z.of_nat (length lat_b)) (Z.of_nat i) = Ok (Z.of_nat off) ∧
    Z.of_nat (length h) = binom (length lat_b) i ∧
    ∀ p q, (p < length h)%nat →
      cell bd (off + p) q =
        if decide (off ≤ q < off + length h)%nat then cell h p (q - off)
        else if decide (q < length bd)%nat then Some 0
        else None.
Proof.
  intros Hsorted Hlab Hdim Hn Hnop Hi.
  set (blocks := block lat_b n_dim n_processes <$> seq 0 (nop + 1)).
  set (h := block lat_b n_dim n_processes i).
  pose proof (blocks_square lat_b n_dim n_processes Hsorted Hlab Hdim Hn
                (nop + 1)) as Hsq.
  fold blocks in Hsq.
  assert (blocks !! i = Some h) as Hlook.
  { unfold blocks. rewrite list_lookup_fmap, lookup_seq_lt by lia. done. }
  assert (take i blocks = block lat_b n_dim n_processes <$> seq 0 i) as Htake.
  { unfold blocks. rewrite <- fmap_take, take_seq. do 2 f_equal. lia. }
  exists (place_blocks blocks), h, (sum_list (length <$> take i blocks)).
  split; [by apply h_block_diagonal_blocks_placed|].
  split; [by apply block_ok|]. split; [|split].
  - rewrite Htake, (sum_lengths_binom _ (length lat_b)).
    + apply sum_ncr_sum_binom. lia.
    + intros k _. by apply block_properties.
  - by apply block_properties.
  - intros p q Hp.
    rewrite (place_blocks_row blocks i h p q Hsq Hlook Hp).
    by destruct (place_blocks_shape blocks Hsq) as [-> _].
Qed.

Lemma h_block_diagonal_blocks_witness :
  ∃ bd, h_block_diagonal [1; 2] 2 2 1 = Ok bd ∧
        cell bd 1 2 = Some 1 ∧ cell bd 1 3 = Some 0.
Proof.
  destruct (h_block_diagonal_blocks [1; 2] 2 2 1 1)
    as (bd & h & off & Hrun & Hh & Hoff & Hlen & Hcell).
  - repeat constructor; lia.
  - repeat constructor; unfold site_label; lia.
  - lia.
  - lia.
  - simpl. lia.
  - lia.
  - exists bd. split; [done|].
    assert (Ok (Z.of_nat off) = Ok 1) as E by (by rewrite <- Hoff).
    injection E as E.
    assert (off = 1%nat) as -> by lia.
    vm_compute in Hh. injection Hh as <-.
    vm_compute in Hrun. injection Hrun as <-.
    pose proof (Hcell 0%nat 2%nat ltac:(simpl; lia)) as H2.
    pose proof (Hcell 0%nat 3%nat ltac:(simpl; lia)) as H3.
    rewrite decide_True in H2 by (simpl; lia).
    rewrite decide_False, decide_True in H3 by (simpl; lia).
    done.
Defined.

(** ** Further results: the Hamiltonian of no particle and of one *)

(** X23: without any particle the state space is the single empty state
    and [hamiltonian_parallel] returns the 1 by 1 zero matrix, whatever the
    lattice and the row length. *)
Theorem hamiltonian_parallel_no_particle lattice ndims n_processes :
  (1 ≤ n_processes)%nat →
  hamiltonian_parallel lattice ndims 0 n_processes = Ok [[0]].
Proof.
  intros Hn.
  destruct (hamiltonian_parallel_entries lattice ndims 0 n_processes Hn)
    as (ham & Hrun & Hshape & Hcells).
  rewrite Hrun. f_equal. rewrite combinations_0 in Hshape, Hcells.
  simpl in Hshape, Hcells.
  apply (matrix_ext_range 1); [done|split; [done|by repeat constructor]|].
  intros j k Hj Hk. assert (j = 0%nat) as -> by lia.
  assert (k = 0%nat) as -> by lia.
  by rewrite Hcells by lia.
Qed.

Lemma hamiltonian_parallel_no_particle_witness :
  hamiltonian_parallel [1; 2; 3; 4] 2 0 3 = Ok [[0]].
Proof. apply hamiltonian_parallel_no_particle. lia. Defined.

Lemma combinations_1 {A} (l : list A) : combinations l 1 = (λ x, [x]) <$> l.
Proof.
  induction l as [|x l IH]; [done|].
  change (combinations (x :: l) 1)
    with ((cons x <$> combinations l 0) ++ combinations l 1).
  rewrite IH. by destruct l.
Qed.

Lemma moves_single a b a' b' :
  moves [a] [b] a' b' ↔ a' = a ∧ b' = b ∧ a ≠ b.
Proof.
  unfold moves. rewrite !list_elem_of_singleton. split.
  - intros (-> & Hne & -> & _). done.
  - intros (-> & -> & Hne).
    split; [done|]. split; [done|]. split; [done|]. split; [congruence|].
    intros x Hxa Hxb. rewrite !list_elem_of_singleton. tauto.
Qed.

Lemma grid_adjacent_irrefl ndims a : ¬ grid_adjacent ndims a a.
Proof. unfold grid_adjacent. lia. Qed.

(** X22: for one particle on the sites [1 .. nol] of a lattice of row
    length [ndims], [hamiltonian_parallel] returns the adjacency matrix of
    the lattice: the entry [(j, k)] is 1 exactly when the sites [j + 1] and
    [k + 1] are nearest neighbours (same row and adjacent columns, or same
    column and adjacent rows). *)
Theorem hamiltonian_parallel_one_particle nol ndims n_processes :
  Z.of_nat nol < 2 ^ 31 → 0 < ndims → (1 ≤ n_processes)%nat →
  ∃ ham,
    hamiltonian_parallel (Z.of_nat <$> seq 1 nol) ndims 1 n_processes
      = Ok ham ∧
    shape nol ham ∧
    ∀ j k, (j < nol)%nat → (k < nol)%nat →
      cell ham j k =
        Some (if decide (grid_adjacent ndims (Z.of_nat j + 1)
                                        (Z.of_nat k + 1))
              then 1 else 0).
Proof.
  intros Hsmall Hdims Hn.
  destruct (hamiltonian_parallel_entries (Z.of_nat <$> seq 1 nol) ndims 1
              n_processes Hn) as (ham & Hrun & Hshape & Hcells).
  assert (Forall int32 (Z.of_nat <$> seq 1 nol)) as Hint.
  { apply Forall_fmap, Forall_forall. intros i Hi%elem_of_seq.
    unfold int32. simpl. lia. }
  rewrite cast_states_id in Hshape, Hcells by done.
  rewrite combinations_1, !length_fmap, length_seq in Hshape, Hcells.
  exists ham. split; [done|]. split; [done|].
  intros j k Hj Hk. rewrite Hcells by done. f_equal.
  unfold entry_at.
  assert (∀ i, (i < nol)%nat →
            ((λ x, [x]) <$> (Z.of_nat <$> seq 1 nol)) !!! i
            = [Z.of_nat i + 1]) as Hst.
  { intros i Hi. apply list_lookup_total_correct.
    rewrite !list_lookup_fmap, lookup_seq_lt by done. simpl.
    do 2 f_equal. lia. }
  rewrite !Hst by done.
  assert (∀ i, (i < nol)%nat → valid_state 1 [Z.of_nat i + 1]) as Hv.
  { intros i Hi. split; [done|].
    split; repeat constructor; unfold site_label; lia. }
  rewrite ham_entry_hop by auto.
  pose proof (hop_moves ndims 1 [Z.of_nat j + 1] [Z.of_nat k + 1]
                (Hv j Hj) (Hv k Hk) Hdims) as Hiff.
  destruct (decide (hop ndims 1 _ _)) as [Hh|Hh].
  - apply Hiff in Hh as (a & b & (-> & -> & _)%moves_single & Hadj).
    by rewrite decide_True.
  - rewrite decide_False; [done|]. intros Hadj. apply Hh, Hiff.
    exists (Z.of_nat j + 1), (Z.of_nat k + 1). split; [|done].
    apply moves_single. split; [done|]. split; [done|].
    intros Heq. rewrite Heq in Hadj. by apply grid_adjacent_irrefl in Hadj.
Qed.

Lemma hamiltonian_parallel_one_particle_witness :
  hamiltonian_parallel [1; 2; 3; 4] 2 1 2
  = Ok [[0; 1; 1; 0]; [1; 0; 0; 1]; [1; 0; 0; 1]; [0; 1; 1; 0]].
Proof.
  destruct (hamiltonian_parallel_one_particle 4 2 2)
    as (ham & Hrun & Hshape & Hcells); [lia..|].
  change (Z.of_nat <$> seq 1 4) with [1; 2; 3; 4] in Hrun.
  rewrite Hrun. f_equal.
  apply (matrix_ext_range 4); [done|split; [done|by repeat constructor]|].
  intros j k Hj Hk. rewrite Hcells by done.
  destruct j as [|[|[|[|j]]]]; [..|lia];
    (destruct k as [|[|[|[|k]]]]; [..|lia]); reflexivity.
Defined.

(** ** Further results: the change to the energy basis *)

Lemma cmul_comm a b : cmul a b = cmul b a.
Proof. apply complex_eq; simpl; ring. Qed.

Lemma cmul_assoc a b c : cmul a (cmul b c) = cmul (cmul a b) c.
Proof. apply complex_eq; simpl; ring. Qed.

Lemma cmul_0_l a : cmul czero a = czero.
Proof. apply complex_eq; simpl; ring. Qed.

Lemma cmul_0_r a : cmul a czero = czero.
Proof. apply complex_eq; simpl; ring. Qed.

Lemma cmul_1_l a : cmul (Complex 1 0) a = a.
Proof. apply complex_eq; simpl; ring. Qed.

Lemma cmul_1_r a : cmul a (Complex 1 0) = a.
Proof. apply complex_eq; simpl; ring. Qed.

Lemma cmul_cadd_r a b c : cmul a (cadd b c) = cadd (cmul a b) (cmul a c).
Proof. apply complex_eq; simpl; ring. Qed.

Lemma conj_cmul a b : conj (cmul a b) = cmul (conj a) (conj b).
Proof. apply complex_eq; simpl; ring. Qed.

Lemma conj_conj a : conj (conj a) = a.
Proof. apply complex_eq; simpl; ring. Qed.

Lemma cadd_0_l a : cadd czero a = a.
Proof. apply complex_eq; simpl; ring. Qed.

Lemma csum_cons x l : csum (x :: l) = cadd x (csum l).
Proof. done. Qed.

Lemma csum_app l1 l2 : csum (l1 ++ l2) = cadd (csum l1) (csum l2).
Proof.
  induction l1 as [|x l1 IH]; [by rewrite cadd_0_l|].
  by rewrite <- app_comm_cons, !csum_cons, IH, cadd_assoc.
Qed.

Lemma csum_ext {A} (f g : A → complex) (l : list A) :
  (∀ x, x ∈ l → f x = g x) → csum (f <$> l) = csum (g <$> l).
Proof.
  intros Hfg. f_equal. apply list_fmap_ext. intros i x Hx.
  apply Hfg. by eapply list_elem_of_lookup_2.
Qed.

Lemma csum_zero {A} (l : list A) : csum ((λ _, czero) <$> l) = czero.
Proof.
  induction l as [|x l IH]; [done|].
  by rewrite fmap_cons, csum_cons, IH, cadd_0_l.
Qed.

Lemma csum_cadd {A} (f g : A → complex) (l : list A) :
  csum ((λ x, cadd (f x) (g x)) <$> l)
  = cadd (csum (f <$> l)) (csum (g <$> l)).
Proof.
  induction l as [|x l IH]; [by rewrite cadd_0_l|].
  rewrite !fmap_cons, !csum_cons, IH.
  apply complex_eq; simpl; ring.
Qed.

Lemma csum_cmul_l {A} a (f : A → complex) (l : list A) :
  cmul a (csum (f <$> l)) = csum ((λ x, cmul a (f x)) <$> l).
Proof.
  induction l as [|x l IH]; [apply cmul_0_r|].
  by rewrite !fmap_cons, !csum_cons, cmul_cadd_r, IH.
Qed.

Lemma csum_cmul_r {A} a (f : A → complex) (l : list A) :
  cmul (csum (f <$> l)) a = csum ((λ x, cmul (f x) a) <$> l).
Proof.
  rewrite cmul_comm, csum_cmul_l. apply csum_ext.
  intros x _. apply cmul_comm.
Qed.

(** Exchanging two sums. *)
Lemma csum_swap {A B} (f : A → B → complex) (la : list A) (lb : list B) :
  csum ((λ x, csum (f x <$> lb)) <$> la)
  = csum ((λ y, csum ((λ x, f x y) <$> la)) <$> lb).
Proof.
  induction la as [|x la IH].
  - simpl. by rewrite csum_zero.
  - rewrite fmap_cons, csum_cons, IH, <- csum_cadd. done.
Qed.

(** A sum with one term that is not zero. *)
Lemma csum_point (f : nat → complex) (k s n : nat) :
  csum ((λ i, if decide (i = k) then f i else czero) <$> seq s n)
  = if decide (s ≤ k < s + n)%nat then f k else czero.
Proof.
  revert s. induction n as [|n IH]; intros s.
  - simpl. by rewrite decide_False by lia.
  - rewrite <- cons_seq, fmap_cons, csum_cons, IH.
    destruct (decide (s = k)) as [->|Hne].
    + rewrite decide_False by lia. rewrite decide_True by lia.
      apply cadd_0_r.
    + rewrite cadd_0_l.
      destruct (decide (S s ≤ k < S s + n)%nat).
      * by rewrite decide_True by lia.
      * by rewrite decide_False by lia.
Qed.

Lemma re_csum l : re (csum l) = qsum (re <$> l).
Proof. induction l as [|x l IH]; [done|]. simpl. by rewrite IH. Qed.

Lemma csum_zip_with (h : complex → complex → complex) (a b : list complex) :
  length a = length b →
  csum (zip_with h a b)
  = csum ((λ k, h (a !!! k) (b !!! k)) <$> seq 0 (length a)).
Proof.
  intros Hlen. f_equal. apply list_eq. intros k.
  rewrite lookup_zip_with, list_lookup_fmap.
  destruct (decide (k < length a)%nat) as [Hk|Hk].
  - rewrite lookup_seq_lt by done. simpl.
    rewrite (list_lookup_lookup_total_lt a k) by done.
    rewrite (list_lookup_lookup_total_lt b k) by lia. done.
  - rewrite lookup_seq_ge by lia.
    by rewrite (lookup_ge_None_2 a k) by lia.
Qed.

Lemma cell_total n (m : list (list complex)) p q :
  shape n m → (p < n)%nat → (q < n)%nat →
  cell m p q = Some ((m !!! p) !!! q).
Proof.
  intros Hshape Hp Hq. unfold cell.
  destruct Hshape as [Hlen Hrows] eqn:E.
  rewrite (list_lookup_lookup_total_lt m p) by lia. simpl.
  apply list_lookup_lookup_total_lt.
  rewrite (shape_row n m p (m !!! p)); [done..|].
  apply list_lookup_lookup_total_lt. lia.
Qed.

(** The eigenvector matrix has [n] rows and [c] columns, [c] at most [n]. *)
Section Sandwich.
Variables (rho u : list (list complex)) (n c : nat).
Hypothesis Hrho : shape n rho.
Hypothesis Hul : length u = n.
Hypothesis Hur : Forall (λ row : list complex, length row = c) u.
Hypothesis Hcn : (c ≤ n)%nat.

Lemma column_ok i :
  (i < c)%nat →
  column u i = Ok ((λ k, (u !!! k) !!! i) <$> seq 0 n).
Proof.
  intros Hi. unfold column.
  rewrite (mapM_ok _ (λ row : list complex, row !!! i)).
  - f_equal.
    rewrite (list_as_seq u) at 1. rewrite <- list_fmap_compose.
    by rewrite Hul.
  - eapply Forall_impl; [done|]. simpl.
    intros row Hrow. unfold index.
    by rewrite list_lookup_lookup_total_lt by lia.
Qed.

Lemma np_dot_ok (v : list complex) :
  length v = n →
  np_dot rho v
  = Ok ((λ k, csum ((λ l, cmul ((rho !!! k) !!! l) (v !!! l)) <$> seq 0 n))
          <$> seq 0 n).
Proof.
  intros Hv. unfold np_dot.
  rewrite (mapM_ok _ (λ row : list complex,
                        csum ((λ l, cmul (row !!! l) (v !!! l))
                                <$> seq 0 n))).
  - f_equal. destruct Hrho as [Hlen _].
    rewrite (list_as_seq rho) at 1. rewrite <- list_fmap_compose.
    by rewrite Hlen.
  - destruct Hrho as [_ Hrows]. eapply Forall_impl; [done|]. simpl.
    intros row Hrow. rewrite decide_True by lia.
    rewrite csum_zip_with by lia. by rewrite Hrow.
Qed.

Lemma np_vdot_ok (a b : list complex) :
  length a = n → length b = n →
  np_vdot a b = Ok (csum ((λ k, cmul (conj (a !!! k)) (b !!! k)) <$> seq 0 n)).
Proof.
  intros Ha Hb. unfold np_vdot. rewrite decide_True by lia.
  rewrite csum_zip_with by lia. by rewrite Ha.
Qed.

Lemma lookup_total_fmap_seq (f : nat → complex) k :
  (k < n)%nat → (f <$> seq 0 n) !!! k = f k.
Proof.
  intros Hk. apply list_lookup_total_correct.
  by rewrite list_lookup_fmap, lookup_seq_lt.
Qed.

(** What the body of the double loop stores at [(i, j)]. *)
Lemma sandwich_body i j :
  (i < c)%nat → (j < c)%nat →
  (ci ← column u i; cj ← column u j; w ← np_dot rho cj; np_vdot ci w)
  = Ok (sandwich rho u i j).
Proof.
  intros Hi Hj. rewrite !column_ok by done. simpl.
  rewrite np_dot_ok by by rewrite length_fmap, length_seq. simpl.
  rewrite np_vdot_ok by by rewrite length_fmap, length_seq.
  f_equal. unfold sandwich. destruct Hrho as [-> _].
  apply csum_ext. intros k Hk%elem_of_seq.
  rewrite !lookup_total_fmap_seq by lia. f_equal.
  apply csum_ext. intros l Hl%elem_of_seq.
  by rewrite lookup_total_fmap_seq by lia.
Qed.

Lemma store_ok i j v (m : list (list complex)) :
  shape n m → (i < n)%nat → (j < n)%nat →
  ∃ row, m !! i = Some row ∧ (j < length row)%nat ∧
         store i j v m = Ok (<[i := <[j := v]> row]> m).
Proof.
  intros Hm Hi Hj.
  destruct (lookup_lt_is_Some_2 m i) as [row Hrow];
    [destruct Hm; lia|].
  pose proof (shape_row _ _ _ _ Hm Hrow) as Hlen.
  exists row. split; [done|]. split; [lia|].
  unfold store. rewrite Hrow. by rewrite decide_True by lia.
Qed.

Lemma transformation_cells l m :
  shape n m →
  Forall (λ ij, (ij.1 < c)%nat ∧ (ij.2 < c)%nat) l →
  ∃ m',
    for_each l (λ ij m,
      ci ← column u ij.1;
      cj ← column u ij.2;
      w ← np_dot rho cj;
      v ← np_vdot ci w;
      store ij.1 ij.2 v m) m = Ok m' ∧
    shape n m' ∧
    ∀ i j, cell m' i j =
      if decide ((i, j) ∈ l) then Some (sandwich rho u i j) else cell m i j.
Proof.
  intros Hm Hall. revert m Hm.
  induction Hall as [|[i j] l [Hi Hj] Hall IH]; intros m Hm.
  - exists m. split; [done|]. split; [done|]. intros i j.
    rewrite decide_False; [done|]. apply not_elem_of_nil.
  - simpl in Hi, Hj.
    destruct (store_ok i j (sandwich rho u i j) m Hm)
      as (row & Hrow & Hjr & Hstore); [lia..|].
    pose proof (sandwich_body i j Hi Hj) as Hbody.
    destruct (IH (<[i := <[j := sandwich rho u i j]> row]> m))
      as (m' & Hrun & Hsh & Hcells); [by apply shape_insert|].
    exists m'. split; [|split; [done|]].
    + rewrite <- Hrun. simpl.
      destruct (column u i) as [ci|]; [|done]. simpl in *.
      destruct (column u j) as [cj|]; [|done]. simpl in *.
      destruct (np_dot rho cj) as [w|]; [|done]. simpl in *.
      rewrite Hbody. simpl. by rewrite Hstore.
    + intros i' j'. rewrite Hcells.
      destruct (decide ((i', j') ∈ l)) as [Hin|Hnin].
      * rewrite decide_True; [done|]. by right.
      * rewrite cell_insert by done.
        destruct (decide ((i', j') = (i, j))) as [Heq|Hne].
        -- rewrite decide_True; [|rewrite Heq; left].
           by injection Heq as -> ->.
        -- rewrite decide_False; [done|].
           rewrite elem_of_cons. tauto.
Qed.

Lemma shape_zeros_like : shape n (zeros_like rho).
Proof.
  destruct Hrho as [Hlen Hrows]. split.
  - unfold zeros_like. by rewrite length_fmap.
  - apply Forall_fmap. eapply Forall_impl; [done|]. simpl.
    intros row Hrow. by rewrite length_fmap.
Qed.

End Sandwich.

(** The double loop of [transformation] on square matrices. *)
Lemma transformation_loop rho u n :
  shape n rho → shape n u →
  ∃ rho_e,
    for_each (range 0 (length rho)) (λ i rho_e,
      for_each (range 0 (ncols rho)) (λ j rho_e,
        ci ← column u i;
        cj ← column u j;
        w ← np_dot rho cj;
        v ← np_vdot ci w;
        store i j v rho_e) rho_e) (zeros_like rho) = Ok rho_e ∧
    shape n rho_e ∧
    ∀ i j, (i < n)%nat → (j < n)%nat →
      cell rho_e i j = Some (sandwich rho u i j).
Proof.
  intros Hrho [Hul Hur].
  destruct (transformation_cells rho u n n Hrho Hul Hur (le_n n)
              (all_cells n) (zeros_like rho))
    as (rho_e & Hrun & Hshape & Hcells); [by apply shape_zeros_like|..].
  { apply Forall_forall. intros [i j] Hin.
    by apply elem_of_all_cells in Hin. }
  exists rho_e. split; [|split; [done|]].
  - rewrite <- Hrun. rewrite (ncols_shape _ _ Hrho).
    destruct Hrho as [-> _]. unfold all_cells.
    rewrite for_each_flatten.
    apply for_each_ext. intros i s. rewrite for_each_flatten.
    apply for_each_ext. intros j s'. simpl.
    destruct (column u i) as [ci|]; [|done]. simpl.
    destruct (column u j) as [cj|]; [|done]. simpl.
    destruct (np_dot rho cj) as [w|]; [|done]. simpl.
    destruct (np_vdot ci w) as [v|]; [|done]. simpl.
    by destruct (store i j v s').
  - intros i j Hi Hj. rewrite Hcells, decide_True; [done|].
    by apply elem_of_all_cells.
Qed.

(** X12: for a square matrix [rho_pbasis] and a square matrix [e_vecs_bd]
    of the same dimension, [transformation] raises no exception and
    returns (in exact arithmetic) a matrix of that dimension whose entry
    [(i, j)] is the product of the conjugate of column [i] of [e_vecs_bd],
    [rho_pbasis] and column [j] of [e_vecs_bd]; the only thing it can
    print is the line on the symmetry check. *)
Theorem transformation_sandwich rho_pbasis e_vecs_bd n :
  shape n rho_pbasis → shape n e_vecs_bd →
  ∃ rho_ebasis out,
    transformation rho_pbasis e_vecs_bd = Ok (rho_ebasis, out) ∧
    (out = [] ∨ out = ["Transformation matrix is not symmetric"%string]) ∧
    shape n rho_ebasis ∧
    ∀ i j, (i < n)%nat → (j < n)%nat →
      cell rho_ebasis i j = Some (sandwich rho_pbasis e_vecs_bd i j).
Proof.
  intros Hrho Hu.
  destruct (transformation_loop rho_pbasis e_vecs_bd n Hrho Hu)
    as (rho_e & Hrun & Hshape & Hcells).
  unfold transformation. rewrite Hrun. simpl.
  destruct (np_allclose _ _); eauto 10.
Qed.

Lemma transformation_sandwich_witness :
  ∃ rho_ebasis out,
    transformation [[Complex 1 0]] [[Complex 0 1]] = Ok (rho_ebasis, out) ∧
    shape 1 rho_ebasis.
Proof.
  destruct (transformation_sandwich [[Complex 1 0]] [[Complex 0 1]] 1)
    as (rho_e & out & Hrun & _ & Hshape & _).
  - split; [done|]. by repeat constructor.
  - split; [done|]. by repeat constructor.
  - by exists rho_e, out.
Defined.

Lemma Qc_square_nonneg (x : Qc) : (0 ≤ x * x)%Qc.
Proof.
  unfold Qcle. change (this (x * x)%Qc) with (Qred (this x * this x)).
  rewrite Qred_correct.
  destruct x as [[xn xd] Hx]. unfold Qle, Qmult. simpl. nia.
Qed.

Lemma Qc_add_nonneg (x y : Qc) : (0 ≤ x → 0 ≤ y → 0 ≤ x + y)%Qc.
Proof.
  intros Hx Hy. replace 0%Qc with (0 + 0)%Qc by ring.
  by apply Qcplus_le_compat.
Qed.

Lemma cabs2_nonneg a : (0 ≤ cabs2 a)%Qc.
Proof. apply Qc_add_nonneg; apply Qc_square_nonneg. Qed.

Lemma isclose_refl a : isclose a a = true.
Proof.
  unfold isclose. apply orb_true_iff. left. apply bool_decide_eq_true.
  assert (cabs2 (csub a a) = 0%Qc) as -> by (unfold cabs2; simpl; ring).
  assert (0 ≤ atol * atol + rtol * rtol * cabs2 a)%Qc as Hpos.
  { apply Qc_add_nonneg; [apply Qc_square_nonneg|].
    replace (rtol * rtol * cabs2 a)%Qc
      with ((rtol * re a) * (rtol * re a) + (rtol * im a) * (rtol * im a))%Qc
      by (unfold cabs2; ring).
    apply Qc_add_nonneg; apply Qc_square_nonneg. }
  apply (Qcplus_le_compat _ _ (- (atol * atol + rtol * rtol * cabs2 a))%Qc
           (- (atol * atol + rtol * rtol * cabs2 a))%Qc) in Hpos;
    [|apply Qcle_refl].
  ring_simplify in Hpos. ring_simplify. exact Hpos.
Qed.

Lemma forallb_zip_same {A} (f : A * A → bool) (l : list A) :
  (∀ x, f (x, x) = true) → forallb f (zip l l) = true.
Proof.
  intros Hf. induction l as [|x l IH]; [done|].
  simpl. by rewrite Hf, IH.
Qed.

Lemma np_allclose_refl m : np_allclose m m = true.
Proof.
  unfold np_allclose. apply forallb_zip_same. intros row. simpl.
  apply forallb_zip_same. intros a. apply isclose_refl.
Qed.

Lemma cell_np_conjugate m p q :
  cell (np_conjugate m) p q = conj <$> cell m p q.
Proof.
  unfold cell, np_conjugate. rewrite list_lookup_fmap.
  destruct (m !! p) as [row|]; [|done]. simpl.
  by rewrite list_lookup_fmap.
Qed.

Lemma shape_np_conjugate n m : shape n m → shape n (np_conjugate m).
Proof.
  intros [Hlen Hrows]. split.
  - unfold np_conjugate. by rewrite length_fmap.
  - apply Forall_fmap. eapply Forall_impl; [done|]. simpl.
    intros row Hrow. by rewrite length_fmap.
Qed.

Lemma np_transpose_column n (m : list (list complex)) j :
  shape n m → (j < n)%nat →
  omap (λ row : list complex, row !! j) m
  = (λ row : list complex, row !!! j) <$> m.
Proof.
  intros [_ Hrows] Hj.
  rewrite (omap_total _ czero).
  - apply list_fmap_ext. intros i row Hrow.
    rewrite list_lookup_total_alt. done.
  - eapply Forall_impl; [done|]. simpl. intros row Hrow.
    apply lookup_lt_is_Some_2. lia.
Qed.

Lemma np_transpose_cells n (m : list (list complex)) :
  shape n m →
  shape n (np_transpose m) ∧
  ∀ p q, cell (np_transpose m) p q = cell m q p.
Proof.
  intros Hm. unfold np_transpose. rewrite (ncols_shape _ _ Hm). split.
  - split; [by rewrite length_fmap, length_seq|].
    apply Forall_fmap, Forall_forall. intros j Hj%elem_of_seq. simpl.
    rewrite (np_transpose_column n) by (done || lia).
    rewrite length_fmap. apply Hm.
  - intros p q. unfold cell. rewrite list_lookup_fmap.
    destruct (decide (p < n)%nat) as [Hp|Hp].
    + rewrite lookup_seq_lt by done. simpl.
      rewrite (np_transpose_column n) by done.
      rewrite list_lookup_fmap.
      destruct (m !! q) as [row|] eqn:Hrow; [|done]. simpl.
      symmetry. apply list_lookup_lookup_total_lt.
      by rewrite (shape_row _ _ _ _ Hm Hrow).
    + rewrite lookup_seq_ge by lia. simpl.
      destruct (m !! q) as [row|] eqn:Hrow; [|done]. simpl.
      symmetry. apply lookup_ge_None_2.
      rewrite (shape_row _ _ _ _ Hm Hrow). lia.
Qed.

(** A Hermitian matrix passes the check of [transformation]. *)
Lemma hermitian_allclose n m :
  shape n m → hermitian m →
  np_allclose (np_transpose (np_conjugate m)) m = true.
Proof.
  intros Hm Hh.
  pose proof (shape_np_conjugate _ _ Hm) as Hc.
  destruct (np_transpose_cells n _ Hc) as [Ht Hcells].
  replace (np_transpose (np_conjugate m)) with m; [apply np_allclose_refl|].
  apply (matrix_ext n); [done..|]. intros p q.
  by rewrite Hcells, cell_np_conjugate, Hh.
Qed.

Lemma hermitian_total n rho k l :
  shape n rho → hermitian rho → (k < n)%nat → (l < n)%nat →
  conj ((rho !!! k) !!! l) = (rho !!! l) !!! k.
Proof.
  intros Hrho Hh Hk Hl. specialize (Hh k l).
  rewrite !(cell_total n) in Hh by done. simpl in Hh. by injection Hh.
Qed.

Lemma sandwich_conj rho u n i j :
  shape n rho → hermitian rho →
  conj (sandwich rho u i j) = sandwich rho u j i.
Proof.
  intros Hrho Hh. unfold sandwich. destruct Hrho as [Hlen Hrows] eqn:E.
  rewrite Hlen. rewrite conj_csum, <- list_fmap_compose.
  rewrite (csum_ext _ (λ k, csum ((λ l,
              cmul (conj ((u !!! l) !!! j))
                (cmul ((rho !!! l) !!! k) ((u !!! k) !!! i))) <$> seq 0 n))).
  - rewrite csum_swap. apply csum_ext. intros l _.
    by rewrite csum_cmul_l.
  - intros k Hk%elem_of_seq. simpl.
    rewrite conj_cmul, conj_conj, conj_csum, <- list_fmap_compose.
    rewrite csum_cmul_l. apply csum_ext. intros l Hl%elem_of_seq. simpl.
    rewrite conj_cmul, (hermitian_total n) by (done || lia).
    apply complex_eq; simpl; ring.
Qed.

(** X13: [transformation] keeps a Hermitian matrix Hermitian (in exact
    arithmetic), and then the symmetry check passes: nothing is
    printed. *)
Theorem transformation_hermitian rho_pbasis e_vecs_bd n :
  shape n rho_pbasis → shape n e_vecs_bd → hermitian rho_pbasis →
  ∃ rho_ebasis,
    transformation rho_pbasis e_vecs_bd = Ok (rho_ebasis, []) ∧
    hermitian rho_ebasis.
Proof.
  intros Hrho Hu Hh.
  destruct (transformation_loop rho_pbasis e_vecs_bd n Hrho Hu)
    as (rho_e & Hrun & Hshape & Hcells).
  assert (hermitian rho_e) as Hhe.
  { intros p q.
    destruct (decide (p < n ∧ q < n)%nat) as [[Hp Hq]|Hout].
    - rewrite !Hcells by done. simpl. f_equal. symmetry.
      by apply (sandwich_conj _ _ n).
    - rewrite !(cell_outside n) by (done || lia). done. }
  exists rho_e. split; [|done].
  unfold transformation. rewrite Hrun. simpl.
  by rewrite (hermitian_allclose n).
Qed.

Lemma transformation_hermitian_witness :
  ∃ rho_ebasis,
    transformation [[Complex 1 0; Complex 0 1]; [Complex 0 (-1); Complex 1 0]]
                   [[Complex 0 1; Complex 0 0]; [Complex 0 0; Complex 1 0]]
      = Ok (rho_ebasis, []).
Proof.
  destruct (transformation_hermitian
              [[Complex 1 0; Complex 0 1]; [Complex 0 (-1); Complex 1 0]]
              [[Complex 0 1; Complex 0 0]; [Complex 0 0; Complex 1 0]] 2)
    as (rho_e & Hrun & _).
  - split; [done|]. by repeat constructor.
  - split; [done|]. by repeat constructor.
  - intros [|[|p]] [|[|q]]; try done; try (by destruct p);
      try (by destruct q); simpl; repeat f_equal; by apply Qc_is_canon.
  - by exists rho_e.
Defined.

Lemma identity_total n k i :
  (k < n)%nat → (i < n)%nat →
  (identity n !!! k) !!! i = if decide (k = i) then Complex 1 0 else czero.
Proof.
  intros Hk Hi. unfold identity.
  rewrite (list_lookup_total_correct _ k
             ((λ j, if decide (k = j) then Complex 1 0 else czero)
                <$> seq 0 n))
    by by rewrite list_lookup_fmap, lookup_seq_lt.
  apply list_lookup_total_correct.
  by rewrite list_lookup_fmap, lookup_seq_lt.
Qed.

Lemma shape_identity n : shape n (identity n).
Proof.
  split.
  - unfold identity. by rewrite length_fmap, length_seq.
  - apply Forall_fmap, Forall_forall. intros i _. simpl.
    by rewrite length_fmap, length_seq.
Qed.

Lemma sandwich_identity rho n i j :
  shape n rho → (i < n)%nat → (j < n)%nat →
  sandwich rho (identity n) i j = (rho !!! i) !!! j.
Proof.
  intros Hrho Hi Hj. unfold sandwich. destruct Hrho as [-> _].
  rewrite (csum_ext _ (λ k, if decide (k = i) then (rho !!! k) !!! j
                            else czero)).
  - rewrite csum_point. by rewrite decide_True by lia.
  - intros k Hk%elem_of_seq.
    rewrite (csum_ext _ (λ l, if decide (l = j) then (rho !!! k) !!! l
                              else czero)).
    + rewrite csum_point, decide_True by lia.
      rewrite identity_total by lia.
      destruct (decide (k = i)); apply complex_eq; simpl; ring.
    + intros l Hl%elem_of_seq. rewrite identity_total by lia.
      destruct (decide (l = j)); [apply cmul_1_r|apply cmul_0_r].
Qed.

(** X14: with the identity matrix as eigenvector matrix [transformation]
    returns the matrix it was given. *)
Theorem transformation_identity rho_pbasis n :
  shape n rho_pbasis →
  ∃ out, transformation rho_pbasis (identity n) = Ok (rho_pbasis, out).
Proof.
  intros Hrho.
  destruct (transformation_loop rho_pbasis (identity n) n Hrho
              (shape_identity n)) as (rho_e & Hrun & Hshape & Hcells).
  assert (rho_e = rho_pbasis) as ->.
  { apply (matrix_ext_range n); [done..|]. intros i j Hi Hj.
    rewrite Hcells, (cell_total n rho_pbasis) by done.
    by rewrite sandwich_identity. }
  unfold transformation. rewrite Hrun. simpl.
  destruct (np_allclose _ _); eauto.
Qed.

Lemma transformation_identity_witness :
  ∃ out, transformation [[Complex 1 1; Complex 0 1]; [Complex 2 0; czero]]
                        (identity 2)
         = Ok ([[Complex 1 1; Complex 0 1]; [Complex 2 0; czero]], out).
Proof.
  apply (transformation_identity
           [[Complex 1 1; Complex 0 1]; [Complex 2 0; czero]] 2).
  split; [done|]. by repeat constructor.
Defined.

Lemma trace_real_csum n m :
  shape n m →
  trace_real m = re (csum ((λ p, (m !!! p) !!! p) <$> seq 0 n)).
Proof.
  intros Hm. rewrite (trace_real_shape n) by done.
  rewrite re_csum, <- list_fmap_compose.
  apply (f_equal qsum), list_fmap_ext. intros i p Hp. simpl.
  apply list_elem_of_lookup_2, elem_of_seq in Hp.
  by rewrite (cell_total n) by (done || lia).
Qed.

Lemma sandwich_trace rho u n :
  shape n rho → unitary n u →
  csum ((λ i, sandwich rho u i i) <$> seq 0 n)
  = csum ((λ k, (rho !!! k) !!! k) <$> seq 0 n).
Proof.
  intros Hrho Hun. unfold sandwich. destruct Hrho as [Hlen _].
  rewrite Hlen.
  rewrite (csum_ext _ (λ i, csum ((λ k, csum ((λ l,
             cmul (conj ((u !!! k) !!! i))
                  (cmul ((rho !!! k) !!! l) ((u !!! l) !!! i)))
             <$> seq 0 n)) <$> seq 0 n))).
  2:{ intros i _. apply csum_ext. intros k _. apply csum_cmul_l. }
  rewrite csum_swap. apply csum_ext. intros k Hk%elem_of_seq.
  rewrite csum_swap.
  rewrite (csum_ext _ (λ l, if decide (l = k) then (rho !!! k) !!! l
                            else czero)).
  - rewrite csum_point. by rewrite decide_True by lia.
  - intros l Hl%elem_of_seq.
    rewrite (csum_ext _ (λ i, cmul ((rho !!! k) !!! l)
               (cmul ((u !!! l) !!! i) (conj ((u !!! k) !!! i))))).
    + rewrite <- csum_cmul_l, Hun by lia.
      destruct (decide (k = l)) as [->|Hne].
      * rewrite decide_True by done. apply cmul_1_r.
      * rewrite decide_False by done. apply cmul_0_r.
    + intros i _. apply complex_eq; simpl; ring.
Qed.

(** X15: when the rows of [e_vecs_bd] are orthonormal (the matrix is
    unitary) [transformation] keeps the trace (in exact arithmetic): the
    trace check of the density matrix carries over to the energy basis. *)
Theorem transformation_trace rho_pbasis e_vecs_bd n :
  shape n rho_pbasis → shape n e_vecs_bd → unitary n e_vecs_bd →
  ∃ rho_ebasis out,
    transformation rho_pbasis e_vecs_bd = Ok (rho_ebasis, out) ∧
    trace_real rho_ebasis = trace_real rho_pbasis.
Proof.
  intros Hrho Hu Hun.
  destruct (transformation_loop rho_pbasis e_vecs_bd n Hrho Hu)
    as (rho_e & Hrun & Hshape & Hcells).
  assert (∃ out, transformation rho_pbasis e_vecs_bd = Ok (rho_e, out))
    as [out Hout].
  { unfold transformation. rewrite Hrun. simpl.
    destruct (np_allclose _ _); eauto. }
  exists rho_e, out. split; [done|].
  rewrite (trace_real_csum n rho_e), (trace_real_csum n rho_pbasis) by done.
  f_equal. rewrite <- (sandwich_trace rho_pbasis e_vecs_bd n) by done.
  apply csum_ext. intros p Hp%elem_of_seq.
  specialize (Hcells p p ltac:(lia) ltac:(lia)).
  rewrite (cell_total n) in Hcells by (done || lia). by injection Hcells.
Qed.

Lemma transformation_trace_witness :
  let c := λ x y : Z, Complex (Q2Qc (x # 5)) (Q2Qc (y # 5)) in
  let u := [[c 3 0; c 0 4]; [c 0 4; c 3 0]] in
  let rho := [[c 5 0; c 10 5]; [c 15 0; c 20 (-10)]] in
  shape 2 rho ∧ shape 2 u ∧ unitary 2 u ∧
  ∃ rho_ebasis out,
    transformation rho u = Ok (rho_ebasis, out) ∧
    trace_real rho_ebasis = Q2Qc 5.
Proof.
  intros c u rho.
  assert (shape 2 rho) as Hrho by (split; [done|by repeat constructor]).
  assert (shape 2 u) as Hu by (split; [done|by repeat constructor]).
  assert (unitary 2 u) as Hun.
  { intros k l Hk Hl.
    destruct k as [|[|k]]; [| |lia]; (destruct l as [|[|l]]; [| |lia]);
      apply complex_eq; by apply Qc_is_canon. }
  split; [done|]. split; [done|]. split; [done|].
  destruct (transformation_trace rho u 2 Hrho Hu Hun)
    as (rho_e & out & Hrun & Htr).
  exists rho_e, out. split; [done|]. rewrite Htr.
  by apply Qc_is_canon.
Defined.

Lemma for_each_fmap {A B S} (f : A → B) (l : list A)
    (body : B → S → result S) s :
  for_each (f <$> l) body s = for_each l (λ x, body (f x)) s.
Proof.
  revert s. induction l as [|x l IH]; intros s; [done|].
  rewrite fmap_cons. simpl. destruct (body (f x) s); [apply IH|done].
Qed.

Lemma range_cons start stop :
  (start < stop)%nat → range start stop = start :: range (S start) stop.
Proof.
  intros Hlt. unfold range.
  replace (stop - start)%nat with (S (stop - S start)) by lia.
  by rewrite <- cons_seq.
Qed.

Lemma range_split start mid stop :
  (start ≤ mid < stop)%nat →
  range start stop = range start mid ++ mid :: range (S mid) stop.
Proof.
  intros Hlt. unfold range.
  replace (stop - start)%nat
    with ((mid - start) + S (stop - S mid))%nat by lia.
  rewrite seq_app, <- cons_seq.
  by replace (start + (mid - start))%nat with mid by lia.
Qed.

Lemma column_error u i e : column u i = Raise e → e = IndexError.
Proof.
  unfold column.
  set (f := λ row : list complex, index row i).
  assert (∀ row y, f row = Raise y → y = IndexError) as Hf.
  { intros row y. unfold f, index. destruct (row !! i); congruence. }
  clearbody f. induction u as [|row u IH]; [done|].
  simpl. destruct (f row) as [y|e0] eqn:E; simpl.
  - destruct (mapM f u) as [col|e']; simpl; [done|].
    intros [= <-]. by apply IH.
  - intros [= <-]. by eapply Hf.
Qed.

Lemma for_each_range_raise {S} start stop (body : nat → S → result S) s e :
  (start < stop)%nat → body start s = Raise e →
  for_each (range start stop) body s = Raise e.
Proof.
  intros Hlt Hbody. rewrite range_cons by done. simpl. by rewrite Hbody.
Qed.

(** X16: the shapes are not checked beforehand.  With a matrix
    [rho_pbasis] of dimension [n >= 1], an eigenvector matrix with another
    number of rows (at least one, and rows long enough) makes the first
    product fail with [ValueError]; one with [n] rows but fewer than [n]
    columns makes a column access fail with [IndexError], after the entries
    before it were computed. *)
Theorem transformation_shape_errors rho_pbasis e_vecs_bd n :
  shape n rho_pbasis → (1 ≤ n)%nat →
  (length e_vecs_bd ≠ n → (1 ≤ length e_vecs_bd)%nat →
   Forall (λ row : list complex, (n ≤ length row)%nat) e_vecs_bd →
   transformation rho_pbasis e_vecs_bd = Raise ValueError) ∧
  (∀ c, length e_vecs_bd = n → (c < n)%nat →
   Forall (λ row : list complex, length row = c) e_vecs_bd →
   transformation rho_pbasis e_vecs_bd = Raise IndexError).
Proof.
  intros Hrho Hn. pose proof (ncols_shape _ _ Hrho) as Hcols.
  assert (length rho_pbasis = n) as Hlen by apply Hrho.
  unfold transformation. rewrite Hcols, Hlen. split.
  - intros Hrows _ Hlong.
    rewrite (range_cons 0 n) by lia. cbn [for_each].
    assert (column e_vecs_bd 0
            = Ok ((λ row : list complex, row !!! 0%nat) <$> e_vecs_bd))
      as Hcol.
    { apply mapM_ok. eapply Forall_impl; [done|]. simpl.
      intros row Hrow. unfold index.
      by rewrite list_lookup_lookup_total_lt by lia. }
    assert (np_dot rho_pbasis
              ((λ row : list complex, row !!! 0%nat) <$> e_vecs_bd)
            = Raise ValueError) as Hdot.
    { destruct rho_pbasis as [|row0 rho]; [simpl in Hlen; lia|].
      assert (length row0 = n) as Hrow0
        by (by apply (shape_row n (row0 :: rho) 0)).
      unfold np_dot. simpl.
      rewrite decide_False; [done|]. rewrite length_fmap. lia. }
    rewrite Hcol. simpl. by rewrite Hdot.
  - intros c Hul Hc Hur.
    erewrite for_each_range_raise; [done|lia|].
    rewrite (range_split 0 c n) by lia.
    rewrite for_each_app.
    destruct (transformation_cells rho_pbasis e_vecs_bd n c Hrho Hul Hur
                ltac:(lia) ((λ j, (0%nat, j)) <$> range 0 c)
                (zeros_like rho_pbasis))
      as (m & Hrun & _); [by apply shape_zeros_like|..].
    { apply Forall_fmap, Forall_forall. intros j Hj%elem_of_seq. simpl.
      lia. }
    rewrite for_each_fmap in Hrun. simpl in Hrun.
    rewrite Hrun. cbn [for_each mbind result_bind].
    assert (column e_vecs_bd c = Raise IndexError) as Hbad.
    { unfold column. destruct e_vecs_bd as [|row0 u]; [simpl in Hul; lia|].
      inversion Hur as [|?? Hrow0 _]. subst. simpl. unfold index.
      by rewrite lookup_ge_None_2 by lia. }
    destruct (column e_vecs_bd 0) as [ci|e] eqn:Hci; simpl.
    + by rewrite Hbad.
    + by rewrite (column_error _ _ _ Hci).
Qed.

Lemma transformation_shape_errors_witness :
  transformation [[Complex 1 0]] [[Complex 1 0]; [Complex 0 1]]
    = Raise ValueError ∧
  transformation [[Complex 1 0]] [[]] = Raise IndexError.
Proof.
  destruct (transformation_shape_errors [[Complex 1 0]]
              [[Complex 1 0]; [Complex 0 1]] 1) as [H1 _].
  { split; [done|]. by repeat constructor. }
  { lia. }
  destruct (transformation_shape_errors [[Complex 1 0]] [[]] 1) as [_ H2].
  { split; [done|]. by repeat constructor. }
  { lia. }
  split.
  - apply H1; [simpl; lia|simpl; lia|repeat constructor; simpl; lia].
  - apply (H2 0%nat); [done|lia|by repeat constructor].
Defined.

(** ** Further results: relabelling *)

(** X17: [relabel] stops at the first state that does not fit: with more
    than [nop] of its sites in A the counter array is indexed out of
    bounds ([IndexError]); otherwise its particles outside A outnumber the
    sites of B and [ncr] raises [ValueError]. *)
Theorem relabel_first_misfit done st rest nop nol_b lat_a :
  Z.of_nat (length done) + 1 < 2 ^ 31 →
  Forall (fits lat_a nop nol_b) done → ¬ fits lat_a nop nol_b st →
  relabel (done ++ st :: rest) nop nol_b lat_a =
    Raise (if decide (nop < length (pattern lat_a st))%nat
           then IndexError else ValueError).
Proof.
  intros Hsmall Hfits Hmis. unfold relabel. rewrite for_each_app.
  destruct (relabel_loop_ok lat_a nop nol_b done [] _
              (relabel_inv_init lat_a nop nol_b)) as [s Hrun];
    [simpl; lia|done|].
  destruct (relabel_loop_inv lat_a nop nol_b done [] _ s
              (relabel_inv_init lat_a nop nol_b)) as [Hinv _];
    [simpl; lia|done|].
  rewrite Hrun. simpl.
  destruct Hinv as (Hl0 & Hl1 & Hdump & Hx0 & Hx1 & _).
  assert (relabel_body nop nol_b lat_a st s =
            Raise (if decide (nop < length (pattern lat_a st))%nat
                   then IndexError else ValueError)) as ->; [|done].
  unfold relabel_body. fold (pattern lat_a st).
  set (n := length (pattern lat_a st)) in *.
  destruct (decide (nop < n)%nat) as [Hbig|Hle].
  - unfold index. by rewrite (lookup_ge_None_2 (x1 s) n) by lia.
  - assert (nol_b < nop - n)%nat as Hb by (unfold fits in Hmis; lia).
    unfold index. rewrite Hx1 by lia. simpl.
    rewrite list_lookup_insert_eq by lia.
    rewrite ncr_cases, decide_False by lia.
    destruct (decide (pattern lat_a st ∈ dump s)); simpl.
    + by rewrite Hx0 by lia.
    + rewrite Hx0 by lia. simpl.
      by rewrite list_lookup_insert_eq by lia.
Qed.

Lemma relabel_first_misfit_witness :
  relabel [[1; 3]; [1; 2]; [3; 4]] 1 2 [1; 2] = Raise IndexError ∧
  relabel [[3; 4; 5]] 3 2 [1; 2] = Raise ValueError.
Proof.
  split.
  - pose proof (relabel_first_misfit [[1; 3]] [1; 2] [[3; 4]] 1 2 [1; 2])
      as H.
    rewrite decide_True in H by (vm_compute; lia). apply H.
    + simpl. lia.
    + repeat constructor; vm_compute; lia.
    + intros [H' _]. vm_compute in H'. lia.
  - pose proof (relabel_first_misfit [] [3; 4; 5] [] 3 2 [1; 2]) as H.
    rewrite decide_False in H by (vm_compute; lia). apply H.
    + simpl. lia.
    + constructor.
    + intros [_ H']. vm_compute in H'. lia.
Defined.

Lemma pattern_idemp lat_a st :
  pattern lat_a (pattern lat_a st) = pattern lat_a st.
Proof.
  unfold pattern. apply filter_all, Forall_forall.
  by intros x [Hx _]%list_elem_of_filter.
Qed.

(** X18: [relabel] looks at nothing but the sites a state has in A: two
    state spaces whose states have, one by one, the same sites in A get
    the same table (or the same exception), wherever their other particles
    sit. *)
Theorem relabel_patterns_only e1 e2 nop nol_b lat_a :
  pattern lat_a <$> e1 = pattern lat_a <$> e2 →
  relabel e1 nop nol_b lat_a = relabel e2 nop nol_b lat_a.
Proof.
  intros Hpat.
  assert (∀ e, relabel e nop nol_b lat_a
               = relabel (pattern lat_a <$> e) nop nol_b lat_a) as Hrel.
  { intros e. unfold relabel. rewrite for_each_fmap.
    f_equal. apply for_each_ext. intros st s.
    unfold relabel_body. fold (pattern lat_a st).
    fold (pattern lat_a (pattern lat_a st)). by rewrite pattern_idemp. }
  by rewrite (Hrel e1), (Hrel e2), Hpat.
Qed.

Lemma relabel_patterns_only_witness :
  relabel [[1; 3]; [2; 3]] 2 2 [1; 2] = relabel [[1; 4]; [2; 4]] 2 2 [1; 2].
Proof. by apply relabel_patterns_only. Defined.

(** ** Further results: the two density matrices *)

Lemma index_exchange nop (label : list label_row) i :
  index (exchange nop <$> label) i = (l ← index label i; Ok (exchange nop l)).
Proof.
  unfold index. rewrite list_lookup_fmap. by destruct (label !! i).
Qed.

Lemma index_b_exchange n nop l :
  index_b n nop (exchange nop l) = index_a n l.
Proof.
  unfold index_b, index_a, exchange. simpl.
  by replace (Z.of_nat nop - (Z.of_nat nop - a_count l)) with (a_count l)
    by lia.
Qed.

Lemma same_b_exchange nop li lj :
  same_b (exchange nop li) (exchange nop lj) = same_a li lj.
Proof.
  unfold same_b, same_a, exchange. simpl. f_equal.
  destruct (Z.eqb_spec (a_count li) (a_count lj)) as [->|Hne].
  - apply Z.eqb_refl.
  - apply Z.eqb_neq. lia.
Qed.

(** X19: [density_matrix_a] is [rho_b_pbasis] with the parts of A and B
    exchanged in the table (the A-index and the B-index swapped, the
    particle number of A replaced by that of B): the two accumulation
    loops give the same result on every input, and whenever
    [density_matrix_a] returns a matrix [rho_b_pbasis] returns the same
    one without printing. *)
Theorem density_matrix_a_exchange label e_vec nos nol_a nop :
  density_loop_a label e_vec nos nol_a nop
  = rho_loop_b (exchange nop <$> label) e_vec nos nol_a nop ∧
  ∀ rho out,
    density_matrix_a label e_vec nos nol_a nop = Ok (rho, out) →
    out = [] ∧
    rho_b_pbasis (exchange nop <$> label) e_vec nos nol_a nop = Ok (rho, []).
Proof.
  assert (density_loop_a label e_vec nos nol_a nop
          = rho_loop_b (exchange nop <$> label) e_vec nos nol_a nop) as Hloop.
  { unfold density_loop_a, rho_loop_b.
    destruct (sum_ncr _ _) as [dim|]; [|done]. simpl.
    apply for_each_ext. intros i rho. apply for_each_ext. intros j rho'.
    change (density_body_a label e_vec nol_a i j rho')
      with (accumulate_body same_a (index_a nol_a) label e_vec i j rho').
    change (rho_body_b (exchange nop <$> label) e_vec nol_a nop i j rho')
      with (accumulate_body same_b (index_b nol_a nop)
              (exchange nop <$> label) e_vec i j rho').
    unfold accumulate_body. rewrite !index_exchange.
    destruct (index label i) as [li|]; [|done].
    destruct (index label j) as [lj|]; [|done].
    cbn [mbind result_bind].
    by rewrite same_b_exchange, !index_b_exchange. }
  split; [done|]. intros rho out.
  unfold density_matrix_a, rho_b_pbasis. rewrite <- Hloop.
  destruct (density_loop_a label e_vec nos nol_a nop) as [m|]; [|done].
  simpl. destruct (decide (tolerance < fabs (trace_real m - 1))%Qc); [done|].
  by intros [= <- <-].
Qed.

Lemma density_matrix_a_exchange_witness :
  rho_b_pbasis (exchange 1 <$> [LabelRow 1 1 1; LabelRow 1 0 1])
    [Complex 1 0; czero] 2 1 1
  = Ok ([[czero; czero]; [czero; Complex 1 0]], []).
Proof.
  destruct (density_matrix_a_exchange [LabelRow 1 1 1; LabelRow 1 0 1]
              [Complex 1 0; czero] 2 1 1) as [_ H].
  apply (H _ []).
  vm_compute. repeat f_equal; by apply Qc_is_canon.
Defined.

Lemma csum_single {A} `{EqDecision A} (f : A → complex) (x0 : A) l :
  NoDup l → (∀ x, x ∈ l → x ≠ x0 → f x = czero) →
  csum (f <$> l) = if decide (x0 ∈ l) then f x0 else czero.
Proof.
  induction 1 as [|x l Hx Hnd IH]; intros Hf.
  - by rewrite decide_False by apply not_elem_of_nil.
  - rewrite fmap_cons, csum_cons, IH by (intros y Hy; apply Hf; by right).
    destruct (decide (x = x0)) as [->|Hne].
    + rewrite decide_False by done. rewrite decide_True by left.
      apply cadd_0_r.
    + rewrite (Hf x) by (done || left). rewrite cadd_0_l.
      destruct (decide (x0 ∈ l)).
      * by rewrite decide_True by by right.
      * rewrite decide_False; [done|].
        rewrite elem_of_cons. by intros [->|?].
Qed.

Lemma basis_vector_total nos s i :
  (i < nos)%nat →
  basis_vector nos s !!! i = if decide (i = s) then Complex 1 0 else czero.
Proof.
  intros Hi. apply list_lookup_total_correct. unfold basis_vector.
  by rewrite list_lookup_fmap, lookup_seq_lt.
Qed.

Section BasisState.
Variables (same : label_row → label_row → bool) (pos : label_row → result Z).
Variables (label : list label_row) (dim s : nat).
Hypothesis Hpos : ∀ row, row ∈ label →
  ∃ p, pos row = Ok (Z.of_nat p) ∧ (p < dim)%nat.
Hypothesis same_refl : ∀ a, same a a = true.
Hypothesis Hs : (s < length label)%nat.

(** The matrix the accumulation loops give for the basis state [s]: a
    single 1 on the diagonal, at the index of that state. *)
Lemma accumulate_basis :
  ∃ rho,
    for_each (range 0 (length label)) (λ i rho,
      for_each (range 0 (length label)) (λ j rho,
        accumulate_body same pos label (basis_vector (length label) s) i j rho)
        rho) (czeros dim) = Ok rho ∧
    shape dim rho ∧
    (posn pos (label !!! s) < dim)%nat ∧
    (∀ p q, (p < dim)%nat → (q < dim)%nat →
       cell rho p q =
         Some (if decide (p = posn pos (label !!! s)
                          ∧ q = posn pos (label !!! s))
               then Complex 1 0 else czero)) ∧
    trace_real rho = 1%Qc.
Proof.
  assert (length (basis_vector (length label) s) = length label) as Hvec
    by (unfold basis_vector; by rewrite length_fmap, length_seq).
  destruct (accumulate_loops same pos label _ dim Hvec Hpos)
    as (rho & Hrun & Hshape & Hcells & _).
  set (ps := posn pos (label !!! s)).
  assert (ps < dim)%nat as Hps.
  { apply (pos_posn pos label dim Hpos).
    by apply list_elem_of_lookup_total_2. }
  assert (∀ p q, (p < dim)%nat → (q < dim)%nat →
            cell rho p q =
              Some (if decide (p = ps ∧ q = ps)
                    then Complex 1 0 else czero)) as Hcell.
  { intros p q Hp Hq. rewrite Hcells by done. f_equal.
    rewrite (csum_single _ (s, s)).
    - destruct (decide (p = ps ∧ q = ps)) as [[-> ->]|Hne].
      + rewrite decide_True.
        * unfold term. simpl. rewrite basis_vector_total by done.
          rewrite decide_True by done. apply complex_eq; simpl; ring.
        * apply list_elem_of_filter. split; [|by apply elem_of_all_cells].
          unfold contributes. simpl. by rewrite same_refl.
      + rewrite decide_False; [done|].
        intros [(_ & Hp' & Hq') _]%list_elem_of_filter. simpl in *.
        apply Hne. by subst.
    - apply NoDup_filter, NoDup_all_cells.
    - intros [i j] [_ [Hi Hj]%elem_of_all_cells]%list_elem_of_filter Hne.
      unfold term. simpl. rewrite !basis_vector_total by done.
      destruct (decide (i = s)) as [->|Hi'], (decide (j = s)) as [->|Hj'];
        try done; apply complex_eq; simpl; ring. }
  exists rho. split; [done|]. split; [done|]. split; [done|].
  split; [done|].
  rewrite (trace_real_shape dim) by done.
  rewrite (qsum_ext _ (λ p, 0 + if decide (p = ps) then 1 else 0)%Qc).
  - rewrite (qsum_seq_point (λ _, 0%Qc) ps 1%Qc).
    rewrite qsum_zero, decide_True by lia. ring.
  - intros p Hp%elem_of_seq. rewrite Hcell by lia. simpl.
    destruct (decide (p = ps)) as [->|Hne].
    + rewrite decide_True by done. simpl. ring.
    + rewrite decide_False by tauto. simpl. ring.
Qed.

End BasisState.

(** X20: for a basis state (the coefficient vector with a single 1) of a
    state space relabelled by [relabel], both reduced density matrices are
    the projector on the part of that state in the sub-lattice: a single 1
    on the diagonal, at the index of the state, and 0 elsewhere; the trace
    is 1 and both functions return without a diagnostic, also when other
    states share the row of the table. *)
Theorem basis_state_projector e_states nop nol_b lat_a label s :
  Z.of_nat (length e_states) < 2 ^ 31 →
  Forall (StronglySorted Z.lt) e_states → NoDup lat_a →
  relabel e_states nop nol_b lat_a = Ok label →
  (nop ≤ length lat_a)%nat → (nop ≤ nol_b)%nat → (s < length label)%nat →
  let e_vec := basis_vector (length label) s in
  let dim_a := Z.to_nat (sum_binom (length lat_a) (nop + 1)) in
  let dim_b := Z.to_nat (sum_binom nol_b (nop + 1)) in
  ∃ rho_a rho_b pa pb,
    density_matrix_a label e_vec (length label) (length lat_a) nop
      = Ok (rho_a, []) ∧
    rho_b_pbasis label e_vec (length label) nol_b nop = Ok (rho_b, []) ∧
    index_a (length lat_a) (label !!! s) = Ok (Z.of_nat pa) ∧
    index_b nol_b nop (label !!! s) = Ok (Z.of_nat pb) ∧
    (pa < dim_a)%nat ∧ (pb < dim_b)%nat ∧
    (∀ p q, (p < dim_a)%nat → (q < dim_a)%nat →
       cell rho_a p q =
         Some (if decide (p = pa ∧ q = pa) then Complex 1 0 else czero)) ∧
    (∀ p q, (p < dim_b)%nat → (q < dim_b)%nat →
       cell rho_b p q =
         Some (if decide (p = pb ∧ q = pb) then Complex 1 0 else czero)).
Proof.
  intros Hsmall Hsorted Hnd Hrun Hna Hnb Hs e_vec dim_a dim_b.
  subst e_vec.
  destruct (density_indices_in_bounds_aux e_states nop nol_b lat_a label
              Hsmall Hsorted Hnd Hrun) as [Hia Hib].
  pose proof (sum_ncr_sum_binom (length lat_a) (nop + 1) ltac:(lia)) as Hda.
  pose proof (sum_ncr_sum_binom nol_b (nop + 1) ltac:(lia)) as Hdb.
  replace (Z.of_nat (nop + 1)) with (Z.of_nat nop + 1) in Hda, Hdb by lia.
  assert (∀ row, row ∈ label →
            ∃ p, index_a (length lat_a) row = Ok (Z.of_nat p)
                 ∧ (p < dim_a)%nat) as Hpa.
  { intros row Hin. destruct (Hia _ Hda row Hin) as (m & Hm & Hrange).
    exists (Z.to_nat m). rewrite Z2Nat.id by lia.
    split; [done|]. unfold dim_a. lia. }
  assert (∀ row, row ∈ label →
            ∃ p, index_b nol_b nop row = Ok (Z.of_nat p)
                 ∧ (p < dim_b)%nat) as Hpb.
  { intros row Hin. destruct (Hib _ Hdb row Hin) as (m & Hm & Hrange).
    exists (Z.to_nat m). rewrite Z2Nat.id by lia.
    split; [done|]. unfold dim_b. lia. }
  destruct (accumulate_basis same_a (index_a (length lat_a)) label dim_a s
              Hpa same_a_refl Hs) as (rho_a & Hra & _ & Hlta & Hca & Hta).
  destruct (accumulate_basis same_b (index_b nol_b nop) label dim_b s
              Hpb same_b_refl Hs) as (rho_b & Hrb & _ & Hltb & Hcb & Htb).
  rewrite <- (density_loop_a_accumulate _ _ _ _ _ _ Hda) in Hra.
  rewrite <- (rho_loop_b_accumulate _ _ _ _ _ _ Hdb) in Hrb.
  assert (label !!! s ∈ label) as Hin by by apply list_elem_of_lookup_total_2.
  exists rho_a, rho_b, (posn (index_a (length lat_a)) (label !!! s)),
    (posn (index_b nol_b nop) (label !!! s)).
  split; [|split; [|split; [|split; [|done]]]].
  - unfold density_matrix_a. rewrite Hra. simpl. rewrite Hta.
    by rewrite decide_False by apply within_tolerance.
  - unfold rho_b_pbasis. rewrite Hrb. simpl. rewrite Htb.
    by rewrite decide_False by apply within_tolerance.
  - by apply (pos_posn _ label dim_a Hpa).
  - by apply (pos_posn _ label dim_b Hpb).
Qed.

Lemma basis_state_projector_witness :
  ∃ rho_b,
    rho_b_pbasis [LabelRow 1 1 1; LabelRow 1 0 1; LabelRow 1 0 2]
      (basis_vector 3 2) 3 2 1 = Ok (rho_b, []) ∧
    cell rho_b 2 2 = Some (Complex 1 0).
Proof.
  destruct (basis_state_projector [[1]; [2]; [3]] 1 2 [1]
              [LabelRow 1 1 1; LabelRow 1 0 1; LabelRow 1 0 2] 2%nat)
    as (rho_a & rho_b & pa & pb & _ & Hb & _ & Hpb & _ & _ & _ & Hcb).
  - simpl. lia.
  - repeat constructor; lia.
  - by apply (bool_decide_unpack _).
  - reflexivity.
  - simpl. lia.
  - lia.
  - simpl. lia.
  - exists rho_b. split; [done|].
    assert (Ok (Z.of_nat pb) = Ok 2) as E by (by rewrite <- Hpb).
    injection E as E. assert (pb = 2%nat) as -> by lia.
    rewrite Hcb by (vm_compute; lia). by rewrite decide_True.
Defined.

(** ** Further results: the thermalisation diagnostic *)

(** X21: an array without entries has no maximum: on an empty matrix
    [naive_thermal] raises [ValueError] at the first [max()], before any
    copy is made; the heap is as it was. *)
Theorem naive_thermal_empty `{Dtype E} (σ : heap E) rho :
  σ !! rho = Some [] →
  run (naive_thermal rho) σ = (Raise ValueError, σ).
Proof.
  intros Hrho. unfold naive_thermal.
  rewrite run_bind, (run_load _ _ _ Hrho). by rewrite run_bind.
Qed.

Lemma naive_thermal_empty_witness :
  run (naive_thermal 0) ([[]] : heap efloat) = (Raise ValueError, [[]]).
Proof. by apply naive_thermal_empty. Defined.

(** ** Further results: deleting sites and the full state space *)

Lemma filter_Forall_cons {A} (P : A → Prop) `{∀ x, Decision (P x)}
    (x : A) (L : list (list A)) :
  filter (Forall P) (cons x <$> L)
  = if decide (P x) then cons x <$> filter (Forall P) L else [].
Proof.
  induction L as [|c L IH]; [by destruct (decide (P x))|].
  rewrite fmap_cons, !filter_cons, IH.
  destruct (decide (P x)) as [Hx|Hx].
  - destruct (decide (Forall P c)) as [Hc|Hc].
    + rewrite decide_True by by constructor. done.
    + rewrite decide_False; [done|]. by inversion 1.
  - rewrite decide_False; [done|]. by inversion 1.
Qed.

(** The combinations of the elements that are kept are the combinations
    made of kept elements only, in the same order. *)
Lemma combinations_filter {A} (P : A → Prop) `{∀ x, Decision (P x)}
    (l : list A) r :
  combinations (filter P l) r = filter (Forall P) (combinations l r).
Proof.
  revert r. induction l as [|x l IH]; intros [|r]; try done.
  - rewrite (combinations_0 (filter P (x :: l))), (combinations_0 (x :: l)).
    by rewrite filter_cons_True by constructor.
  - change (combinations (x :: l) (S r))
      with ((cons x <$> combinations l r) ++ combinations l (S r)).
    rewrite filter_app, filter_Forall_cons, <- !IH, filter_cons.
    destruct (decide (P x)); [|done].
    done.
Qed.

Lemma filter_ext_in {A} (P Q : A → Prop) `{∀ x, Decision (P x)}
    `{∀ x, Decision (Q x)} (l : list A) :
  (∀ x, x ∈ l → (P x ↔ Q x)) → filter P l = filter Q l.
Proof.
  induction l as [|x l IH]; intros Hpq; [done|].
  rewrite !filter_cons, IH by (intros y Hy; apply Hpq; by right).
  destruct (decide (P x)) as [Hp|Hp].
  - by rewrite decide_True by (apply Hpq; [left|done]).
  - rewrite decide_False; [done|]. intros Hq. apply Hp, Hpq; [left|done].
Qed.

(** A sub-sequence of a duplicate-free list is the list filtered by
    membership in it. *)
Lemma sublist_filter_eq (l' l : list Z) :
  l' `sublist_of` l → NoDup l → l' = filter (λ x, x ∈ l') l.
Proof.
  induction 1 as [|x l' l Hsub IH|x l' l Hsub IH]; intros Hnd.
  - done.
  - apply NoDup_cons in Hnd as [Hx Hnd].
    rewrite filter_cons_True by left. f_equal.
    rewrite (IH Hnd) at 1. apply filter_ext_in. intros y Hy.
    rewrite elem_of_cons. split; [tauto|]. intros [->|?]; done.
  - apply NoDup_cons in Hnd as [Hx Hnd].
    rewrite filter_cons_False; [by apply IH|].
    intros Hin. apply Hx. by eapply elem_of_sublist.
Qed.

(** X24: deleting sites filters the state space: for an ascending lattice
    of [int32] labels and in-range deletion positions, the states
    [position_states] returns are the states of the full state space that
    occupy none of the deleted sites, in the order they have there. *)
Theorem position_states_deletion_filters lat nop del_pos :
  StronglySorted Z.lt lat → Forall int32 lat →
  Forall (λ p, 1 ≤ p ≤ Z.of_nat (length lat)) del_pos →
  let deleted := (λ p, lat !!! Z.to_nat (p - 1)) <$> del_pos in
  ∃ full states,
    position_states lat nop None = Ok (full, length full) ∧
    position_states lat nop (Some del_pos) = Ok (states, length states) ∧
    states = filter (Forall (λ x, x ∉ deleted)) full ∧
    states `sublist_of` full.
Proof.
  intros Hsorted Hint Hpos deleted.
  pose proof (sorted_lt_NoDup _ Hsorted) as Hnd.
  destruct (np_delete_positions lat del_pos Hnd Hpos)
    as (lat_del & Hdel & Hsub & Hmem & _).
  assert (lat_del = filter (λ x, x ∉ deleted) lat) as Hkept.
  { rewrite (sublist_filter_eq lat_del lat Hsub Hnd) at 1.
    apply filter_ext_in. intros x Hx.
    apply list_elem_of_lookup in Hx as [i Hi].
    rewrite (Hmem i x Hi). unfold deleted.
    rewrite list_elem_of_fmap. split.
    - intros Hni (p & Hx & Hp). apply Hni.
      rewrite Forall_forall in Hpos. specialize (Hpos p Hp).
      assert (lat !! Z.to_nat (p - 1) = Some x) as Hlook.
      { rewrite Hx. apply list_lookup_lookup_total_lt. lia. }
      rewrite (NoDup_lookup lat i (Z.to_nat (p - 1)) x Hnd Hi Hlook).
      by replace (Z.of_nat (Z.to_nat (p - 1)) + 1) with p by lia.
    - intros Hnd' Hin. apply Hnd'. exists (Z.of_nat i + 1). split; [|done].
      replace (Z.to_nat (Z.of_nat i + 1 - 1)) with i by lia.
      symmetry. by apply list_lookup_total_correct. }
  assert (Forall int32 lat_del) as Hint'.
  { rewrite Forall_forall in *. intros x Hx. apply Hint.
    by eapply elem_of_sublist. }
  exists (combinations lat nop),
    (filter (Forall (λ x, x ∉ deleted)) (combinations lat nop)).
  split; [|split; [|split; [done|apply sublist_filter]]].
  - unfold position_states. by rewrite cast_states_id.
  - unfold position_states. rewrite Hdel. simpl.
    rewrite cast_states_id by done.
    by rewrite Hkept, combinations_filter.
Qed.

Lemma position_states_deletion_filters_witness :
  position_states [1; 2; 3; 4] 2 (Some [2])
  = Ok ([[1; 3]; [1; 4]; [3; 4]], 3%nat).
Proof.
  destruct (position_states_deletion_filters [1; 2; 3; 4] 2 [2])
    as (full & states & Hfull & Hrun & Hfilter & _).
  - repeat constructor; lia.
  - repeat constructor; unfold int32; lia.
  - repeat constructor; simpl; lia.
  - rewrite Hrun. injection Hfull as <-. by rewrite Hfilter.
Defined.

(** ** Further results: to the energy basis and back *)

Lemma adjoint_total n (u : list (list complex)) k i :
  shape n u → (k < n)%nat → (i < n)%nat →
  (np_transpose (np_conjugate u) !!! k) !!! i = conj ((u !!! i) !!! k).
Proof.
  intros Hu Hk Hi.
  pose proof (shape_np_conjugate _ _ Hu) as Hc.
  destruct (np_transpose_cells n _ Hc) as [Ht Hcells].
  specialize (Hcells k i).
  rewrite cell_np_conjugate, !(cell_total n) in Hcells by done.
  simpl in Hcells. by injection Hcells.
Qed.

Lemma shape_adjoint n (u : list (list complex)) :
  shape n u → shape n (np_transpose (np_conjugate u)).
Proof.
  intros Hu. by apply np_transpose_cells, shape_np_conjugate.
Qed.

(** The two products of a round trip collapse when [u] is unitary. *)
Lemma sandwich_round_trip rho rho_e u n i j :
  shape n rho → shape n rho_e → shape n u → unitary n u →
  (∀ k l, (k < n)%nat → (l < n)%nat →
     (rho_e !!! k) !!! l = sandwich rho u k l) →
  (i < n)%nat → (j < n)%nat →
  sandwich rho_e (np_transpose (np_conjugate u)) i j = (rho !!! i) !!! j.
Proof.
  intros Hrho Hrhoe Hu Hun He Hi Hj. unfold sandwich at 1.
  assert (length rho_e = n) as -> by apply Hrhoe.
  (* the inner sum: [rho_e] times the conjugate of row [j] of [u] *)
  assert (∀ k, (k < n)%nat →
            csum ((λ l, cmul ((rho_e !!! k) !!! l)
                     ((np_transpose (np_conjugate u) !!! l) !!! j))
                    <$> seq 0 n)
            = csum ((λ a, cmul (conj ((u !!! a) !!! k)) ((rho !!! a) !!! j))
                      <$> seq 0 n)) as Hinner.
  { intros k Hk.
    rewrite (csum_ext _ (λ l, csum ((λ a,
               cmul (conj ((u !!! a) !!! k))
                 (csum ((λ b, cmul ((rho !!! a) !!! b)
                           (cmul ((u !!! b) !!! l) (conj ((u !!! j) !!! l))))
                          <$> seq 0 n))) <$> seq 0 n))).
    2:{ intros l Hl%elem_of_seq.
        rewrite He, (adjoint_total n) by (done || lia).
        unfold sandwich. assert (length rho = n) as -> by apply Hrho.
        rewrite csum_cmul_r. apply csum_ext. intros a _.
        rewrite <- cmul_assoc. f_equal.
        rewrite csum_cmul_r. apply csum_ext. intros b _.
        by rewrite cmul_assoc. }
    rewrite csum_swap. apply csum_ext. intros a Ha%elem_of_seq.
    rewrite <- csum_cmul_l. f_equal.
    rewrite csum_swap.
    rewrite (csum_ext _ (λ b, if decide (b = j) then (rho !!! a) !!! b
                              else czero)).
    - rewrite csum_point. by rewrite decide_True by lia.
    - intros b Hb%elem_of_seq. rewrite <- csum_cmul_l, Hun by lia.
      destruct (decide (j = b)) as [->|Hne].
      + rewrite decide_True by done. apply cmul_1_r.
      + rewrite decide_False by done. apply cmul_0_r. }
  rewrite (csum_ext _ (λ k, csum ((λ a,
             cmul (cmul ((u !!! i) !!! k) (conj ((u !!! a) !!! k)))
                  ((rho !!! a) !!! j)) <$> seq 0 n))).
  2:{ intros k Hk%elem_of_seq.
      rewrite Hinner, (adjoint_total n), conj_conj by (done || lia).
      rewrite csum_cmul_l. apply csum_ext. intros a _.
      by rewrite cmul_assoc. }
  rewrite csum_swap.
  rewrite (csum_ext _ (λ a, if decide (a = i) then (rho !!! a) !!! j
                            else czero)).
  - rewrite csum_point. by rewrite decide_True by lia.
  - intros a Ha%elem_of_seq. rewrite <- csum_cmul_r, Hun by lia.
    destruct (decide (a = i)) as [->|Hne].
    + apply cmul_1_l.
    + apply cmul_0_l.
Qed.

(** X25: a round trip: when [e_vecs_bd] is unitary, transforming the
    result of [transformation] back with the conjugate transpose of
    [e_vecs_bd] returns the original matrix (in exact arithmetic). *)
Theorem transformation_round_trip rho_pbasis e_vecs_bd n :
  shape n rho_pbasis → shape n e_vecs_bd → unitary n e_vecs_bd →
  ∃ rho_ebasis out out',
    transformation rho_pbasis e_vecs_bd = Ok (rho_ebasis, out) ∧
    transformation rho_ebasis (np_transpose (np_conjugate e_vecs_bd))
      = Ok (rho_pbasis, out').
Proof.
  intros Hrho Hu Hun.
  destruct (transformation_loop rho_pbasis e_vecs_bd n Hrho Hu)
    as (rho_e & Hrun & Hshape & Hcells).
  destruct (transformation_loop rho_e _ n Hshape (shape_adjoint n _ Hu))
    as (back & Hrun' & Hshape' & Hcells').
  assert (back = rho_pbasis) as ->.
  { apply (matrix_ext_range n); [done..|]. intros i j Hi Hj.
    rewrite Hcells', (cell_total n rho_pbasis) by done. f_equal.
    apply (sandwich_round_trip rho_pbasis rho_e e_vecs_bd n); try done.
    intros k l Hk Hl. specialize (Hcells k l Hk Hl).
    rewrite (cell_total n) in Hcells by done. by injection Hcells. }
  assert (∃ out, transformation rho_pbasis e_vecs_bd = Ok (rho_e, out))
    as [out Hout].
  { unfold transformation. rewrite Hrun. simpl.
    destruct (np_allclose _ _); eauto. }
  assert (∃ out', transformation rho_e
                    (np_transpose (np_conjugate e_vecs_bd))
                  = Ok (rho_pbasis, out')) as [out' Hout'].
  { unfold transformation. rewrite Hrun'. simpl.
    destruct (np_allclose _ _); eauto. }
  by exists rho_e, out, out'.
Qed.

Lemma transformation_round_trip_witness :
  let c := λ x y : Z, Complex (Q2Qc (x # 5)) (Q2Qc (y # 5)) in
  let u := [[c 3 0; c 0 4]; [c 0 4; c 3 0]] in
  let rho := [[c 5 0; c 10 5]; [c 15 0; c 20 (-10)]] in
  shape 2 rho ∧ shape 2 u ∧ unitary 2 u ∧
  ∃ rho_ebasis out out',
    transformation rho u = Ok (rho_ebasis, out) ∧
    rho_ebasis ≠ rho ∧
    transformation rho_ebasis (np_transpose (np_conjugate u))
      = Ok (rho, out').
Proof.
  intros c u rho.
  assert (shape 2 rho) as Hrho by (split; [done|by repeat constructor]).
  assert (shape 2 u) as Hu by (split; [done|by repeat constructor]).
  assert (unitary 2 u) as Hun.
  { intros k l Hk Hl.
    destruct k as [|[|k]]; [| |lia]; (destruct l as [|[|l]]; [| |lia]);
      apply complex_eq; by apply Qc_is_canon. }
  split; [done|]. split; [done|]. split; [done|].
  destruct (transformation_round_trip rho u 2 Hrho Hu Hun)
    as (rho_e & out & out' & Hrun & Hback).
  exists rho_e, out, out'. split; [done|]. split; [|done].
  intros ->.
  assert (match transformation rho u with
          | Ok (r, _) => r
          | Raise _ => []
          end = rho) as Hval by (by rewrite Hrun).
  vm_compute in Hval. discriminate Hval.
Defined.

(** ** Further results: the populations *)

Lemma csum_filter {A} (P : A → Prop) `{∀ x, Decision (P x)}
    (f : A → complex) (l : list A) :
  csum (f <$> filter P l)
  = csum ((λ x, if decide (P x) then f x else czero) <$> l).
Proof.
  induction l as [|x l IH]; [done|].
  rewrite filter_cons, fmap_cons, csum_cons.
  destruct (decide (P x)).
  - by rewrite fmap_cons, csum_cons, IH.
  - by rewrite IH, cadd_0_l.
Qed.

Lemma csum_bind {A B} (h : B → complex) (g : A → list B) (l : list A) :
  csum (h <$> (l ≫= g)) = csum ((λ x, csum (h <$> g x)) <$> l).
Proof.
  induction l as [|x l IH]; [done|].
  by rewrite bind_cons, fmap_app, csum_app, IH.
Qed.

Lemma csum_all_cells (F : nat * nat → complex) n :
  csum (F <$> all_cells n)
  = csum ((λ i, csum ((λ j, F (i, j)) <$> seq 0 n)) <$> seq 0 n).
Proof.
  unfold all_cells, range. rewrite Nat.sub_0_r, csum_bind.
  apply csum_ext. intros i _. rewrite csum_bind.
  apply csum_ext. intros j _. simpl. apply cadd_0_r.
Qed.

Lemma im_csum l : im (csum l) = qsum (im <$> l).
Proof. induction l as [|x l IH]; [done|]. simpl. by rewrite IH. Qed.

Lemma qsum_nonneg {A} (f : A → Qc) (l : list A) :
  (∀ x, 0 ≤ f x)%Qc → (0 ≤ qsum (f <$> l))%Qc.
Proof.
  intros Hf. induction l as [|x l IH]; [done|].
  rewrite fmap_cons, qsum_cons. by apply Qc_add_nonneg.
Qed.

Lemma vdot_csum {A B} (f : A → complex) (g : B → complex) la lb :
  vdot (csum (f <$> la)) (csum (g <$> lb))
  = csum ((λ y, csum ((λ x, vdot (f x) (g y)) <$> la)) <$> lb).
Proof.
  unfold vdot. rewrite csum_cmul_l. apply csum_ext. intros y _.
  rewrite conj_csum, <- list_fmap_compose. by rewrite csum_cmul_r.
Qed.

Section Populations.
Context {K : Type} `{EqDecision K}.
Variables (same : label_row → label_row → bool) (pos : label_row → result Z).
Variables (label : list label_row) (e_vec : list complex).
Variable key : label_row → K.
Hypothesis Hkey : ∀ a b, same a b = true ↔ key a = key b.

Lemma contribution_shares p i j :
  (i < length label)%nat →
  (if decide (contributes same pos label p p (i, j))
   then term e_vec (i, j) else czero)
  = csum ((λ t, vdot (share pos label e_vec key p t j)
                     (share pos label e_vec key p t i))
            <$> remove_dups (key <$> label)).
Proof.
  intros Hi.
  rewrite (csum_single _ (key (label !!! i))).
  - destruct (decide (key (label !!! i) ∈ remove_dups (key <$> label)))
      as [_|Hout].
    2:{ destruct Hout. apply elem_of_remove_dups, list_elem_of_fmap.
        exists (label !!! i). split; [done|].
        by apply list_elem_of_lookup_total_2. }
    unfold share, contributes, term. simpl.
    destruct (decide (same (label !!! i) (label !!! j) = true
                      ∧ posn pos (label !!! i) = p
                      ∧ posn pos (label !!! j) = p)) as [(Hs & Hpi & Hpj)|Hn].
    + apply Hkey in Hs.
      rewrite !decide_True by (split; congruence). done.
    + destruct (decide (key (label !!! j) = key (label !!! i)
                        ∧ posn pos (label !!! j) = p)) as [[Hk Hpj]|Hj];
        [|apply complex_eq; simpl; ring].
      destruct (decide (key (label !!! i) = key (label !!! i)
                        ∧ posn pos (label !!! i) = p)) as [[_ Hpi]|Hi'];
        [|apply complex_eq; simpl; ring].
      destruct Hn. split; [|done]. apply Hkey. congruence.
  - apply NoDup_remove_dups.
  - intros t _ Hne. unfold share at 2.
    rewrite decide_False by (intros [? _]; congruence).
    apply complex_eq; simpl; ring.
Qed.

(** A diagonal entry is a sum of squared moduli. *)
Lemma population_squares p :
  csum (term e_vec
          <$> filter (contributes same pos label p p)
                (all_cells (length label)))
  = csum ((λ t,
       vdot (csum (share pos label e_vec key p t <$> seq 0 (length label)))
            (csum (share pos label e_vec key p t <$> seq 0 (length label))))
      <$> remove_dups (key <$> label)).
Proof.
  rewrite csum_filter, csum_all_cells.
  rewrite (csum_ext _ (λ i, csum ((λ t, csum ((λ j,
             vdot (share pos label e_vec key p t j)
                  (share pos label e_vec key p t i))
             <$> seq 0 (length label)))
             <$> remove_dups (key <$> label)))).
  2:{ intros i Hi%elem_of_seq.
      rewrite (csum_ext _ (λ j, csum ((λ t,
                 vdot (share pos label e_vec key p t j)
                      (share pos label e_vec key p t i))
                 <$> remove_dups (key <$> label)))).
      - apply csum_swap.
      - intros j _. apply contribution_shares. lia. }
  rewrite csum_swap. apply csum_ext. intros t _.
  by rewrite vdot_csum.
Qed.

Lemma population_nonneg p :
  let d := csum (term e_vec
                   <$> filter (contributes same pos label p p)
                         (all_cells (length label))) in
  im d = 0%Qc ∧ (0 ≤ re d)%Qc.
Proof.
  intros d. unfold d. rewrite population_squares. split.
  - rewrite im_csum, <- list_fmap_compose.
    rewrite (qsum_ext _ (λ _, 0%Qc)); [apply qsum_zero|].
    intros t _. simpl. ring.
  - rewrite re_csum, <- list_fmap_compose.
    apply qsum_nonneg. intros t. cbv [compose].
    rewrite re_vdot_self. apply Qc_add_nonneg; apply Qc_square_nonneg.
Qed.

End Populations.

Lemma same_a_key a b : same_a a b = true ↔ key_a a = key_a b.
Proof.
  unfold same_a, key_a. rewrite andb_true_iff, !Z.eqb_eq.
  split; [by intros [-> ->]|by intros [= -> ->]].
Qed.

Lemma same_b_key a b : same_b a b = true ↔ key_b a = key_b b.
Proof.
  unfold same_b, key_b. rewrite andb_true_iff, !Z.eqb_eq.
  split; [by intros [-> ->]|by intros [= -> ->]].
Qed.

(** X26: the populations: for a table [relabel] produced (strictly
    increasing states, duplicate-free A, [nop] at most the size of either
    sub-lattice) and any coefficient vector over the state space, every
    diagonal entry of the matrices accumulated by [density_matrix_a] and
    [rho_b_pbasis] is (in exact arithmetic) a real number that is not
    negative. *)
Theorem populations_nonnegative e_states nop nol_b lat_a label e_vec :
  Z.of_nat (length e_states) < 2 ^ 31 →
  Forall (StronglySorted Z.lt) e_states → NoDup lat_a →
  relabel e_states nop nol_b lat_a = Ok label →
  length e_vec = length label →
  (nop ≤ length lat_a)%nat → (nop ≤ nol_b)%nat →
  ∃ rho_a rho_b,
    density_loop_a label e_vec (length label) (length lat_a) nop = Ok rho_a ∧
    rho_loop_b label e_vec (length label) nol_b nop = Ok rho_b ∧
    (∀ p, (p < Z.to_nat (sum_binom (length lat_a) (nop + 1)))%nat →
       ∃ d, cell rho_a p p = Some d ∧ im d = 0%Qc ∧ (0 ≤ re d)%Qc) ∧
    (∀ p, (p < Z.to_nat (sum_binom nol_b (nop + 1)))%nat →
       ∃ d, cell rho_b p p = Some d ∧ im d = 0%Qc ∧ (0 ≤ re d)%Qc).
Proof.
  intros Hsmall Hsorted Hnd Hrun Hvec Hna Hnb.
  destruct (density_indices_in_bounds_aux e_states nop nol_b lat_a label
              Hsmall Hsorted Hnd Hrun) as [Hia Hib].
  pose proof (sum_ncr_sum_binom (length lat_a) (nop + 1) ltac:(lia)) as Hda.
  pose proof (sum_ncr_sum_binom nol_b (nop + 1) ltac:(lia)) as Hdb.
  replace (Z.of_nat (nop + 1)) with (Z.of_nat nop + 1) in Hda, Hdb by lia.
  set (dim_a := sum_binom (length lat_a) (nop + 1)) in *.
  set (dim_b := sum_binom nol_b (nop + 1)) in *.
  assert (∀ row, row ∈ label →
            ∃ p, index_a (length lat_a) row = Ok (Z.of_nat p)
                 ∧ (p < Z.to_nat dim_a)%nat) as Hpa.
  { intros row Hin. destruct (Hia dim_a Hda row Hin) as (m & Hm & Hrange).
    exists (Z.to_nat m). rewrite Z2Nat.id by lia. split; [done|lia]. }
  assert (∀ row, row ∈ label →
            ∃ p, index_b nol_b nop row = Ok (Z.of_nat p)
                 ∧ (p < Z.to_nat dim_b)%nat) as Hpb.
  { intros row Hin. destruct (Hib dim_b Hdb row Hin) as (m & Hm & Hrange).
    exists (Z.to_nat m). rewrite Z2Nat.id by lia. split; [done|lia]. }
  destruct (accumulate_loops same_a (index_a (length lat_a)) label e_vec
              (Z.to_nat dim_a) Hvec Hpa) as (rho_a & Hra & _ & Hca & _).
  destruct (accumulate_loops same_b (index_b nol_b nop) label e_vec
              (Z.to_nat dim_b) Hvec Hpb) as (rho_b & Hrb & _ & Hcb & _).
  rewrite <- (density_loop_a_accumulate _ _ _ _ _ _ Hda) in Hra.
  rewrite <- (rho_loop_b_accumulate _ _ _ _ _ _ Hdb) in Hrb.
  exists rho_a, rho_b. split; [done|]. split; [done|]. split.
  - intros p Hp. eexists. split; [by apply Hca|].
    apply (population_nonneg same_a _ label e_vec key_a same_a_key).
  - intros p Hp. eexists. split; [by apply Hcb|].
    apply (population_nonneg same_b _ label e_vec key_b same_b_key).
Qed.

Lemma populations_nonnegative_witness :
  ∃ rho_b d,
    rho_loop_b [LabelRow 1 1 1; LabelRow 1 0 1; LabelRow 1 0 2]
      [Complex 0 1; Complex 1 1; Complex (-1) 0] 3 2 1 = Ok rho_b ∧
    cell rho_b 1 1 = Some d ∧ (0 ≤ re d)%Qc.
Proof.
  destruct (populations_nonnegative [[1]; [2]; [3]] 1 2 [1]
              [LabelRow 1 1 1; LabelRow 1 0 1; LabelRow 1 0 2]
              [Complex 0 1; Complex 1 1; Complex (-1) 0])
    as (rho_a & rho_b & _ & Hb & _ & Hpop).
  - simpl. lia.
  - repeat constructor; lia.
  - by apply (bool_decide_unpack _).
  - reflexivity.
  - done.
  - simpl. lia.
  - lia.
  - destruct (Hpop 1%nat) as (d & Hd & _ & Hre); [vm_compute; lia|].
    by exists rho_b, d.
Defined.
